(** * gg_ws: the wire-level WebSocket engine

    A shallow embedding of the client in [gg-ws/src/websocket.cpp]
    (URL parser, frame codec, I/O loop, handlers, reconnection) and of
    [HeartbeatManager] in [gg-ws/src/internal/heartbeat_manager.hpp],
    with the constants of [gg_ws/types.hpp]; of the send queue
    [LockFreeQueue] in [gg-ws/src/internal/message_queue.hpp] and of
    [BufferPool] in [gg-ws/src/internal/memory_pool.hpp].

    Conventions.
    - A byte ([uint8_t], or the bit pattern of a [char]) is a [Z] in
      [0, 256); [u8], [u16] and [u64] write out the wrap-around of the
      unsigned conversions of the source.
    - The socket is a finite list of inbound bytes followed by end of
      stream; [rawRecv] hands out as many bytes as were asked for, or
      what is left: frames are received in full, or cut by the end of the
      stream.
    - Callbacks, writes to the socket, sleeps and thread operations are
      recorded, in order, in a trace of events.  [std::terminate()] is an
      event too, the last one of the process: the call that makes it does
      not return. *)

From Stdlib Require Import String Ascii ZArith List Lia Bool.
From Stdlib Require Import Permutation.
Import ListNotations.
Local Open Scope Z_scope.

(** ** Constants of [types.hpp] *)

Module Opcode.
Definition Continuation : Z := 0x0.
Definition Text : Z := 0x1.
Definition Binary : Z := 0x2.
Definition Close : Z := 0x8.
Definition Ping : Z := 0x9.
Definition Pong : Z := 0xA.
End Opcode.

Module ErrorCode.
Definition Success : Z := 0.
Definition ConnectionFailed : Z := 1001.
Definition HandshakeFailed : Z := 1002.
Definition Timeout : Z := 1003.
Definition InvalidUrl : Z := 1004.
Definition TlsError : Z := 1005.
Definition SendFailed : Z := 1006.
Definition ReceiveFailed : Z := 1007.
Definition MessageTooLarge : Z := 1008.
Definition InvalidFrame : Z := 1009.
Definition PingTimeout : Z := 1010.
Definition Disconnected : Z := 1011.
End ErrorCode.

Module CloseCode.
Definition Normal : Z := 1000.
Definition GoingAway : Z := 1001.
Definition ProtocolError : Z := 1002.
Definition UnsupportedData : Z := 1003.
Definition NoStatusReceived : Z := 1005.
Definition AbnormalClosure : Z := 1006.
Definition InvalidPayload : Z := 1007.
Definition PolicyViolation : Z := 1008.
Definition MandatoryExtension : Z := 1010.
Definition InternalError : Z := 1011.
Definition TlsHandshake : Z := 1015.
End CloseCode.

(** ** Machine integers *)

Definition u8 (x : Z) : Z := x mod 256.
Definition u16 (x : Z) : Z := x mod 65536.
Definition u64 (x : Z) : Z := x mod 2 ^ 64.

Definition is_byte (b : Z) : Prop := 0 <= b < 256.
Definition size_of (data : list Z) : Z := Z.of_nat (length data).

(** ** Frame codec *)

Module Codec.

(** [maskKey[i % 4]] *)
Definition maskAt (maskKey : list Z) (i : nat) : Z :=
  nth (Nat.modulo i 4) maskKey 0.

(** The masking loop of [sendFrame],
    [static_cast<uint8_t>(payload[i]) ^ maskKey[i % 4]], which is also the
    unmasking loop of [readFrame], [buffer[i] ^= maskKey[i % 4]]; [i] is the
    index of the head of [data]. *)
Fixpoint applyMask (maskKey : list Z) (i : nat) (data : list Z) : list Z :=
  match data with
  | [] => []
  | b :: tl => u8 (Z.lxor (u8 b) (maskAt maskKey i)) :: applyMask maskKey (S i) tl
  end.

(** [static_cast<uint8_t>((payload.size() >> (i * 8)) & 0xFF)] *)
Definition byteAt (size i : Z) : Z :=
  u8 (Z.land (Z.shiftr size (i * 8)) 0xFF).

(** The second header byte and the extended length of [sendFrame]. *)
Definition lengthPrefix (size : Z) : list Z :=
  if size <? 126 then
    [u8 (Z.lor 0x80 (u8 size))]
  else if size <=? 65535 then
    [u8 (Z.lor 0x80 126);
     u8 (Z.land (Z.shiftr size 8) 0xFF);
     u8 (Z.land size 0xFF)]
  else
    u8 (Z.lor 0x80 127) :: map (byteAt size) [7; 6; 5; 4; 3; 2; 1; 0].

(** The byte vector [frame] that [sendFrame] hands to [rawSend], for the
    four bytes [maskKey] drawn from the random device. *)
Definition encodeFrame (opcode : Z) (payload : list Z) (maskKey : list Z)
  : list Z :=
  [u8 (Z.lor 0x80 opcode)]
    ++ lengthPrefix (size_of payload)
    ++ maskKey
    ++ applyMask maskKey 0 payload.

(** The length prefix in the words of the specification: a single byte with
    the high bit set below 126; the 126 marker and the length on 16 bits,
    big-endian, up to 65535; the 127 marker and the length on 64 bits,
    big-endian, otherwise.  [bigEndian k n] is [n] on [k] bytes, the most
    significant first. *)
Fixpoint bigEndian (k : nat) (n : Z) : list Z :=
  match k with
  | O => []
  | S k' => (n / 256 ^ Z.of_nat k') mod 256 :: bigEndian k' n
  end.

Definition specLengthPrefix (n : Z) : list Z :=
  if n <? 126 then [128 + n]
  else if n <=? 65535 then (128 + 126) :: bigEndian 2 n
  else (128 + 127) :: bigEndian 8 n.

(** [rawRecv(buffer, len)]: the bytes received and the rest of the stream;
    the [ssize_t] it returns is the length of the first component.  A read
    comes back short only at the end of the stream: a read that returns
    fewer bytes than it asked for while more are still to come (a frame
    split over two TCP segments), on which [readFrame] gives up as well, is
    not represented.  What is proved of [readFrame] is therefore proved of
    frames that its reads receive in full. *)
Definition rawRecv (len : Z) (stream : list Z) : list Z * list Z :=
  let n := Z.to_nat (Z.min len (size_of stream)) in
  (firstn n stream, skipn n stream).

Record Frame := mkFrame {
  fin : bool;
  opcode : Z;
  masked : bool;
  payloadLen : Z;
  payload : list Z
}.

(** What the first part of [readFrame] (up to the unmasking) produces. *)
Inductive Decoded :=
| DecFrame (f : Frame) (rest : list Z)
| DecTooLarge (rest : list Z)   (* payloadLen > config.maxMessageSize *)
| DecRecvFailed.                (* a [rawRecv] came back short: the stream is over *)

(** The header fields, before the size check. *)
Record Header := mkHeader {
  h_fin : bool;
  h_opcode : Z;
  h_masked : bool;
  h_payloadLen : Z
}.

(** [for (i = 0; i < 8; ++i) payloadLen = (payloadLen << 8) | lenBytes[i]] *)
Definition be64 (lenBytes : list Z) : Z :=
  fold_left (fun acc b => Z.lor (u64 (Z.shiftl acc 8)) b) lenBytes 0.

(** [(header[0] & 0x80) != 0] and [(header[1] & 0x80) != 0] *)
Definition finBit (h0 : Z) : bool := negb (Z.land h0 0x80 =? 0).
Definition maskBit (h1 : Z) : bool := negb (Z.land h1 0x80 =? 0).

Definition readHeader (stream : list Z) : option (Header * list Z) :=
  let '(header, s1) := rawRecv 2 stream in
  if negb (size_of header =? 2) then None else
  let h0 := nth 0 header 0 in
  let h1 := nth 1 header 0 in
  let fin := finBit h0 in
  let opcode := Z.land h0 0x0F in
  let masked := maskBit h1 in
  let payloadLen := Z.land h1 0x7F in
  if payloadLen =? 126 then
    let '(lenBytes, s2) := rawRecv 2 s1 in
    if negb (size_of lenBytes =? 2) then None else
    Some (mkHeader fin opcode masked
            (Z.lor (Z.shiftl (u64 (nth 0 lenBytes 0)) 8) (nth 1 lenBytes 0)),
          s2)
  else if payloadLen =? 127 then
    let '(lenBytes, s2) := rawRecv 8 s1 in
    if negb (size_of lenBytes =? 8) then None else
    Some (mkHeader fin opcode masked (be64 lenBytes), s2)
  else
    Some (mkHeader fin opcode masked payloadLen, s1).

Inductive Payload :=
| PayloadOk (buffer rest : list Z)
| PayloadShort
| PayloadFuel.

(** [while (totalRead < payloadLen) { n = rawRecv(...); if (n <= 0) return
    false; totalRead += n; }].  Every round takes at least one byte from
    the stream, so [S (length stream)] rounds are enough. *)
Fixpoint recvPayload (fuel : nat) (remaining : Z) (stream buffer : list Z)
  : Payload :=
  if remaining <=? 0 then PayloadOk buffer stream else
  match fuel with
  | O => PayloadFuel
  | S fuel' =>
      let '(chunk, rest) := rawRecv remaining stream in
      if size_of chunk <=? 0 then PayloadShort
      else recvPayload fuel' (remaining - size_of chunk) rest (buffer ++ chunk)
  end.

(** [readFrame], from the header to the unmasked payload. *)
Definition decodeFrame (maxMessageSize : Z) (stream : list Z) : Decoded :=
  match readHeader stream with
  | None => DecRecvFailed
  | Some (h, s1) =>
      if h_payloadLen h >? maxMessageSize then DecTooLarge s1 else
      let '(maskKey, s2) :=
        if h_masked h then rawRecv 4 s1 else ([0; 0; 0; 0], s1) in
      if h_masked h && negb (size_of maskKey =? 4) then DecRecvFailed else
      match recvPayload (S (length s2)) (h_payloadLen h) s2 [] with
      | PayloadOk buffer rest =>
          let buffer' :=
            if (h_payloadLen h >? 0) && h_masked h
            then applyMask maskKey 0 buffer else buffer in
          DecFrame (mkFrame (h_fin h) (h_opcode h) (h_masked h)
                            (h_payloadLen h) buffer') rest
      | PayloadShort => DecRecvFailed
      | PayloadFuel => DecRecvFailed
      end
  end.

End Codec.

(** ** URL parser *)

Module Url.
Local Open Scope string_scope.
Local Open Scope Z_scope.

(** The exceptions of [std::stoi]. *)
Inductive Exn := invalid_argument | out_of_range.

(** A C++ call either returns or throws. *)
Inductive Outcome (A : Type) :=
| Returned (a : A)
| Threw (e : Exn).
Arguments Returned {A} a.
Arguments Threw {A} e.

Definition INT_MIN : Z := - 2 ^ 31.
Definition INT_MAX : Z := 2 ^ 31 - 1.

(** [std::isspace] in the C locale. *)
Definition isspace (c : ascii) : bool :=
  let n := nat_of_ascii c in
  Nat.eqb n 32 || (Nat.leb 9 n && Nat.leb n 13).

Definition digit (c : ascii) : option Z :=
  let n := nat_of_ascii c in
  if Nat.leb 48 n && Nat.leb n 57 then Some (Z.of_nat n - 48) else None.

Fixpoint skipSpaces (s : string) : string :=
  match s with
  | String c tl => if isspace c then skipSpaces tl else s
  | EmptyString => s
  end.

(** The longest run of decimal digits at the head of [s], as a number;
    [None] when [s] does not start with a digit. *)
Fixpoint digits (s : string) (acc : option Z) : option Z :=
  match s with
  | String c tl =>
      match digit c with
      | Some d =>
          digits tl (Some (10 * match acc with Some a => a | None => 0 end + d))
      | None => acc
      end
  | EmptyString => acc
  end.

(** [std::stoi(str)], base 10: white space, an optional sign, digits;
    what follows the digits is ignored. *)
Definition stoi (str : string) : Outcome Z :=
  let s := skipSpaces str in
  let '(negative, s') :=
    match s with
    | String "-" tl => (true, tl)
    | String "+" tl => (false, tl)
    | _ => (false, s)
    end in
  match digits s' None with
  | None => Threw invalid_argument
  | Some v =>
      let v' := if negative then - v else v in
      if (v' <? INT_MIN) || (v' >? INT_MAX) then Threw out_of_range
      else Returned v'
  end.

(** [s.find(c)] and [s.rfind(c)]; [None] is [npos]. *)
Fixpoint find (c : ascii) (s : string) : option nat :=
  match s with
  | EmptyString => None
  | String a tl =>
      if Ascii.eqb a c then Some O
      else match find c tl with Some i => Some (S i) | None => None end
  end.

Fixpoint rfind (c : ascii) (s : string) : option nat :=
  match s with
  | EmptyString => None
  | String a tl =>
      match rfind c tl with
      | Some i => Some (S i)
      | None => if Ascii.eqb a c then Some O else None
      end
  end.

(** [s.substr(pos)], [s.substr(0, n)]; [remove_prefix(n)] is [substr n]. *)
Fixpoint substr (pos : nat) (s : string) : string :=
  match pos, s with
  | O, _ => s
  | S p, String _ tl => substr p tl
  | S _, EmptyString => EmptyString
  end.

Fixpoint take (n : nat) (s : string) : string :=
  match n, s with
  | S m, String a tl => String a (take m tl)
  | _, _ => EmptyString
  end.

Record ParsedUrl := mkParsedUrl {
  secure : bool;
  host : string;
  port : Z;          (* uint16_t *)
  path : string
}.

Definition valid (u : ParsedUrl) : bool :=
  negb (String.eqb (host u) "") && (port u >? 0).

Definition parseUrl (url : string) : Outcome ParsedUrl :=
  let scheme :=
    if String.eqb (take 6 url) "wss://" then Some (true, substr 6 url)
    else if String.eqb (take 5 url) "ws://" then Some (false, substr 5 url)
    else None in
  match scheme with
  | None => Returned (mkParsedUrl false "" 0 "")
  | Some (secure, url) =>
      let port := if secure then 443 else 80 in
      let '(hostPort, path) :=
        match find "/" url with
        | Some pathPos => (take pathPos url, substr pathPos url)
        | None => (url, "/")
        end in
      match rfind ":" hostPort with
      | Some colonPos =>
          let host := take colonPos hostPort in
          let portStr := substr (colonPos + 1) hostPort in
          match stoi portStr with
          | Returned n => Returned (mkParsedUrl secure host (u16 n) path)
          | Threw e => Threw e
          end
      | None => Returned (mkParsedUrl secure hostPort port path)
      end
  end.

End Url.

(** ** The session: [WebSocket::Impl] *)

Module Session.
Import Codec.

Inductive PingMode := Disabled | OpcodeMode | TextMessage.

Record PingConfig := mkPingConfig {
  mode : PingMode;
  interval : Z;            (* milliseconds *)
  timeout : Z;             (* milliseconds *)
  textMessage : list Z;
  autoPong : bool
}.

Record WebSocketConfig := mkConfig {
  url : string;
  connectTimeout : Z;      (* milliseconds *)
  maxMessageSize : Z;      (* size_t *)
  autoReconnect : bool;
  maxReconnectAttempts : Z;
  ping : PingConfig
}.

(** Which of the [std::function] members hold a callable. *)
Record Callbacks := mkCallbacks {
  onMessageCb : bool;
  onRawMessageCb : bool;
  onErrorCb : bool;
  onConnectCb : bool;
  onDisconnectCb : bool;
  onPingCb : bool;
  onPongCb : bool
}.

Record Impl := mkImpl {
  config : WebSocketConfig;
  parsedUrl : Url.ParsedUrl;
  connected : bool;
  running : bool;
  reconnectAttempts : Z;
  callbacks : Callbacks;
  ioThread : bool          (* ioThread.joinable() *)
}.

(** The constructor [Impl(WebSocketConfig cfg)]: it parses [config.url];
    no callback is set yet. *)
Definition newImpl (cfg : WebSocketConfig) : Url.Outcome Impl :=
  match Url.parseUrl (url cfg) with
  | Url.Returned u =>
      Url.Returned
        (mkImpl cfg u false false 0
                (mkCallbacks false false false false false false false)
                false)
  | Url.Threw e => Url.Threw e
  end.

(** What is observable of a run, in order. *)
Inductive Event :=
| EvError (code : Z)               (* onErrorCb(code, msg) *)
| EvConnect                        (* onConnectCb() *)
| EvDisconnect (code : Z)          (* onDisconnectCb(code) *)
| EvRawMessage (data : list Z)     (* onRawMessageCb(data) *)
| EvMessage (data : list Z)        (* onMessageCb, on the parsed JSON *)
| EvPing (payload : list Z)        (* onPingCb(payload) *)
| EvPong (payload : list Z)        (* onPongCb(payload) *)
| EvRawSend (frame : list Z)       (* rawSend(frame.data(), frame.size()) in sendFrame *)
| EvSleep (seconds : Z)            (* std::this_thread::sleep_for *)
| EvCleanup                        (* cleanup() *)
| EvIoThread                       (* ioThread = std::thread(&Impl::ioLoop, this) *)
| EvTerminate                      (* std::terminate(), from that assignment *)
| EvJoinIoThread                   (* if (ioThread.joinable()) ioThread.join() *)
| EvHeartbeatStart                 (* heartbeat->start(...) *)
| EvHeartbeatStop                  (* heartbeat->stop() *)
| EvHeartbeatPong.                 (* heartbeat->onPongReceived() *)

(** How one run of [initSocket], [connectSocket], [initTls] and
    [performHandshake] goes: the operating system, the TLS library and the
    peer decide. *)
Record NetAttempt := mkNetAttempt {
  initSocket_ok : bool;
  connectSocket_ok : bool;
  initTls_ok : bool;
  performHandshake_ok : bool
}.

(** The collaborators of the session. *)
Record Env := mkEnv {
  jsonParses : list Z -> bool;     (* Json::parse(data).has_value() *)
  entropy : nat -> Z;              (* the successive values of dis(gen) *)
  network : nat -> NetAttempt;     (* the outcome of the n-th connection attempt *)
  writable : bool                  (* what rawSend returns *)
}.

Record World := mkWorld {
  env : Env;
  impl : Impl;
  inbound : list Z;                (* the bytes the socket will deliver *)
  sendQueue : list (list Z);       (* the messages pushed by sendAsync *)
  draws : nat;                     (* random bytes drawn so far *)
  dials : nat;                     (* connection attempts made so far *)
  trace : list Event
}.

(** *** A state monad over [World] *)

Definition M (A : Type) : Type := World -> A * World.

Definition ret {A} (a : A) : M A := fun w => (a, w).
Definition bind {A B} (m : M A) (k : A -> M B) : M B :=
  fun w => let '(a, w') := m w in k a w'.

Declare Scope ws_scope.
Delimit Scope ws_scope with ws.
Notation "x <- m ;; k" := (bind m (fun x => k))
  (at level 61, m at next level, right associativity) : ws_scope.
Notation "m ;; k" := (bind m (fun _ => k))
  (at level 61, right associativity) : ws_scope.
Local Open Scope ws_scope.

Definition get {A} (f : World -> A) : M A := fun w => (f w, w).
Definition when (b : bool) (m : M unit) : M unit := if b then m else ret tt.

(** The event of a callback, when the callback is set. *)
Definition fire (set : bool) (e : Event) : list Event :=
  if set then [e] else [].

Definition emit (e : Event) : M unit :=
  fun w => (tt, mkWorld (env w) (impl w) (inbound w) (sendQueue w) (draws w)
                        (dials w) (trace w ++ [e])).
Definition modifyImpl (f : Impl -> Impl) : M unit :=
  fun w => (tt, mkWorld (env w) (f (impl w)) (inbound w) (sendQueue w)
                        (draws w) (dials w) (trace w)).
Definition setInbound (s : list Z) : M unit :=
  fun w => (tt, mkWorld (env w) (impl w) s (sendQueue w) (draws w) (dials w)
                        (trace w)).
Definition setSendQueue (q : list (list Z)) : M unit :=
  fun w => (tt, mkWorld (env w) (impl w) (inbound w) q (draws w) (dials w)
                        (trace w)).

Definition setConnected (b : bool) : M unit :=
  modifyImpl (fun i => mkImpl (config i) (parsedUrl i) b (running i)
                              (reconnectAttempts i) (callbacks i)
                              (ioThread i)).
Definition setRunning (b : bool) : M unit :=
  modifyImpl (fun i => mkImpl (config i) (parsedUrl i) (connected i) b
                              (reconnectAttempts i) (callbacks i)
                              (ioThread i)).
Definition setReconnectAttempts (n : Z) : M unit :=
  modifyImpl (fun i => mkImpl (config i) (parsedUrl i) (connected i)
                              (running i) n (callbacks i) (ioThread i)).
Definition setIoThread (b : bool) : M unit :=
  modifyImpl (fun i => mkImpl (config i) (parsedUrl i) (connected i)
                              (running i) (reconnectAttempts i)
                              (callbacks i) b).

(** One value of [dis(gen)], as [static_cast<uint8_t>] stores it. *)
Definition randomByte : M Z :=
  fun w => (u8 (entropy (env w) (draws w)),
            mkWorld (env w) (impl w) (inbound w) (sendQueue w) (S (draws w))
                    (dials w) (trace w)).

(** The next connection attempt. *)
Definition dial : M NetAttempt :=
  fun w => (network (env w) (dials w),
            mkWorld (env w) (impl w) (inbound w) (sendQueue w) (draws w)
                    (S (dials w)) (trace w)).

(** [w] with other bytes to come, with other events so far. *)
Definition withInbound (s : list Z) (w : World) : World := snd (setInbound s w).
Definition withTrace (t : list Event) (w : World) : World :=
  mkWorld (env w) (impl w) (inbound w) (sendQueue w) (draws w) (dials w) t.

(** [t'] is [t] and then events that all satisfy [P]. *)
Definition grows (P : Event -> Prop) (t t' : list Event) : Prop :=
  exists evs, t' = t ++ evs /\ Forall P evs.

Definition isError (e : Event) : Prop :=
  match e with EvError _ => True | _ => False end.

Definition isDisconnect (e : Event) : Prop :=
  match e with EvDisconnect _ => True | _ => False end.

(** The opcodes that the [switch] of [readFrame] has a case for. *)
Definition knownOpcode (op : Z) : bool :=
  (op =? Opcode.Text) || (op =? Opcode.Binary) || (op =? Opcode.Close)
  || (op =? Opcode.Ping) || (op =? Opcode.Pong).

Definition isPing (e : Event) : Prop :=
  match e with EvPing _ => True | _ => False end.

(** In [t], every call of [onPing] comes right after the write of a Pong
    frame with the payload of the call. *)
Definition pongBeforePing (t : list Event) : Prop :=
  forall pre P post,
    t = pre ++ EvPing P :: post ->
    exists pre' key,
      pre = pre' ++ [EvRawSend (Codec.encodeFrame Opcode.Pong P key)].

(** [config.maxMessageSize] *)
Definition limitOf (w : World) : Z := maxMessageSize (config (impl w)).

(** *** Callbacks *)

Definition triggerError (code : Z) : M unit :=
  cb <- get (fun w => onErrorCb (callbacks (impl w)));;
  when cb (emit (EvError code)).

Definition triggerConnect : M unit :=
  cb <- get (fun w => onConnectCb (callbacks (impl w)));;
  when cb (emit EvConnect).

Definition triggerDisconnect (code : Z) : M unit :=
  cb <- get (fun w => onDisconnectCb (callbacks (impl w)));;
  when cb (emit (EvDisconnect code)).

Definition cleanup : M unit := emit EvCleanup.

(** *** Sending *)

Definition rawSend (data : list Z) : M bool :=
  emit (EvRawSend data);;
  get (fun w => writable (env w)).

Definition sendFrame (opcode : Z) (payload : list Z) : M bool :=
  k0 <- randomByte;;
  k1 <- randomByte;;
  k2 <- randomByte;;
  k3 <- randomByte;;
  rawSend (encodeFrame opcode payload [k0; k1; k2; k3]).

(** The four bytes [sendFrame] draws in [w]. *)
Definition maskKey (w : World) : list Z :=
  map (fun j => u8 (entropy (env w) (draws w + j))) [0; 1; 2; 3]%nat.

Definition sendCloseFrame (code : Z) : M unit :=
  sendFrame Opcode.Close
            [u8 (Z.land (Z.shiftr code 8) 0xFF); u8 (Z.land code 0xFF)];;
  ret tt.

Definition send (message : list Z) : M bool :=
  c <- get (fun w => connected (impl w));;
  if negb c then ret false else sendFrame Opcode.Text message.

Definition sendBinary (data : list Z) : M bool :=
  c <- get (fun w => connected (impl w));;
  if negb c then ret false else sendFrame Opcode.Binary data.

Definition sendPingFrame (payload : list Z) : M bool :=
  c <- get (fun w => connected (impl w));;
  if negb c then ret false else sendFrame Opcode.Ping payload.

Definition sendPongFrame (payload : list Z) : M bool :=
  c <- get (fun w => connected (impl w));;
  if negb c then ret false else sendFrame Opcode.Pong payload.

(** *** Connecting *)

(** [connect()].  Its value is [Some b] when the call returns [b], and
    [None] when it does not return.  The handshake bytes are exchanged on
    the new socket, before any frame; they are part of the [NetAttempt] and
    of no trace.  The start of the I/O thread is an event: what the new
    thread then reads is another run of [ioLoop], on the new socket.

    [ioThread = std::thread(&Impl::ioLoop, this)] is a move assignment: when
    [ioThread] is still joinable (the session was opened before and
    [disconnect()] has not joined the thread, or [connect()] is called by
    [handleDisconnect], on the I/O thread itself), the assignment calls
    [std::terminate()]: the process ends there, with the flags already
    set, and neither the heartbeat nor [onConnect] is reached.  What the
    thread created for the assignment may do before the process is gone
    is not represented. *)
Definition connect : M (option bool) :=
  u <- get (fun w => parsedUrl (impl w));;
  if negb (Url.valid u) then
    triggerError ErrorCode.InvalidUrl;; ret (Some false)
  else
    net <- dial;;
    if negb (initSocket_ok net) then
      triggerError ErrorCode.ConnectionFailed;; ret (Some false)
    else if negb (connectSocket_ok net) then
      triggerError ErrorCode.ConnectionFailed;; cleanup;; ret (Some false)
    else if Url.secure u && negb (initTls_ok net) then
      triggerError ErrorCode.TlsError;; cleanup;; ret (Some false)
    else if negb (performHandshake_ok net) then
      triggerError ErrorCode.HandshakeFailed;; cleanup;; ret (Some false)
    else
      setConnected true;;
      setRunning true;;
      setReconnectAttempts 0;;
      joinable <- get (fun w => ioThread (impl w));;
      if joinable then
        emit EvTerminate;; ret None
      else
        setIoThread true;;
        emit EvIoThread;;
        emit EvHeartbeatStart;;
        triggerConnect;;
        ret (Some true).

(** Whether [connect()] gets through the four steps of an attempt. *)
Definition attemptSucceeds (secure : bool) (net : NetAttempt) : bool :=
  initSocket_ok net && connectSocket_ok net
  && (negb secure || initTls_ok net) && performHandshake_ok net.

(** [disconnect(code)] *)
Definition disconnect (code : Z) : M unit :=
  wasConnected <- get (fun w => connected (impl w));;
  setConnected false;;
  setRunning false;;
  emit EvHeartbeatStop;;
  when wasConnected (sendCloseFrame code);;
  emit EvJoinIoThread;;
  setIoThread false;;
  cleanup;;
  when wasConnected (triggerDisconnect code).

(** *** Handlers *)

Definition handleMessage (data : list Z) : M unit :=
  raw <- get (fun w => onRawMessageCb (callbacks (impl w)));;
  when raw (emit (EvRawMessage data));;
  json <- get (fun w => jsonParses (env w) data);;
  cb <- get (fun w => onMessageCb (callbacks (impl w)));;
  when (json && cb) (emit (EvMessage data)).

Definition handlePing (payload : list Z) : M unit :=
  auto <- get (fun w => autoPong (ping (config (impl w))));;
  (if auto then sendPongFrame payload;; ret tt else ret tt);;
  cb <- get (fun w => onPingCb (callbacks (impl w)));;
  when cb (emit (EvPing payload)).

Definition handlePong (payload : list Z) : M unit :=
  emit EvHeartbeatPong;;
  cb <- get (fun w => onPongCb (callbacks (impl w)));;
  when cb (emit (EvPong payload)).

(** The status code [handleClose] reads from the payload, into a local
    variable. *)
Definition closeCode (payload : list Z) : Z :=
  if size_of payload >=? 2
  then Z.lor (Z.shiftl (u8 (nth 0 payload 0)) 8) (u8 (nth 1 payload 0))
  else CloseCode.NoStatusReceived.

Definition handleClose (payload : list Z) : M unit :=
  let code := closeCode payload in
  setConnected false;;
  setRunning false.

(** [handleDisconnect()], which [ioLoop] calls on the I/O thread.  When
    [connect()] does not return ([std::terminate()]), nothing follows. *)
Definition handleDisconnect : M unit :=
  setConnected false;;
  i <- get impl;;
  reconnected <-
    (if autoReconnect (config i)
        && (reconnectAttempts i <? maxReconnectAttempts (config i))
     then
       setReconnectAttempts (reconnectAttempts i + 1);;
       emit (EvSleep (1 * (reconnectAttempts i + 1)));;
       cleanup;;
       connect
     else ret (Some false));;
  match reconnected with
  | None => ret tt
  | Some true => ret tt
  | Some false =>
      setRunning false;;
      triggerDisconnect CloseCode.AbnormalClosure
  end.

(** *** Reading *)

(** The [switch (opcode)] of [readFrame]; its value is what [readFrame]
    returns. *)
Definition dispatch (f : Frame) : M bool :=
  let op := opcode f in
  if (op =? Opcode.Text) || (op =? Opcode.Binary) then
    handleMessage (payload f);; ret true
  else if op =? Opcode.Close then
    handleClose (payload f);; ret false
  else if op =? Opcode.Ping then
    handlePing (payload f);; ret true
  else if op =? Opcode.Pong then
    handlePong (payload f);; ret true
  else
    ret true.

Definition readFrame : M bool :=
  s <- get inbound;;
  limit <- get (fun w => maxMessageSize (config (impl w)));;
  match decodeFrame limit s with
  | DecRecvFailed => setInbound [];; ret false
  | DecTooLarge rest =>
      setInbound rest;;
      triggerError ErrorCode.MessageTooLarge;;
      ret false
  | DecFrame f rest =>
      setInbound rest;;
      dispatch f
  end.

(** The loop over [sendQueue.pop()] of [ioLoop], which calls [send] on each
    message. *)
Fixpoint sendAll (msgs : list (list Z)) : M unit :=
  match msgs with
  | [] => ret tt
  | msg :: tl => send msg;; sendAll tl
  end.

Definition drainSendQueue : M unit :=
  q <- get sendQueue;;
  setSendQueue [];;
  sendAll q.

(** [ioLoop()], once the socket is readable or at its end ([waitForData]
    then returns true).  The value is [false] when [fuel] rounds were not
    enough to reach the end of the loop. *)
Fixpoint ioLoop (fuel : nat) : M bool :=
  match fuel with
  | O => ret false
  | S fuel' =>
      r <- get (fun w => running (impl w));;
      if negb r then ret true
      else
        drainSendQueue;;
        ok <- readFrame;;
        if ok then ioLoop fuel'
        else
          c <- get (fun w => connected (impl w));;
          when c handleDisconnect;;
          ret true
  end.

End Session.

(** ** The heartbeat engine: [HeartbeatManager] *)

Module Heartbeat.
Import Session.

(** The manager, as the thread that calls its public functions sees it.
    [mutex_] is a [std::mutex]: the worker holds it for bounded stretches
    only (it waits on [cv_] with the mutex released), so the caller's lock
    is granted unless the caller holds the mutex already; [mutex_held] says
    whether it does. *)
Record Manager := mkManager {
  config_ : PingConfig;
  running_ : bool;
  waitingPong_ : bool;
  mutex_held : bool;
  timerThread_ : bool            (* the worker exists and has not been joined *)
}.

(** A call returns, or the calling thread blocks for ever on a mutex that
    it owns itself. *)
Inductive Outcome (A : Type) :=
| Returns (a : A) (s : Manager)
| Blocked (s : Manager).
Arguments Returns {A} a s.
Arguments Blocked {A} s.

Definition H (A : Type) : Type := Manager -> Outcome A.

Definition hret {A} (a : A) : H A := fun s => Returns a s.
Definition hbind {A B} (m : H A) (k : A -> H B) : H B :=
  fun s => match m s with
           | Returns a s' => k a s'
           | Blocked s' => Blocked s'
           end.

Declare Scope hb_scope.
Delimit Scope hb_scope with hb.
Notation "x <- m ;; k" := (hbind m (fun x => k))
  (at level 61, m at next level, right associativity) : hb_scope.
Notation "m ;; k" := (hbind m (fun _ => k))
  (at level 61, right associativity) : hb_scope.
Local Open Scope hb_scope.

Definition hget {A} (f : Manager -> A) : H A := fun s => Returns (f s) s.

(** [mutex_.lock()], from the constructor of [std::lock_guard]. *)
Definition lock : H unit :=
  fun s =>
    if mutex_held s then Blocked s
    else Returns tt (mkManager (config_ s) (running_ s) (waitingPong_ s) true
                               (timerThread_ s)).

(** [mutex_.unlock()], from the destructor of [std::lock_guard]. *)
Definition unlock : H unit :=
  fun s => Returns tt (mkManager (config_ s) (running_ s) (waitingPong_ s)
                                 false (timerThread_ s)).

Definition setRunning_ (b : bool) : H unit :=
  fun s => Returns tt (mkManager (config_ s) b (waitingPong_ s) (mutex_held s)
                                 (timerThread_ s)).

Definition setWaitingPong_ (b : bool) : H unit :=
  fun s => Returns tt (mkManager (config_ s) (running_ s) b (mutex_held s)
                                 (timerThread_ s)).

Definition setConfigMode (m : PingMode) : H unit :=
  fun s => Returns tt
    (mkManager (mkPingConfig m (interval (config_ s)) (timeout (config_ s))
                             (textMessage (config_ s)) (autoPong (config_ s)))
               (running_ s) (waitingPong_ s) (mutex_held s) (timerThread_ s)).

(** [timerThread_ = std::thread(&HeartbeatManager::timerLoop, this)] *)
Definition spawnTimerThread : H unit :=
  fun s => Returns tt (mkManager (config_ s) (running_ s) (waitingPong_ s)
                                 (mutex_held s) true).

(** [timerThread_.join()]: with [running_] cleared and [cv_] notified the
    worker leaves [timerLoop]. *)
Definition joinTimerThread : H unit :=
  fun s => Returns tt (mkManager (config_ s) (running_ s) (waitingPong_ s)
                                 (mutex_held s) false).

Definition is_disabled (m : PingMode) : bool :=
  match m with Disabled => true | _ => false end.

Definition start : H unit :=
  lock;;
  r <- hget running_;;
  if r then unlock
  else
    m <- hget (fun s => mode (config_ s));;
    if is_disabled m then unlock
    else
      setRunning_ true;;
      setWaitingPong_ false;;
      spawnTimerThread;;
      unlock.

Definition stop : H unit :=
  lock;;
  r <- hget running_;;
  if negb r then unlock
  else
    setRunning_ false;;
    unlock;;
    (* cv_.notify_all() *)
    j <- hget timerThread_;;
    if j then joinTimerThread else hret tt.

Definition setMode (m : PingMode) : H unit :=
  lock;;
  setConfigMode m;;
  (if is_disabled m then stop else hret tt);;
  unlock.

End Heartbeat.

(** ** Sample sessions *)

Module Sample.
Import Session.

Definition pingConfig : PingConfig :=
  mkPingConfig OpcodeMode 30000 10000 [112; 105; 110; 103] true.

(** The defaults of [WebSocketConfig], but for the three fields given. *)
Definition config (limit : Z) (reconnect : bool) (attempts : Z)
  : WebSocketConfig :=
  mkConfig "ws://echo.example/" 10000 limit reconnect attempts pingConfig.

Definition allCallbacks : Callbacks :=
  mkCallbacks true true true true true true true.

Definition echoUrl : Url.ParsedUrl :=
  Url.mkParsedUrl false "echo.example" 80 "/".

(** A session in the state [connect()] leaves it in: connected, running,
    with its I/O thread. *)
Definition open (cfg : WebSocketConfig) : Impl :=
  mkImpl cfg echoUrl true true 0 allCallbacks true.

(** A connection attempt that the peer refuses, and one that goes through. *)
Definition refused : NetAttempt := mkNetAttempt true false false false.
Definition accepted : NetAttempt := mkNetAttempt true true true true.

(** No payload parses as JSON, the random bytes are 1, 2, 3, ..., every
    connection attempt is refused. *)
Definition env : Env :=
  mkEnv (fun _ => false) (fun n => Z.of_nat n + 1) (fun _ => refused) true.

(** The same, with a peer that accepts every connection. *)
Definition friendlyEnv : Env :=
  mkEnv (fun _ => false) (fun n => Z.of_nat n + 1) (fun _ => accepted) true.

(** An open session on a socket that will deliver [bytes] and then end. *)
Definition world (cfg : WebSocketConfig) (bytes : list Z) : World :=
  mkWorld env (open cfg) bytes [] 0 0 [].

End Sample.

(** ** What the peer sends *)

Module Peer.

(** A frame as a server writes it: not masked, the length on seven bits
    (a payload of at most 125 bytes). *)
Definition frame7 (fin : bool) (opcode : Z) (payload : list Z) : list Z :=
  ((if fin then 0x80 else 0) + opcode) :: size_of payload :: payload.



End Peer.

(** ** The heartbeat worker: [HeartbeatManager::timerLoop]

    The worker as [connect()] starts it: [sendPing_] is
    [sendPingFrame("")], [sendTextPing_] is [sendTextMessage], [onTimeout_]
    is [triggerError(ErrorCode::PingTimeout, ...)].  Times are readings of
    [std::chrono::steady_clock], in nanoseconds. *)

Module HeartbeatWorker.
Import Session.
Local Open Scope ws_scope.

Record Timer := mkTimer {
  config_ : PingConfig;
  waitingPong_ : bool;
  lastPingSent_ : Z;
  lastPongReceived_ : Z
}.

(** The state [start()] leaves to the worker. *)
Definition started (cfg : PingConfig) (lastPing lastPong : Z) : Timer :=
  mkTimer cfg false lastPing lastPong.

(** [onPongReceived()], called by [handlePong] at time [now]. *)
Definition onPongReceived (now : Z) (t : Timer) : Timer :=
  mkTimer (config_ t) false (lastPingSent_ t) now.

(** [config_.timeout], a number of milliseconds, in nanoseconds. *)
Definition timeoutNs (t : Timer) : Z := timeout (config_ t) * 1000000.

(** One wake-up of the worker with [running_] still set: [checkedAt] is the
    clock when the pong deadline is checked, [sentAt] the clock after the
    ping was sent. *)
Definition timerCycle (checkedAt sentAt : Z) (t : Timer) : M Timer :=
  if waitingPong_ t && (checkedAt - lastPingSent_ t >? timeoutNs t) then
    triggerError ErrorCode.PingTimeout;;
    ret (mkTimer (config_ t) false (lastPingSent_ t) (lastPongReceived_ t))
  else
    sent <- match mode (config_ t) with
            | OpcodeMode => sendPingFrame []
            | TextMessage => send (textMessage (config_ t))
            | Disabled => ret false
            end;;
    if sent then
      ret (mkTimer (config_ t) true sentAt (lastPongReceived_ t))
    else ret t.

(** What happens between two wake-ups and at the wake-up: a pong may have
    been received, at [pongAt]. *)
Record Tick := mkTick {
  pongAt : option Z;
  checkedAt : Z;
  sentAt : Z
}.

Definition tick (k : Tick) (t : Timer) : M Timer :=
  timerCycle (checkedAt k) (sentAt k)
             (match pongAt k with
              | Some now => onPongReceived now t
              | None => t
              end).

(** The wake-ups of the worker, one after the other. *)
Fixpoint timerLoop (ticks : list Tick) (t : Timer) : M Timer :=
  match ticks with
  | [] => ret t
  | k :: rest => t' <- tick k t;; timerLoop rest t'
  end.

(** Every deadline check comes at most [bound] after the previous ping was
    sent, the first one after [since]. *)
Fixpoint frequent (bound since : Z) (ticks : list Tick) : Prop :=
  match ticks with
  | [] => True
  | k :: rest => checkedAt k - since <= bound /\ frequent bound (sentAt k) rest
  end.

End HeartbeatWorker.

(** ** The key of the handshake: [base64Encode], [generateWebSocketKey] *)

Module Base64.
Local Open Scope char_scope.

Definition u32 (x : Z) : Z := x mod 2 ^ 32.

Definition table : list ascii :=
  list_ascii_of_string
    "ABCDEFGHIJKLMNOPQRSTUVWXYZabcdefghijklmnopqrstuvwxyz0123456789+/".

(** [table[i]] *)
Definition tableAt (i : Z) : ascii := nth (Z.to_nat i) table "A".

(** One round of the loop of [base64Encode], for [data[i]] and, when they
    are in the array, [data[i + 1]] and [data[i + 2]]. *)
Definition group (a : Z) (b c : option Z) : list ascii :=
  let n := u32 (Z.shiftl (u32 a) 16) in
  let n := match b with
           | Some b => Z.lor n (u32 (Z.shiftl (u32 b) 8))
           | None => n
           end in
  let n := match c with
           | Some c => Z.lor n (u32 c)
           | None => n
           end in
  [tableAt (Z.land (Z.shiftr n 18) 0x3F);
   tableAt (Z.land (Z.shiftr n 12) 0x3F);
   match b with Some _ => tableAt (Z.land (Z.shiftr n 6) 0x3F) | None => "=" end;
   match c with Some _ => tableAt (Z.land n 0x3F) | None => "=" end].

Fixpoint base64Encode (data : list Z) : list ascii :=
  match data with
  | [] => []
  | [a] => group a None None
  | [a; b] => group a (Some b) None
  | a :: b :: c :: rest => group a (Some b) (Some c) ++ base64Encode rest
  end.

(** [generateWebSocketKey()], for the values [rnd 0], [rnd 1], ... of
    [dis(gen)]. *)
Definition generateWebSocketKey (rnd : nat -> Z) : list ascii :=
  base64Encode (map (fun i => u8 (rnd i)) (seq 0 16)).

End Base64.

(** * The send queue ([internal/message_queue.hpp])

    [LockFreeQueue<T>] as one thread sees it: a heap of nodes, each
    allocated at a fresh address and freed at most once, with the two
    pointers [head_] and [tail_]. An operation that would read, write or
    free a node that is not allocated has no result ([None]). [default]
    is the value of [T()], [movedFrom x] what [std::move] leaves behind
    in [x]. *)

Module LockFreeQueue.
Local Open Scope nat_scope.

Section Queue.
Context {T : Type} (default : T) (movedFrom : T -> T).

Record Node := mkNode { data : T; next : option nat }.

(** The heap: cell [p] is [Some (Some n)] while the node at address [p] is
    allocated, [Some None] once it is deleted. *)
Definition Heap := list (option Node).

Record Queue := mkQueue { heap : Heap; head_ : nat; tail_ : nat }.

Fixpoint set (h : Heap) (p : nat) (c : option Node) : Heap :=
  match h, p with
  | [], _ => []
  | _ :: h', O => c :: h'
  | x :: h', S p' => x :: set h' p' c
  end.

Definition load (h : Heap) (p : nat) : option Node :=
  match nth_error h p with
  | Some (Some n) => Some n
  | _ => None
  end.

(** [new Node(...)] *)
Definition new (h : Heap) (n : Node) : Heap * nat :=
  (h ++ [Some n], length h).

(** [delete p] *)
Definition delete (h : Heap) (p : nat) : option Heap :=
  match load h p with
  | Some _ => Some (set h p None)
  | None => None
  end.

(** [LockFreeQueue()] *)
Definition create : Queue :=
  let (h, dummy) := new [] (mkNode default None) in
  mkQueue h dummy dummy.

(** [push(item)] *)
Definition push (item : T) (q : Queue) : option Queue :=
  let (h, newNode) := new (heap q) (mkNode item None) in
  let prevTail := tail_ q in
  match load h prevTail with
  | Some n =>
      Some (mkQueue (set h prevTail (Some (mkNode (data n) (Some newNode))))
                    (head_ q) newNode)
  | None => None
  end.

(** [pop()] *)
Definition pop (q : Queue) : option (option T * Queue) :=
  let head := head_ q in
  match load (heap q) head with
  | None => None
  | Some hd =>
      match next hd with
      | None => Some (None, q)
      | Some nx =>
          match load (heap q) nx with
          | None => None
          | Some n =>
              let result := data n in
              let h := set (heap q) nx
                           (Some (mkNode (movedFrom (data n)) (next n))) in
              match delete h head with
              | Some h' => Some (Some result, mkQueue h' nx (tail_ q))
              | None => None
              end
          end
      end
  end.

(** [empty()] *)
Definition empty (q : Queue) : option bool :=
  match load (heap q) (head_ q) with
  | Some hd => Some (match next hd with None => true | Some _ => false end)
  | None => None
  end.

(** [while (pop().has_value()) {}] *)
Fixpoint drain (fuel : nat) (q : Queue) : option Queue :=
  match fuel with
  | O => None
  | S fuel =>
      match pop q with
      | None => None
      | Some (None, q') => Some q'
      | Some (Some _, q') => drain fuel q'
      end
  end.

(** [~LockFreeQueue()]: what is left of the heap. *)
Definition destroy (fuel : nat) (q : Queue) : option Heap :=
  match drain fuel q with
  | Some q' => delete (heap q') (head_ q')
  | None => None
  end.

(** A client of the queue: a sequence of calls and what they return. *)
Inductive Op := Push (item : T) | Pop | Empty.
Inductive Out := Pushed | Popped (r : option T) | IsEmpty (b : bool).

Fixpoint run (ops : list Op) (q : Queue) : option (list Out * Queue) :=
  match ops with
  | [] => Some ([], q)
  | Push item :: ops =>
      match push item q with
      | Some q' =>
          match run ops q' with
          | Some (outs, q'') => Some (Pushed :: outs, q'')
          | None => None
          end
      | None => None
      end
  | Pop :: ops =>
      match pop q with
      | Some (r, q') =>
          match run ops q' with
          | Some (outs, q'') => Some (Popped r :: outs, q'')
          | None => None
          end
      | None => None
      end
  | Empty :: ops =>
      match empty q with
      | Some b =>
          match run ops q with
          | Some (outs, q') => Some (IsEmpty b :: outs, q')
          | None => None
          end
      | None => None
      end
  end.

(** The reference: a first-in first-out list of items. *)
Fixpoint fifo (ops : list Op) (items : list T) : list Out * list T :=
  match ops with
  | [] => ([], items)
  | Push item :: ops =>
      let (outs, left) := fifo ops (items ++ [item]) in (Pushed :: outs, left)
  | Pop :: ops =>
      match items with
      | [] => let (outs, left) := fifo ops [] in (Popped None :: outs, left)
      | x :: xs =>
          let (outs, left) := fifo ops xs in (Popped (Some x) :: outs, left)
      end
  | Empty :: ops =>
      let (outs, left) := fifo ops items in
      (IsEmpty (match items with [] => true | _ => false end) :: outs, left)
  end.

Definition pushes (ops : list Op) : nat :=
  length (filter (fun op => match op with Push _ => true | _ => false end) ops).

(** The nodes of a queue that holds [items], from the dummy node at
    address [p] on: each points to the next address, the last to null. *)
Fixpoint cells (p : nat) (d : T) (items : list T) : Heap :=
  match items with
  | [] => [Some (mkNode d None)]
  | x :: xs => Some (mkNode d (Some (S p))) :: cells (S p) x xs
  end.

(** [q] holds [items]: everything before [head_] is deleted, the list
    starts at [head_] and ends at [tail_]. *)
Definition repr (q : Queue) (items : list T) : Prop :=
  exists d,
    heap q = repeat None (head_ q) ++ cells (head_ q) d items
    /\ tail_ q = head_ q + length items.

End Queue.
End LockFreeQueue.

(** * The buffer pool ([internal/memory_pool.hpp])

    A buffer is identified by its index in [buffers_]; a [Buffer] object
    is the pointer it holds, if any. The program that uses the pool is a
    list of [Buffer] variables. *)

Module BufferPool.
Local Open Scope nat_scope.

Record Pool := mkPool {
  bufferSize_ : Z;
  buffers_ : nat;            (* buffers_.size() *)
  available_ : list nat
}.

(** [Buffer::data_], null or a buffer of the pool. *)
Definition Buffer := option nat.

(** [Buffer::valid()] *)
Definition valid (b : Buffer) : bool :=
  match b with Some _ => true | None => false end.

(** [BufferPool(bufferSize, poolSize)] *)
Definition create (bufferSize : Z) (poolSize : nat) : Pool :=
  mkPool bufferSize poolSize (seq 0 poolSize).

(** [acquire()] *)
Definition acquire (p : Pool) : Buffer * Pool :=
  match rev (available_ p) with
  | [] =>
      (Some (buffers_ p), mkPool (bufferSize_ p) (S (buffers_ p)) [])
  | ptr :: _ =>
      (Some ptr,
       mkPool (bufferSize_ p) (buffers_ p) (removelast (available_ p)))
  end.

(** [available()] *)
Definition available (p : Pool) : nat := length (available_ p).

(** [BufferPool::release(ptr)] *)
Definition poolRelease (ptr : nat) (p : Pool) : Pool :=
  mkPool (bufferSize_ p) (buffers_ p) (available_ p ++ [ptr]).

(** [Buffer::release()]: the buffer afterwards, and the pool. *)
Definition release (b : Buffer) (p : Pool) : Buffer * Pool :=
  match b with
  | Some ptr => (None, poolRelease ptr p)
  | None => (None, p)
  end.

Fixpoint set (bs : list Buffer) (i : nat) (b : Buffer) : list Buffer :=
  match bs, i with
  | [], _ => []
  | _ :: bs', O => b :: bs'
  | x :: bs', S i' => x :: set bs' i' b
  end.

(** What a program does with its [Buffer] variables. *)
Inductive Op :=
| Acquire                      (* Buffer b = pool.acquire(); *)
| Destroy (i : nat)            (* ~Buffer() of variable i *)
| MoveConstruct (j : nat)      (* Buffer b(std::move(variable j)); *)
| MoveAssign (i j : nat).      (* variable i = std::move(variable j) *)

Definition step (op : Op) (st : list Buffer * Pool) : list Buffer * Pool :=
  let (bs, p) := st in
  match op with
  | Acquire => let (b, p') := acquire p in (bs ++ [b], p')
  | Destroy i =>
      match nth_error bs i with
      | Some b => let (b', p') := release b p in (set bs i b', p')
      | None => st
      end
  | MoveConstruct j =>
      match nth_error bs j with
      | Some other => (set bs j None ++ [other], p)
      | None => st
      end
  | MoveAssign i j =>
      match nth_error bs i, nth_error bs j with
      | Some b, Some other =>
          if Nat.eqb i j then st
          else
            let (_, p') := release b p in
            (set (set bs i other) j None, p')
      | _, _ => st
      end
  end.

Definition run (ops : list Op) (st : list Buffer * Pool) : list Buffer * Pool :=
  fold_left (fun st op => step op st) ops st.

(** The buffers held by the program. *)
Definition owned (b : Buffer) : list nat :=
  match b with Some ptr => [ptr] | None => [] end.

Definition held (bs : list Buffer) : list nat := flat_map owned bs.

End BufferPool.

(** * Properties *)

(** ** Bytes and bit operations *)

Section Bytes.

Lemma u8_small (b : Z) : is_byte b -> u8 b = b.
Proof. unfold is_byte, u8. intros H. apply Z.mod_small. lia. Qed.

Lemma u8_is_byte (x : Z) : is_byte (u8 x).
Proof. unfold is_byte, u8. apply Z.mod_pos_bound. lia. Qed.

Lemma u8_lxor (a b : Z) : u8 (Z.lxor a b) = Z.lxor (u8 a) (u8 b).
Proof.
  unfold u8. change 256 with (2 ^ 8).
  apply Z.bits_inj'. intros n Hn.
  rewrite Z.lxor_spec, !Z.testbit_mod_pow2, Z.lxor_spec by lia.
  destruct (n <? 8); reflexivity.
Qed.

Lemma lxor_cancel (b k : Z) : Z.lxor (Z.lxor b k) k = b.
Proof. now rewrite Z.lxor_assoc, Z.lxor_nilpotent, Z.lxor_0_r. Qed.

(** Masking twice with the same key byte gives the byte back. *)
Lemma mask_byte_twice (b k : Z) :
  is_byte b -> is_byte k ->
  u8 (Z.lxor (u8 (u8 (Z.lxor (u8 b) k))) k) = b.
Proof.
  intros Hb Hk.
  assert (E : u8 (Z.lxor b k) = Z.lxor b k).
  { rewrite u8_lxor, (u8_small b Hb), (u8_small k Hk). reflexivity. }
  rewrite (u8_small b Hb), E, E.
  rewrite lxor_cancel.
  apply u8_small, Hb.
Qed.

(** A byte below a shifted value: [or] is [+]. *)
Lemma lor_shiftl_8 (a b : Z) :
  is_byte b -> Z.lor (Z.shiftl a 8) b = a * 256 + b.
Proof.
  intros Hb.
  assert (Hland : Z.land (Z.shiftl a 8) b = 0).
  { apply Z.bits_inj'. intros n Hn.
    rewrite Z.land_spec, Z.bits_0.
    destruct (Z.ltb_spec n 8).
    - rewrite Z.shiftl_spec_low by lia. reflexivity.
    - rewrite <- (u8_small b Hb). unfold u8. change 256 with (2 ^ 8).
      rewrite Z.mod_pow2_bits_high by lia. apply andb_false_r. }
  rewrite <- Z.lxor_lor by exact Hland.
  rewrite <- Z.add_nocarry_lxor by exact Hland.
  rewrite Z.shiftl_mul_pow2 by lia. reflexivity.
Qed.

Lemma land_255 (x : Z) : Z.land x 0xFF = x mod 256.
Proof. change 0xFF with (Z.ones 8). rewrite Z.land_ones by lia. reflexivity. Qed.

(** Checking a property of the numbers below [n] by running it. *)
Lemma below_by_computation (f : Z -> bool) (n : nat) :
  forallb f (map Z.of_nat (seq 0 n)) = true ->
  forall z, 0 <= z < Z.of_nat n -> f z = true.
Proof.
  intros Hall z Hz.
  rewrite forallb_forall in Hall. apply Hall.
  apply in_map_iff. exists (Z.to_nat z). split; [lia|].
  apply in_seq. lia.
Qed.

End Bytes.

(** ** The frame codec *)

Section CodecFacts.
Import Codec.

Lemma rawRecv_exact (a b : list Z) : rawRecv (size_of a) (a ++ b) = (a, b).
Proof.
  unfold rawRecv, size_of.
  rewrite length_app, Z.min_l by lia.
  rewrite Nat2Z.id.
  rewrite firstn_app, Nat.sub_diag, firstn_all, skipn_app, Nat.sub_diag, skipn_all.
  now rewrite app_nil_r.
Qed.

Lemma rawRecv_short (len : Z) (s : list Z) :
  size_of s < len -> rawRecv len s = (s, []).
Proof.
  unfold rawRecv, size_of. intros H.
  rewrite Z.min_r by lia. rewrite Nat2Z.id.
  now rewrite firstn_all, skipn_all.
Qed.

Lemma rawRecv_size (len : Z) (s : list Z) :
  0 <= len -> size_of (fst (rawRecv len s)) = Z.min len (size_of s).
Proof.
  unfold rawRecv, size_of. intros H. cbn [fst].
  rewrite length_firstn. lia.
Qed.

Lemma rawRecv_app (len : Z) (s : list Z) :
  fst (rawRecv len s) ++ snd (rawRecv len s) = s.
Proof. unfold rawRecv. apply firstn_skipn. Qed.

(** *** Reading a header *)

Lemma readHeader_7 (h0 h1 : Z) (tail : list Z) :
  Z.land h1 0x7F <> 126 -> Z.land h1 0x7F <> 127 ->
  readHeader (h0 :: h1 :: tail)
  = Some (mkHeader (finBit h0) (Z.land h0 0x0F) (maskBit h1) (Z.land h1 0x7F),
          tail).
Proof.
  intros H126 H127. unfold readHeader.
  change 2 with (size_of [h0; h1]) at 1.
  change (h0 :: h1 :: tail) with ([h0; h1] ++ tail).
  rewrite rawRecv_exact. cbn [size_of length nth Z.of_nat].
  change (Z.pos (Pos.of_succ_nat 1) =? 2) with true. cbn [negb].
  destruct (Z.eqb_spec (Z.land h1 0x7F) 126); [contradiction|].
  destruct (Z.eqb_spec (Z.land h1 0x7F) 127); [contradiction|].
  reflexivity.
Qed.

Lemma readHeader_16 (h0 h1 b0 b1 : Z) (tail : list Z) :
  Z.land h1 0x7F = 126 ->
  readHeader (h0 :: h1 :: b0 :: b1 :: tail)
  = Some (mkHeader (finBit h0) (Z.land h0 0x0F) (maskBit h1)
                   (Z.lor (Z.shiftl (u64 b0) 8) b1),
          tail).
Proof.
  intros H126. unfold readHeader.
  change 2 with (size_of [h0; h1]) at 1.
  change (h0 :: h1 :: b0 :: b1 :: tail) with ([h0; h1] ++ [b0; b1] ++ tail).
  rewrite rawRecv_exact. cbn [size_of length nth Z.of_nat].
  change (Z.pos (Pos.of_succ_nat 1) =? 2) with true. cbn [negb].
  rewrite H126. change (126 =? 126) with true. cbv iota.
  change 2 with (size_of [b0; b1]) at 1.
  rewrite rawRecv_exact. reflexivity.
Qed.

Lemma readHeader_64 (h0 h1 : Z) (ext tail : list Z) :
  Z.land h1 0x7F = 127 -> length ext = 8%nat ->
  readHeader (h0 :: h1 :: ext ++ tail)
  = Some (mkHeader (finBit h0) (Z.land h0 0x0F) (maskBit h1) (be64 ext), tail).
Proof.
  intros H127 Hext. unfold readHeader.
  change 2 with (size_of [h0; h1]) at 1.
  change (h0 :: h1 :: ext ++ tail) with ([h0; h1] ++ ext ++ tail).
  rewrite rawRecv_exact. cbn [size_of length nth Z.of_nat].
  change (Z.pos (Pos.of_succ_nat 1) =? 2) with true. cbn [negb].
  rewrite H127. change (127 =? 126) with false. change (127 =? 127) with true.
  cbv iota.
  replace 8 with (size_of ext) at 1 by (unfold size_of; rewrite Hext; reflexivity).
  rewrite rawRecv_exact.
  unfold size_of. rewrite Hext. reflexivity.
Qed.

End CodecFacts.

Section Roundtrip.
Import Codec.

(** *** What the encoder writes, read back *)

Lemma first_byte (op : Z) :
  0 <= op < 16 ->
  finBit (u8 (Z.lor 0x80 op)) = true /\ Z.land (u8 (Z.lor 0x80 op)) 0x0F = op.
Proof.
  intros Hop.
  pose proof (below_by_computation
    (fun op => finBit (u8 (Z.lor 0x80 op))
               && (Z.land (u8 (Z.lor 0x80 op)) 0x0F =? op)) 16
    eq_refl op Hop) as H.
  cbv beta in H. apply andb_true_iff in H. destruct H as [H1 H2].
  split; [exact H1 | now apply Z.eqb_eq].
Qed.

Lemma short_length_byte (n : Z) :
  0 <= n < 126 ->
  maskBit (u8 (Z.lor 0x80 (u8 n))) = true
  /\ Z.land (u8 (Z.lor 0x80 (u8 n))) 0x7F = n.
Proof.
  intros Hn.
  pose proof (below_by_computation
    (fun n => maskBit (u8 (Z.lor 0x80 (u8 n)))
              && (Z.land (u8 (Z.lor 0x80 (u8 n))) 0x7F =? n)) 126
    eq_refl n Hn) as H.
  cbv beta in H. apply andb_true_iff in H. destruct H as [H1 H2].
  split; [exact H1 | now apply Z.eqb_eq].
Qed.

Lemma be16_bytes (n : Z) :
  0 <= n <= 65535 ->
  Z.lor (Z.shiftl (u64 (u8 (Z.land (Z.shiftr n 8) 0xFF))) 8)
        (u8 (Z.land n 0xFF)) = n.
Proof.
  intros Hn.
  rewrite !land_255. unfold u8, u64.
  rewrite !Z.mod_mod by lia.
  rewrite Z.shiftr_div_pow2 by lia. change (2 ^ 8) with 256.
  rewrite (Z.mod_small (n / 256 mod 256) (2 ^ 64)).
  2:{ pose proof (Z.mod_pos_bound (n / 256) 256). lia. }
  rewrite lor_shiftl_8.
  2:{ unfold is_byte. apply Z.mod_pos_bound. lia. }
  rewrite (Z.mod_small (n / 256) 256).
  2:{ split; [apply Z.div_pos; lia | apply Z.div_lt_upper_bound; lia]. }
  pose proof (Z.div_mod n 256). lia.
Qed.

Lemma byteAt_mod (n i : Z) :
  0 <= i -> byteAt n i = (n / 2 ^ (8 * i)) mod 256.
Proof.
  intros Hi. unfold byteAt, u8.
  rewrite land_255, Z.mod_mod by lia.
  rewrite Z.shiftr_div_pow2 by lia.
  now replace (i * 8) with (8 * i) by lia.
Qed.

(** One round of the loop of [be64], on the bytes [sendFrame] wrote. *)
Lemma be64_step (n i acc : Z) :
  0 <= n < 2 ^ 64 -> 0 <= i <= 7 ->
  acc = n / 2 ^ (8 * (i + 1)) ->
  Z.lor (u64 (Z.shiftl acc 8)) (byteAt n i) = n / 2 ^ (8 * i).
Proof.
  intros Hn Hi ->.
  rewrite byteAt_mod by lia.
  set (q := n / 2 ^ (8 * i)).
  assert (Hq : n / 2 ^ (8 * (i + 1)) = q / 256).
  { unfold q. rewrite Z.div_div by (try apply Z.pow_pos_nonneg; lia).
    f_equal. replace (8 * (i + 1)) with (8 * i + 8) by lia.
    rewrite Z.pow_add_r by lia. reflexivity. }
  rewrite Hq.
  assert (Hq0 : 0 <= q) by (apply Z.div_pos; [lia | apply Z.pow_pos_nonneg; lia]).
  assert (Hq1 : q < 2 ^ 64).
  { unfold q. apply Z.le_lt_trans with n; [|lia].
    apply Z.div_le_upper_bound; [apply Z.pow_pos_nonneg; lia|].
    assert (1 <= 2 ^ (8 * i)) by (apply Z.pow_le_mono_r with (b := 0); lia).
    nia. }
  rewrite Z.shiftl_mul_pow2 by lia. change (2 ^ 8) with 256.
  unfold u64. rewrite Z.mod_small.
  2:{ pose proof (Z.div_mod q 256). pose proof (Z.mod_pos_bound q 256).
      assert (0 <= q / 256) by (apply Z.div_pos; lia). lia. }
  replace (q / 256 * 256) with (Z.shiftl (q / 256) 8)
    by (rewrite Z.shiftl_mul_pow2 by lia; reflexivity).
  rewrite lor_shiftl_8.
  2:{ unfold is_byte. apply Z.mod_pos_bound. lia. }
  pose proof (Z.div_mod q 256). lia.
Qed.

Lemma be64_bytes (n : Z) :
  0 <= n < 2 ^ 64 -> be64 (map (byteAt n) [7; 6; 5; 4; 3; 2; 1; 0]) = n.
Proof.
  intros Hn. unfold be64. cbn [map fold_left].
  rewrite (be64_step n 7 0 Hn) by (try rewrite Z.div_small; lia).
  rewrite (be64_step n 6 _ Hn) by (try reflexivity; lia).
  rewrite (be64_step n 5 _ Hn) by (try reflexivity; lia).
  rewrite (be64_step n 4 _ Hn) by (try reflexivity; lia).
  rewrite (be64_step n 3 _ Hn) by (try reflexivity; lia).
  rewrite (be64_step n 2 _ Hn) by (try reflexivity; lia).
  rewrite (be64_step n 1 _ Hn) by (try reflexivity; lia).
  rewrite (be64_step n 0 _ Hn) by (try reflexivity; lia).
  change (2 ^ (8 * 0)) with 1. apply Z.div_1_r.
Qed.

End Roundtrip.

Section Masking.
Import Codec.

Lemma maskAt_is_byte (key : list Z) (i : nat) :
  Forall is_byte key -> is_byte (maskAt key i).
Proof.
  intros Hkey. unfold maskAt.
  destruct (nth_in_or_default (Nat.modulo i 4) key 0) as [Hin | ->].
  - rewrite Forall_forall in Hkey. now apply Hkey.
  - unfold is_byte. lia.
Qed.

Lemma applyMask_length (key : list Z) (data : list Z) :
  forall i, length (applyMask key i data) = length data.
Proof. induction data as [|b tl IH]; intros i; cbn; [|rewrite IH]; reflexivity. Qed.

Lemma applyMask_is_byte (key : list Z) (data : list Z) :
  forall i, Forall is_byte (applyMask key i data).
Proof.
  induction data as [|b tl IH]; intros i; cbn; constructor.
  - apply u8_is_byte.
  - apply IH.
Qed.

(** Unmasking undoes masking. *)
Lemma applyMask_twice (key : list Z) (data : list Z) :
  Forall is_byte key -> Forall is_byte data ->
  forall i, applyMask key i (applyMask key i data) = data.
Proof.
  intros Hkey Hdata. induction Hdata as [|b tl Hb Htl IH]; intros i; cbn.
  - reflexivity.
  - rewrite IH. f_equal.
    apply mask_byte_twice; [exact Hb | now apply maskAt_is_byte].
Qed.

Lemma applyMask_nth (key : list Z) (data : list Z) :
  forall i j, (j < length data)%nat ->
  nth j (applyMask key i data) 0
  = u8 (Z.lxor (u8 (nth j data 0)) (maskAt key (i + j))).
Proof.
  induction data as [|b tl IH]; intros i j Hj; cbn in Hj; [lia|].
  destruct j as [|j]; cbn [applyMask nth].
  - now rewrite Nat.add_0_r.
  - rewrite IH by lia. do 3 f_equal. lia.
Qed.


Lemma recvPayload_exact (fuel : nat) (a rest : list Z) :
  recvPayload (S fuel) (size_of a) (a ++ rest) [] = PayloadOk a rest.
Proof.
  destruct a as [|b a].
  - reflexivity.
  - cbn [recvPayload].
    assert (Hpos : 0 < size_of (b :: a)) by (unfold size_of; cbn; lia).
    destruct (Z.leb_spec (size_of (b :: a)) 0); [lia|].
    rewrite rawRecv_exact.
    destruct (Z.leb_spec (size_of (b :: a)) 0); [lia|].
    rewrite Z.sub_diag. destruct fuel; reflexivity.
Qed.

End Masking.

Section LengthPrefix.
Import Codec.

(** The length prefix of [sendFrame] is the one the specification words. *)
Lemma lengthPrefix_spec (n : Z) :
  0 <= n < 2 ^ 64 -> lengthPrefix n = specLengthPrefix n.
Proof.
  intros Hn. unfold lengthPrefix, specLengthPrefix.
  destruct (Z.ltb_spec n 126).
  - f_equal.
    pose proof (below_by_computation
      (fun n => u8 (Z.lor 0x80 (u8 n)) =? 128 + n) 126 eq_refl n) as H0.
    apply Z.eqb_eq, H0. lia.
  - destruct (Z.leb_spec n 65535).
    + cbn [bigEndian Z.of_nat]. rewrite !land_255. unfold u8.
      rewrite !Z.mod_mod by lia. rewrite Z.shiftr_div_pow2 by lia.
      change (256 ^ Z.pos (Pos.of_succ_nat 0)) with 256.
      change (2 ^ 8) with 256. change (256 ^ 0) with 1.
      rewrite Z.div_1_r. reflexivity.
    + change (u8 (Z.lor 0x80 127)) with (128 + 127). f_equal.
      cbn [map bigEndian]. rewrite !byteAt_mod by lia.
      reflexivity.
Qed.

End LengthPrefix.

Section DecodeEncode.
Import Codec.

(** The header [sendFrame] writes, read by [readHeader]. *)
Lemma readHeader_encodeFrame (op : Z) (data key tail : list Z) :
  0 <= op < 16 -> size_of data < 2 ^ 64 ->
  readHeader (encodeFrame op data key ++ tail)
  = Some (mkHeader true op true (size_of data),
          key ++ applyMask key 0 data ++ tail).
Proof.
  intros Hop Hsize.
  assert (H0 : 0 <= size_of data) by (unfold size_of; lia).
  destruct (first_byte op Hop) as [Hfin Hopc].
  unfold encodeFrame, lengthPrefix. rewrite <- !app_assoc.
  destruct (Z.ltb_spec (size_of data) 126) as [Hs | Hs].
  - destruct (short_length_byte (size_of data)) as [Hm Hl]; [lia|].
    cbn [app]. rewrite readHeader_7 by (rewrite Hl; lia).
    rewrite Hfin, Hopc, Hm, Hl. reflexivity.
  - destruct (Z.leb_spec (size_of data) 65535) as [Hs' | Hs'].
    + cbn [app]. rewrite readHeader_16 by reflexivity.
      rewrite Hfin, Hopc, be16_bytes by lia. reflexivity.
    + rewrite <- app_comm_cons. cbn [app].
      rewrite readHeader_64 by reflexivity.
      rewrite Hfin, Hopc, be64_bytes by lia. reflexivity.
Qed.

(** Decoding what was encoded, when the payload is within the limit. *)
Lemma decodeFrame_encodeFrame (limit op : Z) (data key tail : list Z) :
  0 <= op < 16 ->
  Forall is_byte data -> Forall is_byte key -> length key = 4%nat ->
  size_of data <= limit -> size_of data < 2 ^ 64 ->
  decodeFrame limit (encodeFrame op data key ++ tail)
  = DecFrame (mkFrame true op true (size_of data) data) tail.
Proof.
  intros Hop Hdata Hkey Hlen Hlimit Hsize.
  unfold decodeFrame.
  rewrite readHeader_encodeFrame by assumption.
  cbn [h_payloadLen h_masked h_fin h_opcode].
  destruct (Z.gtb_spec (size_of data) limit); [lia|].
  replace 4 with (size_of key) at 1 by (unfold size_of; rewrite Hlen; reflexivity).
  rewrite rawRecv_exact.
  replace (size_of key =? 4) with true
    by (unfold size_of; rewrite Hlen; reflexivity).
  cbn [negb andb].
  replace (size_of data) with (size_of (applyMask key 0 data)) at 1
    by (unfold size_of; now rewrite applyMask_length).
  rewrite recvPayload_exact.
  rewrite andb_true_r.
  destruct (Z.gtb_spec (size_of data) 0) as [Hpos | Hzero].
  - rewrite applyMask_twice by assumption. reflexivity.
  - destruct data; [reflexivity | unfold size_of in Hzero; cbn in Hzero; lia].
Qed.

End DecodeEncode.

Section SendFrame.
Import Codec Session.

Lemma maskKey_length (w : World) : length (maskKey w) = 4%nat.
Proof. reflexivity. Qed.

Lemma maskKey_is_byte (w : World) : Forall is_byte (maskKey w).
Proof. unfold maskKey. cbn [map]. repeat constructor; apply u8_is_byte. Qed.

(** [sendFrame] draws four bytes and hands one frame to [rawSend]. *)
Lemma sendFrame_eq (op : Z) (data : list Z) (w : World) :
  sendFrame op data w
  = (writable (env w),
     mkWorld (env w) (impl w) (inbound w) (sendQueue w)
             (S (S (S (S (draws w))))) (dials w)
             (trace w ++ [EvRawSend (encodeFrame op data (maskKey w))])).
Proof.
  unfold sendFrame, maskKey, bind, randomByte, rawSend, bind, emit, get.
  cbn. repeat f_equal; lia.
Qed.

End SendFrame.

(** ** C1: encoding then decoding *)

Section C1.
Import Codec Session.






End C1.

(** ** What the decoder returns *)

Section DecoderFacts.
Import Codec.

Lemma recvPayload_ok (fuel : nat) :
  forall n s acc buf rest,
  recvPayload fuel n s acc = PayloadOk buf rest ->
  exists chunk,
    buf = acc ++ chunk /\ s = chunk ++ rest /\ size_of chunk = Z.max 0 n.
Proof.
  induction fuel as [|fuel IH]; intros n s acc buf rest H; cbn [recvPayload] in H.
  - destruct (Z.leb_spec n 0); [|discriminate].
    injection H as <- <-. exists []. rewrite app_nil_r.
    repeat split. unfold size_of. cbn. lia.
  - destruct (Z.leb_spec n 0) as [Hn | Hn].
    + injection H as <- <-. exists []. rewrite app_nil_r.
      repeat split. unfold size_of. cbn. lia.
    + pose proof (rawRecv_app n s) as Happ.
      pose proof (rawRecv_size n s ltac:(lia)) as Hsz.
      destruct (rawRecv n s) as [c r]. cbn [fst snd] in Happ, Hsz.
      destruct (Z.leb_spec (size_of c) 0) as [Hc | Hc]; [discriminate|].
      apply IH in H. destruct H as (chunk & -> & -> & Hchunk).
      exists (c ++ chunk). rewrite <- !app_assoc.
      repeat split; [now symmetry|].
      unfold size_of in *. rewrite length_app. lia.
Qed.

(** The fuel [decodeFrame] gives to [recvPayload] never runs out. *)
Lemma recvPayload_fuel (fuel : nat) :
  forall n s acc, (length s < fuel)%nat -> recvPayload fuel n s acc <> PayloadFuel.
Proof.
  induction fuel as [|fuel IH]; intros n s acc Hfuel; [lia|].
  cbn [recvPayload].
  destruct (Z.leb_spec n 0) as [Hn | Hn]; [discriminate|].
  pose proof (rawRecv_app n s) as Happ.
  destruct (rawRecv n s) as [c r]. cbn [fst snd] in Happ.
  destruct (Z.leb_spec (size_of c) 0) as [Hc | Hc]; [discriminate|].
  apply IH. subst s. rewrite length_app in Hfuel. unfold size_of in Hc. lia.
Qed.

Lemma readHeader_suffix (s : list Z) (h : Header) (s1 : list Z) :
  readHeader s = Some (h, s1) -> exists pre, s = pre ++ s1.
Proof.
  unfold readHeader. intros H.
  pose proof (rawRecv_app 2 s) as Ha.
  destruct (rawRecv 2 s) as [hd t]. cbn [fst snd] in Ha.
  destruct (negb (size_of hd =? 2)); [discriminate|].
  destruct (Z.land (nth 1 hd 0) 127 =? 126).
  - pose proof (rawRecv_app 2 t) as Hb.
    destruct (rawRecv 2 t) as [ext t']. cbn [fst snd] in Hb.
    destruct (negb (size_of ext =? 2)); [discriminate|].
    injection H as _ <-. exists (hd ++ ext). subst s t. now rewrite app_assoc.
  - destruct (Z.land (nth 1 hd 0) 127 =? 127).
    + pose proof (rawRecv_app 8 t) as Hb.
      destruct (rawRecv 8 t) as [ext t']. cbn [fst snd] in Hb.
      destruct (negb (size_of ext =? 8)); [discriminate|].
      injection H as _ <-. exists (hd ++ ext). subst s t. now rewrite app_assoc.
    + injection H as _ <-. exists hd. now symmetry.
Qed.

(** A decoded frame is within the limit, and made of bytes when the stream
    is. *)
Lemma decodeFrame_frame (limit : Z) (s : list Z) (f : Frame) (rest : list Z) :
  decodeFrame limit s = DecFrame f rest ->
  payloadLen f <= limit
  /\ size_of (payload f) = Z.max 0 (payloadLen f)
  /\ (Forall is_byte s -> Forall is_byte (payload f)).
Proof.
  unfold decodeFrame. intros H.
  destruct (readHeader s) as [[h s1]|] eqn:Hh; [|discriminate].
  apply readHeader_suffix in Hh. destruct Hh as [pre ->].
  destruct (Z.gtb_spec (h_payloadLen h) limit) as [Hbig | Hok]; [discriminate|].
  assert (Hs2 : exists key s2,
    (if h_masked h then rawRecv 4 s1 else ([0; 0; 0; 0], s1)) = (key, s2)
    /\ exists pre2, s1 = pre2 ++ s2).
  { destruct (h_masked h).
    - pose proof (rawRecv_app 4 s1) as Ha.
      destruct (rawRecv 4 s1) as [k t]. cbn [fst snd] in Ha.
      exists k, t. split; [reflexivity|]. exists k. now symmetry.
    - exists [0; 0; 0; 0], s1. split; [reflexivity|]. now exists []. }
  destruct Hs2 as (key & s2 & Hkey & pre2 & ->). rewrite Hkey in H.
  destruct (h_masked h && negb (size_of key =? 4)); [discriminate|].
  destruct (recvPayload (S (length s2)) (h_payloadLen h) s2 [])
    as [buf r| |] eqn:Hp; try discriminate.
  apply recvPayload_ok in Hp. destruct Hp as (chunk & -> & -> & Hsz).
  injection H as <- <-. cbn [payloadLen payload app].
  split; [exact Hok|]. split.
  - destruct (_ && _); [|exact Hsz].
    unfold size_of in *. now rewrite applyMask_length.
  - intros Hs. destruct (_ && _); [apply applyMask_is_byte|].
    apply Forall_app in Hs. destruct Hs as [_ Hs].
    apply Forall_app in Hs. destruct Hs as [_ Hs].
    apply Forall_app in Hs. now destruct Hs as [Hs _].
Qed.

End DecoderFacts.

(** ** Reading and dispatching one frame *)

Section ReadFrame.
Import Codec Session.

Lemma readFrame_frame (w : World) (f : Frame) (rest : list Z) :
  decodeFrame (limitOf w) (inbound w) = DecFrame f rest ->
  readFrame w = dispatch f (withInbound rest w).
Proof.
  unfold limitOf. intros H. unfold readFrame, bind, get. rewrite H. reflexivity.
Qed.

Lemma readFrame_cases (w : World) :
  match decodeFrame (limitOf w) (inbound w) with
  | DecFrame f rest => readFrame w = dispatch f (withInbound rest w)
  | DecTooLarge rest =>
      readFrame w
      = (false,
         snd (triggerError ErrorCode.MessageTooLarge (withInbound rest w)))
  | DecRecvFailed => readFrame w = (false, withInbound [] w)
  end.
Proof.
  unfold readFrame, limitOf, bind, get.
  destruct (decodeFrame _ _) as [f rest | rest |]; try reflexivity.
  unfold withInbound, setInbound, ret. cbn [snd].
  now destruct (triggerError _ _) as [[] w'].
Qed.

Lemma handlePing_connected (P : list Z) (w : World) :
  autoPong (ping (config (impl w))) = true ->
  connected (impl w) = true ->
  handlePing P w
  = (tt, mkWorld (env w) (impl w) (inbound w) (sendQueue w)
                 (S (S (S (S (draws w))))) (dials w)
                 (trace w ++ [EvRawSend (encodeFrame Opcode.Pong P (maskKey w))]
                          ++ fire (onPingCb (callbacks (impl w))) (EvPing P))).
Proof.
  intros Hauto Hconn. unfold handlePing, sendPongFrame, bind, get, ret.
  rewrite Hauto, Hconn. cbn [negb]. rewrite sendFrame_eq.
  cbn [impl]. unfold when, fire, emit, ret.
  destruct (onPingCb (callbacks (impl w)));
    cbn [impl trace env inbound sendQueue draws dials].
  - now rewrite <- app_assoc.
  - now rewrite app_nil_r.
Qed.

End ReadFrame.

(** ** A Ping frame *)

Section PingFrame.
Import Codec Session.

(** A Ping frame read on a connected session with auto-pong. *)
Lemma readFrame_ping (w : World) (f : Frame) (rest : list Z) :
  decodeFrame (limitOf w) (inbound w) = DecFrame f rest ->
  opcode f = Opcode.Ping ->
  autoPong (ping (config (impl w))) = true ->
  connected (impl w) = true ->
  let P := payload f in
  let pong := encodeFrame Opcode.Pong P (maskKey w) in
  fst (readFrame w) = true
  /\ trace (snd (readFrame w))
     = trace w ++ [EvRawSend pong]
               ++ fire (onPingCb (callbacks (impl w))) (EvPing P)
  /\ (Forall is_byte (inbound w) -> 0 <= limitOf w < 2 ^ 64 ->
      forall tail,
        decodeFrame (limitOf w) (pong ++ tail)
        = DecFrame (mkFrame true Opcode.Pong true (size_of P) P) tail).
Proof.
  intros Hdec Hop Hauto Hconn P pong.
  rewrite (readFrame_frame w f rest Hdec).
  unfold dispatch. rewrite Hop. cbn [Z.eqb Pos.eqb orb Opcode.Ping Opcode.Text
    Opcode.Binary Opcode.Close].
  unfold bind at 1. unfold bind at 1.
  rewrite handlePing_connected by assumption.
  split; [reflexivity|]. split; [reflexivity|].
  intros Hbytes Hlimit tail.
  destruct (decodeFrame_frame _ _ _ _ Hdec) as (Hle & Hsz & HP).
  apply decodeFrame_encodeFrame.
  - cbv. split; congruence.
  - now apply HP.
  - apply maskKey_is_byte.
  - apply maskKey_length.
  - fold P in Hsz. lia.
  - fold P in Hsz. lia.
Qed.

End PingFrame.

(** ** Traces *)

Section Traces.
Import Session.

Lemma grows_refl (P : Event -> Prop) (t : list Event) : grows P t t.
Proof. exists []. split; [now rewrite app_nil_r | constructor]. Qed.

Lemma grows_snoc (P : Event -> Prop) (t t' : list Event) (e : Event) :
  grows P t t' -> P e -> grows P t (t' ++ [e]).
Proof.
  intros (evs & -> & Hall) He. exists (evs ++ [e]). split.
  - now rewrite app_assoc.
  - apply Forall_app. split; [exact Hall | now constructor].
Qed.

Lemma grows_trans (P : Event -> Prop) (t1 t2 t3 : list Event) :
  grows P t1 t2 -> grows P t2 t3 -> grows P t1 t3.
Proof.
  intros (e1 & -> & H1) (e2 & -> & H2). exists (e1 ++ e2). split.
  - now rewrite app_assoc.
  - apply Forall_app. now split.
Qed.

Lemma grows_weaken (P Q : Event -> Prop) (t t' : list Event) :
  (forall e, P e -> Q e) -> grows P t t' -> grows Q t t'.
Proof.
  intros HPQ (evs & -> & Hall). exists evs. split; [reflexivity|].
  eapply Forall_impl; eauto.
Qed.

End Traces.

(** ** C3: control frames and opcodes are not validated *)

Section C3.
Import Codec Session.

(** Dispatching a frame reports no error, whatever the frame. *)
Lemma dispatch_no_error (f : Frame) (w : World) :
  grows (fun e => ~ isError e) (trace w) (trace (snd (dispatch f w))).
Proof.
  unfold dispatch.
  destruct ((opcode f =? Opcode.Text) || (opcode f =? Opcode.Binary)).
  { unfold handleMessage, bind, get, when, ret, emit.
    destruct (onRawMessageCb _); cbn [impl env snd trace];
      destruct (_ && _); cbn [snd trace];
      repeat (apply grows_snoc; [|cbn; tauto]); apply grows_refl. }
  destruct (opcode f =? Opcode.Close).
  { cbn. apply grows_refl. }
  destruct (opcode f =? Opcode.Ping).
  { unfold handlePing, sendPongFrame, bind, get, when, ret.
    destruct (autoPong _); [destruct (connected (impl w))|];
      cbn [negb]; try rewrite sendFrame_eq; unfold emit, ret;
      cbn [impl env snd trace];
      destruct (onPingCb _); cbn [snd trace];
      repeat (apply grows_snoc; [|cbn; tauto]); apply grows_refl. }
  destruct (opcode f =? Opcode.Pong).
  { unfold handlePong, bind, get, when, ret, emit. cbn [impl env snd trace].
    destruct (onPongCb _); cbn [snd trace];
      repeat (apply grows_snoc; [|cbn; tauto]); apply grows_refl. }
  cbn. apply grows_refl.
Qed.

(** [readFrame] never reports [InvalidFrame]: the only error it reports is
    [MessageTooLarge]. *)
Lemma readFrame_no_InvalidFrame (w : World) :
  grows (fun e => e <> EvError ErrorCode.InvalidFrame)
        (trace w) (trace (snd (readFrame w))).
Proof.
  unfold readFrame, bind, get.
  destruct (decodeFrame _ _) as [f rest | rest |].
  - apply grows_weaken with (P := fun e => ~ isError e).
    + intros e He ->. apply He. exact I.
    + apply (dispatch_no_error f (snd (setInbound rest w))).
  - unfold triggerError, setInbound, bind, get, when, ret, emit.
    cbn [impl env snd trace]. destruct (onErrorCb _); cbn [snd trace].
    + apply grows_snoc; [apply grows_refl | discriminate].
    + apply grows_refl.
  - cbn. apply grows_refl.
Qed.

(** C3, as the claim states it, fails.  On a session with every callback
    set: a frame with the reserved opcode 0x3 is skipped; a Ping frame with
    FIN = 0 is answered and handed to [onPing]; a Ping frame with a payload
    of 126 bytes as well.  [readFrame] returns true each time, the session
    stays connected and no error is reported. *)
Lemma C3_counterexample :
  let cfg := Sample.config 1024 true 5 in
  let reserved := Sample.world cfg [0x83; 0x00] in
  let pingNoFin := Sample.world cfg [0x09; 0x00] in
  let pingLong := Sample.world cfg ([0x89; 126; 0; 126] ++ repeat 7 126) in
  (fst (readFrame reserved) = true
   /\ trace (snd (readFrame reserved)) = []
   /\ connected (impl (snd (readFrame reserved))) = true)
  /\ (fst (readFrame pingNoFin) = true
      /\ trace (snd (readFrame pingNoFin))
         = [EvRawSend (encodeFrame Opcode.Pong [] (maskKey pingNoFin)); EvPing []]
      /\ connected (impl (snd (readFrame pingNoFin))) = true)
  /\ (fst (readFrame pingLong) = true
      /\ trace (snd (readFrame pingLong))
         = [EvRawSend (encodeFrame Opcode.Pong (repeat 7 126) (maskKey pingLong));
            EvPing (repeat 7 126)]
      /\ connected (impl (snd (readFrame pingLong))) = true).
Proof. vm_compute. repeat split. Qed.

(** C3 (amended): [readFrame] validates neither control frames nor
    opcodes, and never reports [InvalidFrame].  A Close, Ping or Pong frame
    that is received in full and within max-message-bytes is handed to its
    handler whatever its FIN bit and its length; a frame with any other
    opcode than Text, Binary, Close, Ping, Pong (Continuation and the
    reserved opcodes) is dropped, [readFrame] returns true and the loop goes
    on; in none of these cases is an error reported. *)
Theorem C3_frames_are_not_validated (w : World) :
  grows (fun e => e <> EvError ErrorCode.InvalidFrame)
        (trace w) (trace (snd (readFrame w)))
  /\ forall f rest,
       decodeFrame (limitOf w) (inbound w) = DecFrame f rest ->
       let w' := withInbound rest w in
       grows (fun e => ~ isError e) (trace w) (trace (snd (readFrame w)))
       /\ (opcode f = Opcode.Ping ->
           readFrame w = (true, snd (handlePing (payload f) w')))
       /\ (opcode f = Opcode.Pong ->
           readFrame w = (true, snd (handlePong (payload f) w')))
       /\ (opcode f = Opcode.Close ->
           readFrame w = (false, snd (handleClose (payload f) w')))
       /\ (knownOpcode (opcode f) = false -> readFrame w = (true, w')).
Proof.
  split; [apply readFrame_no_InvalidFrame|].
  intros f rest Hdec w'.
  rewrite (readFrame_frame w f rest Hdec). fold w'.
  split; [|split; [|split; [|split]]].
  - apply (dispatch_no_error f w').
  - intros Hop. unfold dispatch. rewrite Hop. cbn [Z.eqb Pos.eqb orb
      Opcode.Ping Opcode.Text Opcode.Binary Opcode.Close].
    unfold bind, ret. now destruct (handlePing (payload f) w').
  - intros Hop. unfold dispatch. rewrite Hop. cbn [Z.eqb Pos.eqb orb
      Opcode.Ping Opcode.Pong Opcode.Text Opcode.Binary Opcode.Close].
    unfold bind, ret. now destruct (handlePong (payload f) w').
  - intros Hop. unfold dispatch. rewrite Hop. cbn [Z.eqb Pos.eqb orb
      Opcode.Text Opcode.Binary Opcode.Close].
    unfold bind, ret. now destruct (handleClose (payload f) w').
  - unfold knownOpcode, dispatch. intros Hop.
    apply orb_false_elim in Hop. destruct Hop as [Hop Hpong].
    apply orb_false_elim in Hop. destruct Hop as [Hop Hping].
    apply orb_false_elim in Hop. destruct Hop as [Hop Hclose].
    rewrite Hop, Hclose, Hping, Hpong. reflexivity.
Qed.

Lemma C3_frames_are_not_validated_witness :
  let w := Sample.world (Sample.config 1024 true 5) [0x83; 0x00] in
  grows (fun e => e <> EvError ErrorCode.InvalidFrame)
        (trace w) (trace (snd (readFrame w)))
  /\ readFrame w = (true, withInbound [] w).
Proof.
  pose proof (C3_frames_are_not_validated
                (Sample.world (Sample.config 1024 true 5) [0x83; 0x00]))
    as [Hgrow Hframe].
  split; [exact Hgrow|].
  apply (Hframe (mkFrame true 3 false 0 []) []); reflexivity.
Defined.

End C3.

(** ** C4: no fragment assembly *)

Section C4.
Import Codec Session.

Lemma handleMessage_trace (data : list Z) (w : World) :
  handleMessage data w
  = (tt, withTrace
           (trace w
              ++ fire (onRawMessageCb (callbacks (impl w))) (EvRawMessage data)
              ++ fire (jsonParses (env w) data
                       && onMessageCb (callbacks (impl w))) (EvMessage data))
           w).
Proof.
  unfold handleMessage, withTrace, bind, get, when, ret, emit, fire.
  destruct w as [e i s q d n t]. cbn [impl env trace inbound sendQueue draws dials].
  destruct (onRawMessageCb _); cbn [impl env trace inbound sendQueue draws dials];
    destruct (_ && _); cbn [impl env trace inbound sendQueue draws dials];
    rewrite <- ?app_assoc, ?app_nil_r; reflexivity.
Qed.

(** C4, as the claim states it, fails.  A Text frame with FIN = 0 carrying
    "He" and a Continuation frame with FIN = 1 carrying "y!" arrive: the
    first payload is delivered at once, on its own; the second is dropped;
    "Hey!" is never delivered. *)
Lemma C4_counterexample :
  let w := Sample.world (Sample.config 1024 true 5)
             [0x01; 0x02; 72; 101; 0x80; 0x02; 121; 33] in
  let w1 := snd (readFrame w) in
  let w2 := snd (readFrame w1) in
  fst (readFrame w) = true /\ trace w1 = [EvRawMessage [72; 101]]
  /\ fst (readFrame w1) = true /\ trace w2 = [EvRawMessage [72; 101]]
  /\ inbound w2 = [].
Proof. vm_compute. repeat split. Qed.

(** C4 (amended): there is no fragment assembly.  Every Text or Binary
    frame, whatever its FIN bit, is delivered at once to the message
    callbacks as a message of its own: its payload to [onRawMessage], and to
    [onMessage] when it parses as JSON.  Every Continuation frame, whatever
    its FIN bit, is dropped: no callback runs and nothing of it is kept. *)
Theorem C4_frames_are_delivered_one_by_one
    (w : World) (f : Frame) (rest : list Z) :
  decodeFrame (limitOf w) (inbound w) = DecFrame f rest ->
  let w' := withInbound rest w in
  (opcode f = Opcode.Text \/ opcode f = Opcode.Binary ->
   readFrame w
   = (true,
      withTrace
        (trace w
           ++ fire (onRawMessageCb (callbacks (impl w)))
                   (EvRawMessage (payload f))
           ++ fire (jsonParses (env w) (payload f)
                    && onMessageCb (callbacks (impl w)))
                   (EvMessage (payload f)))
        w'))
  /\ (opcode f = Opcode.Continuation -> readFrame w = (true, w')).
Proof.
  intros Hdec w'. rewrite (readFrame_frame w f rest Hdec). fold w'.
  split.
  - intros Hop. unfold dispatch.
    replace ((opcode f =? Opcode.Text) || (opcode f =? Opcode.Binary))
      with true by (destruct Hop as [-> | ->]; reflexivity).
    unfold bind, ret. rewrite handleMessage_trace. reflexivity.
  - intros Hop. unfold dispatch. rewrite Hop. reflexivity.
Qed.

(** A Text frame with FIN = 0 carrying "He". *)
Lemma C4_frames_are_delivered_one_by_one_witness :
  let w := Sample.world (Sample.config 1024 true 5) [0x01; 0x02; 72; 101] in
  readFrame w = (true, withTrace [EvRawMessage [72; 101]] (withInbound [] w)).
Proof.
  destruct (C4_frames_are_delivered_one_by_one
              (Sample.world (Sample.config 1024 true 5) [0x01; 0x02; 72; 101])
              (mkFrame false Opcode.Text false 2 [72; 101]) [] eq_refl)
    as [Hdata _].
  exact (Hdata (or_introl eq_refl)).
Defined.

End C4.

(** ** The I/O loop *)

Section IoLoop.
Import Codec Session.

(** Draining the send queue writes frames and touches nothing else. *)
Lemma sendAll_frame (msgs : list (list Z)) :
  forall w,
  let w' := snd (sendAll msgs w) in
  env w' = env w /\ impl w' = impl w /\ inbound w' = inbound w
  /\ dials w' = dials w /\ sendQueue w' = sendQueue w
  /\ grows (fun e => exists b, e = EvRawSend b) (trace w) (trace w').
Proof.
  induction msgs as [|msg tl IH]; intros w.
  - cbn. repeat split; try reflexivity. apply grows_refl.
  - cbn [sendAll]. unfold bind at 1. unfold send, bind, get, ret.
    destruct (connected (impl w)); cbn [negb].
    + rewrite sendFrame_eq.
      match goal with |- context [sendAll tl ?x] => specialize (IH x) end.
      cbn zeta in IH. cbn [env impl inbound dials sendQueue trace] in IH.
      destruct IH as (He & Hi & Hs & Hd & Hq & Hg).
      cbn zeta. repeat split; try assumption.
      eapply grows_trans; [|exact Hg].
      apply grows_snoc; [apply grows_refl | eauto].
    + apply IH.
Qed.

Lemma drainSendQueue_frame (w : World) :
  let w' := snd (drainSendQueue w) in
  env w' = env w /\ impl w' = impl w /\ inbound w' = inbound w
  /\ dials w' = dials w /\ sendQueue w' = []
  /\ grows (fun e => exists b, e = EvRawSend b) (trace w) (trace w').
Proof.
  unfold drainSendQueue, bind, get, setSendQueue.
  pose proof (sendAll_frame (sendQueue w)
    (mkWorld (env w) (impl w) (inbound w) [] (draws w) (dials w) (trace w)))
    as H.
  cbn zeta in *. cbn [env impl inbound dials sendQueue trace] in H.
  exact H.
Qed.


(** One round of the loop. *)
Lemma ioLoop_round (fuel : nat) (w : World) :
  running (impl w) = true ->
  let w0 := snd (drainSendQueue w) in
  let w1 := snd (readFrame w0) in
  ioLoop (S fuel) w
  = if fst (readFrame w0) then ioLoop fuel w1
    else (true, if connected (impl w1) then snd (handleDisconnect w1) else w1).
Proof.
  intros Hrun. cbn [ioLoop]. unfold bind at 1. unfold get at 1.
  rewrite Hrun. cbn [negb]. unfold bind at 1.
  destruct (drainSendQueue w) as [[] w0]. cbn [snd].
  unfold bind at 1. destruct (readFrame w0) as [ok w1]. cbn [fst snd].
  destruct ok; [reflexivity|].
  unfold bind, get, when, ret.
  destruct (connected (impl w1)); [|reflexivity].
  now destruct (handleDisconnect w1) as [[] w2].
Qed.

End IoLoop.

(** ** C2: a Close frame from the peer *)

Section C2.
Import Codec Session.

Lemma handleClose_eq (P : list Z) (w : World) :
  handleClose P w
  = (tt, mkWorld (env w)
                 (mkImpl (config (impl w)) (parsedUrl (impl w)) false false
                         (reconnectAttempts (impl w)) (callbacks (impl w))
                         (ioThread (impl w)))
                 (inbound w) (sendQueue w) (draws w) (dials w) (trace w)).
Proof. reflexivity. Qed.

(** [disconnect(code)] on a session that is no longer connected: no Close
    frame is sent and [onDisconnect] is not invoked. *)
Lemma disconnect_not_connected (code : Z) (w : World) :
  connected (impl w) = false ->
  trace (snd (disconnect code w))
  = trace w ++ [EvHeartbeatStop; EvJoinIoThread; EvCleanup].
Proof.
  intros H. unfold disconnect, bind, get. rewrite H.
  unfold when, ret, cleanup, emit, setConnected, setRunning, setIoThread,
    modifyImpl.
  cbn [env impl inbound sendQueue draws dials trace snd].
  now rewrite <- !app_assoc.
Qed.

(** C2 (what the code does): when the I/O loop receives a Close frame it
    reads the status code into a local variable of [handleClose], clears
    [connected] and [running] and leaves the loop without a reconnection
    attempt; but it emits no Disconnected event: [onDisconnect] is invoked
    neither by the loop nor by a later [disconnect(code)], whatever the code
    of the peer. *)
Theorem C2_close_frame_emits_no_disconnect
    (w : World) (f : Frame) (rest : list Z) (fuel : nat) :
  running (impl w) = true ->
  decodeFrame (limitOf w) (inbound w) = DecFrame f rest ->
  opcode f = Opcode.Close ->
  let w0 := snd (drainSendQueue w) in
  exists w',
    ioLoop (S fuel) w = (true, w')
    /\ trace w' = trace w0
    /\ connected (impl w') = false
    /\ running (impl w') = false
    /\ dials w' = dials w
    /\ forall code,
         trace (snd (disconnect code w'))
         = trace w0 ++ [EvHeartbeatStop; EvJoinIoThread; EvCleanup].
Proof.
  intros Hrun Hdec Hop w0.
  destruct (drainSendQueue_frame w) as (He & Hi & Hs & Hd & Hq & Hg).
  fold w0 in He, Hi, Hs, Hd, Hq, Hg.
  assert (Hdec0 : decodeFrame (limitOf w0) (inbound w0) = DecFrame f rest).
  { unfold limitOf. rewrite Hi, Hs. exact Hdec. }
  rewrite (ioLoop_round fuel w Hrun). cbv zeta. fold w0.
  rewrite (readFrame_frame w0 f rest Hdec0).
  unfold dispatch. rewrite Hop.
  cbn [Z.eqb Pos.eqb orb Opcode.Text Opcode.Binary Opcode.Close].
  unfold bind at 1 2. rewrite handleClose_eq. unfold ret.
  cbn [fst snd impl connected].
  eexists. split; [reflexivity|].
  cbn [trace impl connected running dials withInbound setInbound snd].
  repeat split; try assumption.
  intros code. rewrite disconnect_not_connected by reflexivity. reflexivity.
Qed.

Lemma C2_close_frame_emits_no_disconnect_witness :
  let w := Sample.world (Sample.config 1024 true 5) [0x88; 0x02; 0x03; 0xE8] in
  closeCode [0x03; 0xE8] = 1000
  /\ exists w',
       ioLoop 1 w = (true, w')
       /\ trace w' = []
       /\ connected (impl w') = false
       /\ running (impl w') = false
       /\ dials w' = 0%nat
       /\ forall code,
            trace (snd (disconnect code w'))
            = [] ++ [EvHeartbeatStop; EvJoinIoThread; EvCleanup].
Proof.
  split; [reflexivity|].
  apply (C2_close_frame_emits_no_disconnect
           (Sample.world (Sample.config 1024 true 5) [0x88; 0x02; 0x03; 0xE8])
           (mkFrame true Opcode.Close false 2 [0x03; 0xE8]) [] 0);
    reflexivity.
Defined.

End C2.

(** ** Connecting and reconnecting *)

Section Reconnect.
Import Codec Session.

Ltac step_trace tac :=
  cbn [env impl inbound sendQueue draws dials trace snd fst
       config parsedUrl connected running reconnectAttempts callbacks
       ioThread];
  repeat (apply grows_snoc; [|tac]); try apply grows_refl.

(** The events of [connect()]: errors, clean-ups, and on success the two
    threads and [onConnect], or [std::terminate()]. *)
Lemma connect_grows (P : Event -> Prop) (w : World) :
  (forall code, P (EvError code)) -> P EvCleanup -> P EvIoThread ->
  P EvHeartbeatStart -> P EvConnect -> P EvTerminate ->
  grows P (trace w) (trace (snd (connect w))).
Proof.
  intros Herr Hclean Hio Hhb Hconn Hterm.
  unfold connect, triggerError, triggerConnect, cleanup, setConnected,
    setRunning, setReconnectAttempts, setIoThread, modifyImpl, dial, when,
    bind, get, ret, emit.
  cbv beta.
  destruct (Url.valid (parsedUrl (impl w))); cbn [negb].
  2:{ destruct (onErrorCb _); step_trace ltac:(auto). }
  cbn [env impl inbound sendQueue draws dials trace snd fst].
  destruct (network (env w) (dials w)) as [a b c d].
  cbn [initSocket_ok connectSocket_ok initTls_ok performHandshake_ok].
  destruct a; cbn [negb].
  2:{ destruct (onErrorCb _); step_trace ltac:(auto). }
  destruct b; cbn [negb].
  2:{ destruct (onErrorCb _); step_trace ltac:(auto). }
  destruct (Url.secure (parsedUrl (impl w)) && negb c).
  { destruct (onErrorCb _); step_trace ltac:(auto). }
  destruct d; cbn [negb].
  2:{ destruct (onErrorCb _); step_trace ltac:(auto). }
  cbn [env impl inbound sendQueue draws dials trace snd fst callbacks ioThread].
  destruct (ioThread (impl w)).
  { step_trace ltac:(auto). }
  cbn [env impl inbound sendQueue draws dials trace snd fst callbacks ioThread].
  destruct (onConnectCb _); step_trace ltac:(auto).
Qed.

(** A refused attempt: one dial, the session as it was, errors reported. *)
Lemma connect_fails (w : World) :
  Url.valid (parsedUrl (impl w)) = true ->
  attemptSucceeds (Url.secure (parsedUrl (impl w))) (network (env w) (dials w))
  = false ->
  exists t,
    connect w
    = (Some false,
       mkWorld (env w) (impl w) (inbound w) (sendQueue w) (draws w)
               (S (dials w)) t)
    /\ grows (fun e => e = EvCleanup \/ isError e) (trace w) t.
Proof.
  intros Hvalid Hfail.
  unfold connect, triggerError, triggerConnect, cleanup, setConnected,
    setRunning, setReconnectAttempts, modifyImpl, dial, when, bind, get, ret,
    emit.
  rewrite Hvalid. cbn [negb env impl inbound sendQueue draws dials trace].
  unfold attemptSucceeds in Hfail.
  destruct (network (env w) (dials w)) as [a b c d].
  cbn [initSocket_ok connectSocket_ok initTls_ok performHandshake_ok] in *.
  destruct a; cbn [negb andb] in *.
  2:{ destruct (onErrorCb _); eexists; (split; [reflexivity|]);
      step_trace ltac:(cbn; tauto). }
  destruct b; cbn [negb andb] in *.
  2:{ destruct (onErrorCb _); eexists; (split; [reflexivity|]);
      step_trace ltac:(cbn; tauto). }
  destruct (Url.secure (parsedUrl (impl w))); destruct c; cbn [negb andb orb] in *.
  all: try (destruct (onErrorCb _); eexists; (split; [reflexivity|]);
            step_trace ltac:(cbn; tauto); fail).
  all: destruct d; [discriminate|]; cbn [negb].
  all: destruct (onErrorCb _); eexists; (split; [reflexivity|]);
       step_trace ltac:(cbn; tauto).
Qed.

(** An attempt that gets through, on a session that has no I/O thread to
    replace: the session is open and the attempt counter is zero.  On a
    session whose I/O thread is still joinable the call does not return. *)
Lemma connect_succeeds (w : World) :
  Url.valid (parsedUrl (impl w)) = true ->
  attemptSucceeds (Url.secure (parsedUrl (impl w))) (network (env w) (dials w))
  = true ->
  connect w
  = if ioThread (impl w) then
      (None,
       mkWorld (env w)
               (mkImpl (config (impl w)) (parsedUrl (impl w)) true true 0
                       (callbacks (impl w)) true)
               (inbound w) (sendQueue w) (draws w) (S (dials w))
               (trace w ++ [EvTerminate]))
    else
      (Some true,
       mkWorld (env w)
               (mkImpl (config (impl w)) (parsedUrl (impl w)) true true 0
                       (callbacks (impl w)) true)
               (inbound w) (sendQueue w) (draws w) (S (dials w))
               (trace w ++ [EvIoThread; EvHeartbeatStart]
                        ++ fire (onConnectCb (callbacks (impl w))) EvConnect)).
Proof.
  intros Hvalid Hok.
  unfold connect, triggerError, triggerConnect, cleanup, setConnected,
    setRunning, setReconnectAttempts, setIoThread, modifyImpl, dial, when,
    bind, get, ret, emit, fire.
  rewrite Hvalid. cbn [negb env impl inbound sendQueue draws dials trace].
  unfold attemptSucceeds in Hok.
  destruct (network (env w) (dials w)) as [a b c d].
  cbn [initSocket_ok connectSocket_ok initTls_ok performHandshake_ok] in *.
  destruct a; [|discriminate]. destruct b; [|discriminate].
  cbn [negb andb] in *.
  destruct d; [|now rewrite andb_false_r in Hok]. rewrite andb_true_r in Hok.
  replace (Url.secure (parsedUrl (impl w)) && negb c) with false
    by (destruct (Url.secure _), c; cbn in *; congruence).
  cbn [negb env impl inbound sendQueue draws dials trace
       config parsedUrl connected running reconnectAttempts callbacks
       ioThread].
  destruct (ioThread (impl w)); [reflexivity |].
  cbn [negb env impl inbound sendQueue draws dials trace
       config parsedUrl connected running reconnectAttempts callbacks
       ioThread].
  destruct (onConnectCb _);
    cbn [env impl inbound sendQueue draws dials trace];
    rewrite <- ?app_assoc, ?app_nil_r; reflexivity.
Qed.

(** [connect()] on a URL that did not parse to a valid one. *)
Lemma connect_invalid_url (w : World) :
  Url.valid (parsedUrl (impl w)) = false ->
  connect w
  = (Some false,
     withTrace (trace w ++ fire (onErrorCb (callbacks (impl w)))
                                (EvError ErrorCode.InvalidUrl)) w).
Proof.
  intros H. unfold connect, triggerError, when, bind, get, ret, emit, fire,
    withTrace.
  rewrite H. cbn [negb]. destruct w as [e i s q d n t]. cbn.
  destruct (onErrorCb _); cbn; rewrite ?app_nil_r; reflexivity.
Qed.

End Reconnect.

Section HandleDisconnect.
Import Codec Session.


(** One reconnection attempt, refused: [handleDisconnect] does not try
    again. *)
Lemma handleDisconnect_one_attempt (w : World) :
  autoReconnect (config (impl w)) = true ->
  reconnectAttempts (impl w) < maxReconnectAttempts (config (impl w)) ->
  Url.valid (parsedUrl (impl w)) = true ->
  attemptSucceeds (Url.secure (parsedUrl (impl w))) (network (env w) (dials w))
  = false ->
  exists evs,
    handleDisconnect w
    = (tt,
       mkWorld (env w)
               (mkImpl (config (impl w)) (parsedUrl (impl w)) false false
                       (reconnectAttempts (impl w) + 1) (callbacks (impl w))
                       (ioThread (impl w)))
               (inbound w) (sendQueue w) (draws w) (S (dials w))
               (trace w
                  ++ [EvSleep (1 * (reconnectAttempts (impl w) + 1)); EvCleanup]
                  ++ evs
                  ++ fire (onDisconnectCb (callbacks (impl w)))
                          (EvDisconnect CloseCode.AbnormalClosure)))
    /\ Forall (fun e => e = EvCleanup \/ isError e) evs.
Proof.
  intros Hauto Hless Hvalid Hfail.
  unfold handleDisconnect, bind at 1.
  unfold setConnected at 1, modifyImpl at 1.
  unfold bind at 1, get at 1.
  cbn [env impl inbound sendQueue draws dials trace
       config parsedUrl connected running reconnectAttempts callbacks].
  rewrite Hauto. replace (_ <? _) with true by (symmetry; now apply Z.ltb_lt).
  cbn [andb].
  unfold bind at 1. unfold bind at 1.
  unfold setReconnectAttempts at 1, modifyImpl at 1.
  cbn [env impl inbound sendQueue draws dials trace
       config parsedUrl connected running reconnectAttempts callbacks].
  unfold bind at 1, emit at 1.
  cbn [env impl inbound sendQueue draws dials trace].
  unfold bind at 1, cleanup at 1, emit at 1.
  cbn [env impl inbound sendQueue draws dials trace].
  match goal with |- context [connect ?x] =>
    destruct (connect_fails x) as (t & Hconn & evs & -> & Hevs);
      [exact Hvalid | exact Hfail | rewrite Hconn]
  end.
  cbn [env impl inbound sendQueue draws dials trace
       config parsedUrl connected running reconnectAttempts callbacks].
  exists evs. split; [|exact Hevs].
  unfold triggerDisconnect, setRunning, modifyImpl, when, bind, get, ret, emit,
    fire.
  cbn [env impl inbound sendQueue draws dials trace
       config parsedUrl connected running reconnectAttempts callbacks].
  destruct (onDisconnectCb _); cbn; rewrite <- ?app_assoc, ?app_nil_r; reflexivity.
Qed.

(** The events of [handleDisconnect]: a sleep, a clean-up and those of
    [connect()] when it reconnects, [onDisconnect] with 1006 when it gives
    up. *)
Lemma handleDisconnect_grows (P : Event -> Prop) (w : World) :
  (forall code, P (EvError code)) -> P EvCleanup -> P EvIoThread ->
  P EvHeartbeatStart -> P EvConnect -> P EvTerminate ->
  (forall s, P (EvSleep s)) ->
  P (EvDisconnect CloseCode.AbnormalClosure) ->
  grows P (trace w) (trace (snd (handleDisconnect w))).
Proof.
  intros Herr Hclean Hio Hhb Hconn Hterm Hsleep Hdisc.
  unfold handleDisconnect, bind at 1.
  unfold setConnected at 1, modifyImpl at 1.
  unfold bind at 1, get at 1.
  cbn [env impl inbound sendQueue draws dials trace
       config parsedUrl connected running reconnectAttempts callbacks].
  assert (Hlast : forall w1 : World,
    grows P (trace w1)
      (trace (snd ((setRunning false;;
                    triggerDisconnect CloseCode.AbnormalClosure)%ws w1)))).
  { intros w1.
    unfold triggerDisconnect, setRunning, modifyImpl, when, bind, get, ret, emit.
    cbn [env impl inbound sendQueue draws dials trace callbacks].
    destruct (onDisconnectCb _); cbn [snd trace].
    - apply grows_snoc; [apply grows_refl | exact Hdisc].
    - apply grows_refl. }
  destruct (_ && _).
  - unfold bind at 1. unfold bind at 1.
    unfold setReconnectAttempts at 1, modifyImpl at 1.
    cbn [env impl inbound sendQueue draws dials trace].
    unfold bind at 1, emit at 1.
    cbn [env impl inbound sendQueue draws dials trace].
    unfold bind at 1, cleanup at 1, emit at 1.
    cbn [env impl inbound sendQueue draws dials trace].
    match goal with |- context [connect ?x] =>
      pose proof (connect_grows P x Herr Hclean Hio Hhb Hconn Hterm) as Hc;
      destruct (connect x) as [ok w2]
    end.
    cbn [snd trace] in Hc.
    assert (Hpre : grows P (trace w) (trace w2)).
    { eapply grows_trans; [|exact Hc].
      apply grows_snoc; [apply grows_snoc; [apply grows_refl|]|]; auto. }
    destruct ok as [[|]|].
    + exact Hpre.
    + eapply grows_trans; [exact Hpre | apply Hlast].
    + exact Hpre.
  - unfold bind at 1, ret at 1.
    match goal with |- context [bind _ _ ?x] => apply (Hlast x) end.
Qed.


End HandleDisconnect.

(** ** C5: a frame over the limit *)

Section C5.
Import Codec Session.





End C5.

(** ** C7: reconnection *)

Section C7.
Import Codec Session.

Lemma readFrame_end_of_stream (w : World) :
  inbound w = [] -> readFrame w = (false, w).
Proof.
  intros H. unfold readFrame, bind, get. rewrite H. cbn.
  unfold setInbound. destruct w. cbn in *. now subst.
Qed.

(** C7 (what the code does): after an abnormal loss of the connection,
    with auto-reconnect enabled and an attempt left, [handleDisconnect]
    waits [reconnectAttempts + 1] seconds and makes one reconnection
    attempt; when it is refused the loop is over: [onDisconnect] gets 1006
    and there is no further attempt, whatever [maxReconnectAttempts]. *)
Theorem C7_single_attempt_then_1006 (w : World) (fuel : nat) :
  running (impl w) = true ->
  connected (impl w) = true ->
  inbound w = [] ->
  autoReconnect (config (impl w)) = true ->
  reconnectAttempts (impl w) < maxReconnectAttempts (config (impl w)) ->
  Url.valid (parsedUrl (impl w)) = true ->
  attemptSucceeds (Url.secure (parsedUrl (impl w))) (network (env w) (dials w))
  = false ->
  let w0 := snd (drainSendQueue w) in
  exists evs,
    ioLoop (S fuel) w
    = (true,
       mkWorld (env w)
               (mkImpl (config (impl w)) (parsedUrl (impl w)) false false
                       (reconnectAttempts (impl w) + 1) (callbacks (impl w))
                       (ioThread (impl w)))
               [] [] (draws w0) (S (dials w))
               (trace w0
                  ++ [EvSleep (1 * (reconnectAttempts (impl w) + 1)); EvCleanup]
                  ++ evs
                  ++ fire (onDisconnectCb (callbacks (impl w)))
                          (EvDisconnect CloseCode.AbnormalClosure)))
    /\ Forall (fun e => e = EvCleanup \/ isError e) evs.
Proof.
  intros Hrun Hconn Hin Hauto Hless Hvalid Hfail w0.
  destruct (drainSendQueue_frame w) as (He & Hi & Hs & Hd & Hq & Hg).
  fold w0 in He, Hi, Hs, Hd, Hq, Hg.
  rewrite (ioLoop_round fuel w Hrun). cbv zeta. fold w0.
  rewrite readFrame_end_of_stream by (rewrite Hs; exact Hin).
  cbn [fst snd]. rewrite Hi, Hconn.
  destruct (handleDisconnect_one_attempt w0) as (evs & Heq & Hevs).
  - now rewrite Hi.
  - now rewrite Hi.
  - now rewrite Hi.
  - now rewrite Hi, He, Hd.
  - exists evs. split; [|exact Hevs].
    rewrite Heq. cbn [snd]. rewrite He, Hi, Hs, Hd, Hq, Hin. reflexivity.
Qed.

(** Scenario S6, evaluated: auto-reconnect with [maxReconnectAttempts = 2];
    the peer drops the connection and refuses every new one.  One sleep of
    one second, one attempt, then [onDisconnect(1006)]. *)
Example reconnect_refused_evaluated :
  let w' := snd (ioLoop 1 (Sample.world (Sample.config 1024 true 2) [])) in
  trace w'
  = [EvSleep 1; EvCleanup; EvError ErrorCode.ConnectionFailed; EvCleanup;
     EvDisconnect CloseCode.AbnormalClosure]
  /\ dials w' = 1%nat
  /\ reconnectAttempts (impl w') = 1
  /\ running (impl w') = false.
Proof. vm_compute. repeat split. Qed.

(** The same loss with a peer that accepts the new connection:
    [connect()] runs on the I/O thread, [ioThread] is joinable, and the
    assignment of the new thread to it ends the process.  Neither
    [onConnect] nor [onDisconnect] is invoked. *)
Example reconnect_accepted_evaluated :
  let w := mkWorld Sample.friendlyEnv (Sample.open (Sample.config 1024 true 2))
                   [] [] 0 0 [] in
  let w' := snd (ioLoop 1 w) in
  trace w' = [EvSleep 1; EvCleanup; EvTerminate]
  /\ dials w' = 1%nat.
Proof. vm_compute. repeat split. Qed.

(** Auto-reconnect with [maxReconnectAttempts = 2], the peer drops the
    connection and refuses every new one: one attempt, after one second. *)
Lemma C7_single_attempt_then_1006_witness :
  exists evs,
    ioLoop 1 (Sample.world (Sample.config 1024 true 2) [])
    = (true,
       mkWorld Sample.env
               (mkImpl (Sample.config 1024 true 2) Sample.echoUrl false false
                       (0 + 1) Sample.allCallbacks true)
               [] [] 0 1
               ([] ++ [EvSleep (1 * (0 + 1)); EvCleanup]
                   ++ evs
                   ++ fire true (EvDisconnect CloseCode.AbnormalClosure)))
    /\ Forall (fun e => e = EvCleanup \/ isError e) evs.
Proof.
  apply (C7_single_attempt_then_1006
           (Sample.world (Sample.config 1024 true 2) []) 0);
    try reflexivity.
Defined.

End C7.

(** ** The URL parser *)

Section UrlFacts.
Import Url.
Local Open Scope string_scope.

Lemma take_app (a b : string) : take (String.length a) (a ++ b) = a.
Proof. induction a as [|c a IH]; cbn; [now destruct b | now rewrite IH]. Qed.

Lemma substr_app (a b : string) : substr (String.length a) (a ++ b) = b.
Proof. induction a as [|c a IH]; cbn; [reflexivity | exact IH]. Qed.

Lemma find_app_none (c : ascii) (a b : string) :
  find c a = None ->
  find c (a ++ b)
  = match find c b with Some i => Some (String.length a + i)%nat | None => None end.
Proof.
  induction a as [|x a IH]; cbn; intros H.
  - now destruct (find c b).
  - destruct (Ascii.eqb x c); [discriminate|].
    destruct (find c a); [discriminate|].
    rewrite IH by reflexivity. now destruct (find c b).
Qed.

(** What [parseUrl] does of [scheme ++ authority ++ path], when the
    authority has no ['/'] and the path is empty or starts with ['/']. *)
Lemma parseUrl_shape (secure : bool) (authority path : string) :
  find "/" authority = None ->
  path = "" \/ (exists p, path = String "/" p) ->
  parseUrl ((if secure then "wss://" else "ws://") ++ authority ++ path)
  = let path' := if String.eqb path "" then "/" else path in
    match rfind ":" authority with
    | None =>
        Returned (mkParsedUrl secure authority (if secure then 443 else 80)%Z
                              path')
    | Some colonPos =>
        match stoi (substr (colonPos + 1) authority) with
        | Returned n =>
            Returned (mkParsedUrl secure (take colonPos authority) (u16 n) path')
        | Threw e => Threw e
        end
    end.
Proof.
  intros Hauth Hpath. unfold parseUrl.
  assert (Hsplit :
    match find "/" (authority ++ path) with
    | Some pathPos =>
        (take pathPos (authority ++ path), substr pathPos (authority ++ path))
    | None => (authority ++ path, "/")
    end = (authority, if String.eqb path "" then "/" else path)).
  { rewrite find_app_none by exact Hauth.
    destruct Hpath as [-> | [p ->]].
    - cbn. f_equal. clear. induction authority; cbn; congruence.
    - cbn [find Ascii.eqb Bool.eqb String.eqb]. rewrite Nat.add_0_r.
      now rewrite take_app, substr_app. }
  destruct secure.
  - cbn [append take substr String.eqb Ascii.eqb Bool.eqb andb].
    rewrite Hsplit. reflexivity.
  - cbn [append take substr String.eqb Ascii.eqb Bool.eqb andb].
    rewrite Hsplit. reflexivity.
Qed.

(** Any other scheme: the parse is returned, and is not valid. *)
Lemma parseUrl_other_scheme (url : string) :
  String.eqb (take 6 url) "wss://" = false ->
  String.eqb (take 5 url) "ws://" = false ->
  exists r, parseUrl url = Returned r /\ valid r = false.
Proof.
  intros H6 H5. unfold parseUrl. rewrite H6, H5.
  eexists. split; reflexivity.
Qed.

(** A parse with an empty host is not valid. *)
Lemma empty_host_invalid (r : ParsedUrl) : host r = "" -> valid r = false.
Proof. unfold valid. now intros ->. Qed.

End UrlFacts.

(** ** C6 and C10: the port of the URL *)

Section UrlClaims.
Import Url Session.
Local Open Scope string_scope.

(** The parser on well-formed URLs, as the specification describes it. *)
Example parseUrl_examples :
  parseUrl "wss://echo.example/"
  = Returned (mkParsedUrl true "echo.example" 443 "/")
  /\ parseUrl "ws://echo.example"
     = Returned (mkParsedUrl false "echo.example" 80 "/")
  /\ parseUrl "ws://echo.example:8080/chat/room"
     = Returned (mkParsedUrl false "echo.example" 8080 "/chat/room")
  /\ (exists r, parseUrl "http://echo.example/" = Returned r /\ valid r = false)
  /\ (exists r, parseUrl "ws:///chat" = Returned r /\ valid r = false)
  /\ (exists r, parseUrl "ws://:8080/chat" = Returned r /\ valid r = false).
Proof.
  repeat split; try reflexivity; eexists; split; reflexivity.
Qed.

(** C6 (where the code departs from it): an authority with an empty host
    does not always give an invalid parse.  When the text after the last
    [':'] is not a number, as in ["ws://:/"] or ["ws://:abc/x"],
    [std::stoi] throws and [parseUrl] returns no parse at all. *)
Theorem C6_empty_host_without_port_number_throws :
  parseUrl "ws://:/" = Threw invalid_argument
  /\ parseUrl "ws://:abc/x" = Threw invalid_argument
  /\ parseUrl "wss://:" = Threw invalid_argument.
Proof. repeat split. Qed.

(** C10 (where the code departs from it): [parseUrl] does not return for
    every URL.  On ["ws://host:abc/"] [std::stoi] throws
    [std::invalid_argument], on ["ws://host:99999999999/"]
    [std::out_of_range]; nothing catches them, so the constructor of the
    session, which calls [parseUrl], throws too: there is no session on
    which [connect()] could report [InvalidUrl]. *)
Theorem C10_malformed_port_throws :
  parseUrl "ws://host:abc/" = Threw invalid_argument
  /\ parseUrl "ws://host:99999999999/" = Threw out_of_range
  /\ newImpl (mkConfig "ws://host:abc/" 10000 16777216 true 5 Sample.pingConfig)
     = Threw invalid_argument
  /\ newImpl (mkConfig "ws://host:99999999999/" 10000 16777216 true 5
                       Sample.pingConfig)
     = Threw out_of_range.
Proof. repeat split. Qed.

(** When [parseUrl] does return an invalid parse, [connect()] reports
    [InvalidUrl] and returns false, as C10 expects. *)
Example connect_on_invalid_parse :
  exists i,
    newImpl (mkConfig "http://host/" 10000 16777216 true 5 Sample.pingConfig)
    = Returned i
    /\ forall w, impl w = i ->
         fst (connect w) = Some false
         /\ trace (snd (connect w))
            = (trace w ++ fire (onErrorCb (callbacks i))
                               (EvError ErrorCode.InvalidUrl))%list.
Proof.
  eexists. split; [reflexivity|].
  intros w Hw. rewrite connect_invalid_url by (rewrite Hw; reflexivity).
  rewrite Hw. split; reflexivity.
Qed.

End UrlClaims.

(** ** C8: [setMode(Disabled)] *)

Section C8.
Import Session Heartbeat.

(** The worker is running after [start()] on a manager that is not
    disabled. *)
Lemma start_runs_worker (s : Manager) :
  mutex_held s = false -> running_ s = false ->
  is_disabled (mode (config_ s)) = false ->
  start s = Returns tt (mkManager (config_ s) true false false true).
Proof.
  intros Hm Hr Hd. unfold start, hbind, lock, hget. rewrite Hm, Hr.
  cbn [running_ config_]. rewrite Hd. reflexivity.
Qed.

(** [stop()], called with the mutex free, returns with the worker joined. *)
Lemma stop_returns (s : Manager) :
  mutex_held s = false -> running_ s = true -> timerThread_ s = true ->
  stop s = Returns tt (mkManager (config_ s) false (waitingPong_ s) false false).
Proof.
  intros Hm Hr Ht. unfold stop, hbind, lock, hget. rewrite Hm.
  cbn [running_]. rewrite Hr. cbn [negb setRunning_ unlock timerThread_].
  rewrite Ht. reflexivity.
Qed.

(** C8 (what the code does): [setMode(Disabled)] takes [mutex_] and, still
    holding it, calls [stop()], whose first statement locks [mutex_] again:
    the calling thread waits for itself.  The call does not return,
    [running_] is not cleared and the worker is not joined. *)
Theorem C8_setMode_Disabled_blocks (s : Manager) :
  mutex_held s = false ->
  exists s',
    setMode Disabled s = Blocked s'
    /\ mutex_held s' = true
    /\ running_ s' = running_ s
    /\ timerThread_ s' = timerThread_ s.
Proof.
  intros Hm. unfold setMode, hbind, lock. rewrite Hm.
  cbn [setConfigMode is_disabled stop hbind lock mutex_held].
  eexists. split; [reflexivity|]. repeat split.
Qed.

(** A manager started in [Opcode] mode, then [setMode(Disabled)]. *)
Lemma C8_setMode_Disabled_blocks_witness :
  exists s',
    setMode Disabled (mkManager Sample.pingConfig true false false true)
    = Blocked s'
    /\ mutex_held s' = true
    /\ running_ s' = true
    /\ timerThread_ s' = true.
Proof.
  apply (C8_setMode_Disabled_blocks
           (mkManager Sample.pingConfig true false false true)).
  reflexivity.
Defined.

End C8.

(** ** Frames as the peer writes them *)

Section PeerFrame.
Import Codec Session.

Lemma frame7_header (fin : bool) (op n : Z) :
  0 <= op < 16 -> 0 <= n < 126 ->
  finBit ((if fin then 0x80 else 0) + op) = fin
  /\ Z.land ((if fin then 0x80 else 0) + op) 0x0F = op
  /\ maskBit n = false
  /\ Z.land n 0x7F = n.
Proof.
  intros Hop Hn.
  pose proof (below_by_computation
    (fun op => Bool.eqb (finBit (0x80 + op)) true
               && (Z.land (0x80 + op) 0x0F =? op)
               && Bool.eqb (finBit (0 + op)) false
               && (Z.land (0 + op) 0x0F =? op)) 16 eq_refl op Hop) as H1.
  pose proof (below_by_computation
    (fun n => Bool.eqb (maskBit n) false && (Z.land n 0x7F =? n))
    126 eq_refl n Hn) as H2.
  cbv beta in H1, H2.
  apply andb_true_iff in H2. destruct H2 as [H2a H2b].
  apply andb_true_iff in H1. destruct H1 as [H1 H1d].
  apply andb_true_iff in H1. destruct H1 as [H1 H1c].
  apply andb_true_iff in H1. destruct H1 as [H1a H1b].
  apply Bool.eqb_prop in H2a, H1a, H1c. apply Z.eqb_eq in H2b, H1b, H1d.
  destruct fin; repeat split; assumption.
Qed.

(** An unmasked frame with a seven-bit length is read as it is: FIN bit,
    opcode and payload, and the rest of the stream is left for the next
    read. *)
Lemma decodeFrame_frame7
    (limit : Z) (fin : bool) (op : Z) (data rest : list Z) :
  0 <= op < 16 -> size_of data < 126 -> size_of data <= limit ->
  decodeFrame limit (Peer.frame7 fin op data ++ rest)
  = DecFrame (mkFrame fin op false (size_of data) data) rest.
Proof.
  intros Hop Hn Hlimit.
  assert (H0 : 0 <= size_of data) by (unfold size_of; lia).
  destruct (frame7_header fin op (size_of data) Hop ltac:(lia))
    as (Hfin & Hopc & Hmask & Hlen).
  unfold decodeFrame, Peer.frame7. cbn [app].
  rewrite readHeader_7 by (rewrite Hlen; lia).
  rewrite Hfin, Hopc, Hmask, Hlen.
  cbn [h_payloadLen h_masked h_fin h_opcode andb].
  destruct (Z.gtb_spec (size_of data) limit); [lia|].
  rewrite recvPayload_exact, andb_false_r. reflexivity.
Qed.

End PeerFrame.

(** ** The automatic pong, along the whole loop *)

Section PongAlongTheLoop.
Import Codec Session.

Lemma pongBeforePing_quiet (t : list Event) :
  Forall (fun e => ~ isPing e) t -> pongBeforePing t.
Proof.
  intros Hall pre P post ->. exfalso.
  apply Forall_app in Hall. destruct Hall as [_ Hall].
  inversion Hall as [|e l He _]. apply He. exact I.
Qed.

Lemma pongBeforePing_app (t1 t2 : list Event) :
  pongBeforePing t1 -> pongBeforePing t2 -> pongBeforePing (t1 ++ t2).
Proof.
  intros H1 H2 pre P post Heq.
  apply app_eq_app in Heq. destruct Heq as [l [[Ht1 Hl] | [Hpre Ht2]]].
  - destruct l as [|e l].
    + cbn in Hl. destruct (H2 [] P post (eq_sym Hl)) as (pre' & key & Habs).
      now destruct pre'.
    + injection Hl as <- ->. exact (H1 pre P l Ht1).
  - destruct (H2 l P post Ht2) as (pre' & key & ->).
    exists (t1 ++ pre'), key. subst pre. now rewrite app_assoc.
Qed.

(** A frame that [readFrame] accepts leaves the session as it was. *)
Lemma readFrame_true_impl (w : World) :
  fst (readFrame w) = true -> impl (snd (readFrame w)) = impl w.
Proof.
  pose proof (readFrame_cases w) as Hcases.
  destruct (decodeFrame _ _) as [f rest | rest |]; rewrite Hcases;
    [|discriminate|discriminate].
  set (w' := withInbound rest w).
  change (impl w) with (impl w').
  unfold dispatch.
  destruct (_ || _).
  { unfold bind, ret. rewrite handleMessage_trace. reflexivity. }
  destruct (_ =? Opcode.Close).
  { unfold bind, ret. rewrite handleClose_eq. discriminate. }
  destruct (_ =? Opcode.Ping).
  { intros _. unfold handlePing, sendPongFrame, bind, get, when, ret.
    destruct (autoPong _); [destruct (connected (impl w'))|];
      cbn [negb]; try rewrite sendFrame_eq; unfold emit, ret;
      cbn [impl env snd trace];
      destruct (onPingCb _); reflexivity. }
  destruct (_ =? Opcode.Pong).
  { intros _. unfold handlePong, bind, get, when, ret, emit.
    cbn [snd impl]. destruct (onPongCb _); reflexivity. }
  reflexivity.
Qed.

(** One frame, on an open session with auto-pong. *)
Lemma readFrame_pongBeforePing (w : World) :
  autoPong (ping (config (impl w))) = true ->
  connected (impl w) = true ->
  exists evs,
    trace (snd (readFrame w)) = trace w ++ evs /\ pongBeforePing evs.
Proof.
  intros Hauto Hconn.
  assert (Hquiet : forall t',
    grows (fun e => ~ isPing e) (trace w) t' ->
    exists evs, t' = trace w ++ evs /\ pongBeforePing evs).
  { intros t' (evs & -> & Hall). exists evs. split; [reflexivity|].
    now apply pongBeforePing_quiet. }
  pose proof (readFrame_cases w) as Hcases.
  destruct (decodeFrame _ _) as [f rest | rest |]; rewrite Hcases.
  - set (w' := withInbound rest w).
    change (trace w) with (trace w') in *.
    change (impl w) with (impl w') in *.
    unfold dispatch.
    destruct (_ || _).
    { unfold bind, ret. rewrite handleMessage_trace. apply Hquiet.
      unfold withTrace, fire. cbn [snd trace].
      destruct (onRawMessageCb _); destruct (_ && _); cbn [app];
        rewrite ?app_nil_r; try apply grows_refl.
      - exists [EvRawMessage (payload f); EvMessage (payload f)].
        split; [reflexivity | repeat constructor; cbn; tauto].
      - apply grows_snoc; [apply grows_refl | cbn; tauto].
      - apply grows_snoc; [apply grows_refl | cbn; tauto]. }
    destruct (_ =? Opcode.Close).
    { unfold bind, ret. rewrite handleClose_eq. apply Hquiet.
      cbn. apply grows_refl. }
    destruct (_ =? Opcode.Ping).
    { unfold bind at 1. unfold ret.
      rewrite handlePing_connected by assumption.
      cbn [snd trace].
      eexists. split; [reflexivity|].
      unfold fire. destruct (onPingCb _).
      - intros pre P post Heq.
        destruct pre as [|e1 [|e2 pre]]; cbn [app] in Heq.
        + discriminate.
        + injection Heq as <- <- _. now exists [], (maskKey w').
        + injection Heq as _ _ Heq. now destruct pre.
      - apply pongBeforePing_quiet. repeat constructor. cbn. tauto. }
    destruct (_ =? Opcode.Pong).
    { apply Hquiet. unfold handlePong, bind, get, when, ret, emit.
      cbn [snd impl trace]. destruct (onPongCb _); cbn [snd trace];
        repeat (apply grows_snoc; [|cbn; tauto]); apply grows_refl. }
    apply Hquiet. cbn. apply grows_refl.
  - apply Hquiet.
    unfold triggerError, withInbound, setInbound, when, bind, get, ret, emit.
    cbn [impl snd trace]. destruct (onErrorCb _); cbn [snd trace];
      repeat (apply grows_snoc; [|cbn; tauto]); apply grows_refl.
  - apply Hquiet. cbn. apply grows_refl.
Qed.

(** Along the whole loop of a session opened by [connect()], with auto-pong:
    [onPing] is never invoked but right after the Pong frame with the same
    payload was written. *)
Lemma ioLoop_pongBeforePing (fuel : nat) :
  forall w,
  autoPong (ping (config (impl w))) = true ->
  connected (impl w) = true ->
  exists evs,
    trace (snd (ioLoop fuel w)) = trace w ++ evs /\ pongBeforePing evs.
Proof.
  induction fuel as [|fuel IH]; intros w Hauto Hconn.
  - exists []. split; [cbn; now rewrite app_nil_r|].
    apply pongBeforePing_quiet. constructor.
  - destruct (running (impl w)) eqn:Hrun.
    2:{ exists []. cbn [ioLoop]. unfold bind, get, ret. rewrite Hrun.
        split; [cbn; now rewrite app_nil_r|].
        apply pongBeforePing_quiet. constructor. }
    rewrite (ioLoop_round fuel w Hrun). cbv zeta.
    destruct (drainSendQueue_frame w) as (He & Hi & Hs & Hd & Hq & Hg).
    set (w0 := snd (drainSendQueue w)) in *.
    destruct Hg as (evs0 & Ht0 & Hall0).
    assert (H0 : pongBeforePing evs0).
    { apply pongBeforePing_quiet. eapply Forall_impl; [|exact Hall0].
      intros e [b ->]. cbn. tauto. }
    destruct (readFrame_pongBeforePing w0) as (evs1 & Ht1 & H1).
    { now rewrite Hi. }
    { now rewrite Hi. }
    pose proof (readFrame_true_impl w0) as Himpl.
    set (w1 := snd (readFrame w0)) in *.
    destruct (fst (readFrame w0)).
    + destruct (IH w1) as (evs2 & Ht2 & H2).
      { rewrite Himpl, Hi by reflexivity. exact Hauto. }
      { rewrite Himpl, Hi by reflexivity. exact Hconn. }
      exists (evs0 ++ evs1 ++ evs2). split.
      * rewrite Ht2, Ht1, Ht0. now rewrite <- !app_assoc.
      * now repeat apply pongBeforePing_app.
    + cbn [snd].
      assert (H2 : exists evs2,
        trace (if connected (impl w1) then snd (handleDisconnect w1) else w1)
        = trace w1 ++ evs2 /\ pongBeforePing evs2).
      { destruct (connected (impl w1)).
        - destruct (handleDisconnect_grows (fun e => ~ isPing e) w1)
            as (evs2 & Ht2 & Hall2); try (cbn; tauto).
          exists evs2. split; [exact Ht2 | now apply pongBeforePing_quiet].
        - exists []. split; [now rewrite app_nil_r|].
          apply pongBeforePing_quiet. constructor. }
      destruct H2 as (evs2 & Ht2 & H2).
      exists (evs0 ++ evs1 ++ evs2). split.
      * rewrite Ht2, Ht1, Ht0. now rewrite <- !app_assoc.
      * now repeat apply pongBeforePing_app.
Qed.

End PongAlongTheLoop.

Section C9Claim.
Import Codec Session.

(** C9 as it is stated does not hold: [sendPongFrame] writes nothing
    when the [connected] flag is clear, and [handlePing] invokes [onPing]
    all the same.  ([disconnect()], on another thread, clears the flag
    before it joins the I/O thread.)  Auto-pong is on, a Ping frame
    carrying "hi" is read: no Pong frame is written, [onPing] is invoked. *)
Lemma C9_counterexample :
  let w := snd (setConnected false
                  (Sample.world (Sample.config 1024 true 5)
                                [0x89; 0x02; 104; 105])) in
  autoPong (ping (config (impl w))) = true
  /\ running (impl w) = true
  /\ fst (readFrame w) = true
  /\ trace (snd (readFrame w)) = [EvPing [104; 105]]
  /\ trace (snd (ioLoop 2 w)) = [EvPing [104; 105]].
Proof. vm_compute. repeat split. Qed.

(** C9 (amended): with auto-pong enabled and the session connected, for
    every Ping frame with payload [P] that [readFrame] receives, a Pong
    frame with payload exactly [P] goes through the send path
    ([sendPongFrame], [sendFrame], [rawSend]) and only then is the [onPing]
    callback invoked with [P].  First along the whole I/O loop: [onPing] is
    never invoked but right after the write of the Pong frame with its
    payload.  Then for the frame at the head of the socket, when it is a
    Ping frame: the Pong frame is written, then [onPing] is invoked when it
    is set, and whoever decodes what was written reads opcode Pong and
    payload [P].  Last on the wire, for a Ping frame as a server writes it
    (not masked, at most 125 bytes of payload), received in full: the
    bytes written are [0x8A], the length with the mask bit, the four bytes
    of the key, and each byte of [P] xor-ed with the key byte of its index
    modulo 4. *)
Theorem C9_pong_sent_before_ping_callback (w : World) (fuel : nat) :
  autoPong (ping (config (impl w))) = true ->
  connected (impl w) = true ->
  (exists evs,
     trace (snd (ioLoop fuel w)) = trace w ++ evs /\ pongBeforePing evs)
  /\ (forall f rest,
        decodeFrame (limitOf w) (inbound w) = DecFrame f rest ->
        opcode f = Opcode.Ping ->
        let P := payload f in
        let pong := encodeFrame Opcode.Pong P (maskKey w) in
        fst (readFrame w) = true
        /\ trace (snd (readFrame w))
           = trace w ++ [EvRawSend pong]
                     ++ fire (onPingCb (callbacks (impl w))) (EvPing P)
        /\ (Forall is_byte (inbound w) -> 0 <= limitOf w < 2 ^ 64 ->
            forall tail,
              decodeFrame (limitOf w) (pong ++ tail)
              = DecFrame (mkFrame true Opcode.Pong true (size_of P) P) tail))
  /\ (forall P rest,
        Forall is_byte P -> size_of P < 126 ->
        inbound w = 0x89 :: size_of P :: P ++ rest ->
        decodeFrame (limitOf w) (inbound w)
        = DecFrame (mkFrame true Opcode.Ping false (size_of P) P) rest ->
        exists masked,
          trace (snd (readFrame w))
          = trace w
              ++ [EvRawSend ([0x8A; 0x80 + size_of P] ++ maskKey w ++ masked)]
              ++ fire (onPingCb (callbacks (impl w))) (EvPing P)
          /\ length masked = length P
          /\ forall i, (i < length P)%nat ->
               nth i masked 0
               = Z.lxor (nth i P 0) (nth (i mod 4) (maskKey w) 0)).
Proof.
  intros Hauto Hconn. split; [| split].
  - now apply ioLoop_pongBeforePing.
  - intros f rest Hdec Hop. now apply (readFrame_ping w f rest).
  - intros P rest HP Hsmall Hin Hdec.
    assert (H0 : 0 <= size_of P) by (unfold size_of; lia).
    destruct (readFrame_ping w _ rest Hdec eq_refl Hauto Hconn)
      as (_ & Htrace & _).
    cbn [payload] in Htrace.
    exists (applyMask (maskKey w) 0 P). split; [| split].
    + rewrite Htrace. unfold encodeFrame.
      rewrite lengthPrefix_spec by (change (2 ^ 64) with 18446744073709551616; lia).
      unfold specLengthPrefix.
      destruct (Z.ltb_spec (size_of P) 126); [reflexivity | lia].
    + apply applyMask_length.
    + intros i Hi. rewrite applyMask_nth by exact Hi. cbn [Nat.add].
      assert (Hb : is_byte (nth i P 0)).
      { rewrite Forall_forall in HP. apply HP. now apply nth_In. }
      rewrite u8_lxor, (u8_small (u8 _)) by apply u8_is_byte.
      rewrite (u8_small _ Hb).
      rewrite (u8_small (maskAt _ _))
        by (apply maskAt_is_byte, maskKey_is_byte).
      reflexivity.
Qed.

(** A Ping frame carrying "hi", then the end of the stream. *)
Lemma C9_pong_sent_before_ping_callback_witness :
  let w := Sample.world (Sample.config 1024 true 5) [0x89; 0x02; 104; 105] in
  let pong := encodeFrame Opcode.Pong [104; 105] (maskKey w) in
  (exists evs,
     trace (snd (ioLoop 2 w)) = [] ++ evs /\ pongBeforePing evs)
  /\ fst (readFrame w) = true
  /\ trace (snd (readFrame w)) = [EvRawSend pong; EvPing [104; 105]]
  /\ decodeFrame 1024 pong
     = DecFrame (mkFrame true Opcode.Pong true 2 [104; 105]) []
  /\ (exists masked,
        trace (snd (readFrame w))
        = [] ++ [EvRawSend ([0x8A; 0x80 + 2] ++ maskKey w ++ masked)]
             ++ fire true (EvPing [104; 105])
        /\ length masked = 2%nat
        /\ forall i, (i < 2)%nat ->
             nth i masked 0
             = Z.lxor (nth i [104; 105] 0) (nth (i mod 4) (maskKey w) 0)).
Proof.
  pose proof (C9_pong_sent_before_ping_callback
                (Sample.world (Sample.config 1024 true 5)
                              [0x89; 0x02; 104; 105]) 2 eq_refl eq_refl)
    as (Hloop & Hframe & Hwire).
  split; [exact Hloop|].
  destruct (Hframe (mkFrame true Opcode.Ping false 2 [104; 105]) []
                   eq_refl eq_refl) as (Hret & Htrace & Hdecode).
  split; [exact Hret|]. split; [exact Htrace|].
  specialize (Hdecode
    ltac:(repeat constructor; unfold is_byte; lia)
    ltac:(vm_compute; split; [discriminate | reflexivity]) []).
  rewrite app_nil_r in Hdecode. split; [exact Hdecode |].
  apply (Hwire [104; 105] []).
  - repeat constructor; unfold is_byte; lia.
  - reflexivity.
  - reflexivity.
  - reflexivity.
Defined.

End C9Claim.

(** ** The loop comes to an end *)

Section Termination.
Import Codec Session.

Lemma readHeader_shorter (s : list Z) (h : Header) (s1 : list Z) :
  readHeader s = Some (h, s1) -> (length s1 < length s)%nat.
Proof.
  unfold readHeader. intros H.
  pose proof (rawRecv_app 2 s) as Ha.
  destruct (rawRecv 2 s) as [hd t]. cbn [fst snd] in Ha.
  destruct (Z.eqb_spec (size_of hd) 2) as [Hhd | Hhd]; [|discriminate].
  cbn [negb] in H.
  assert (Hlen : (length t < length s)%nat).
  { rewrite <- Ha, length_app. unfold size_of in Hhd. lia. }
  destruct (Z.land (nth 1 hd 0) 127 =? 126).
  - pose proof (rawRecv_app 2 t) as Hb.
    destruct (rawRecv 2 t) as [ext t']. cbn [fst snd] in Hb.
    destruct (negb (size_of ext =? 2)); [discriminate|].
    injection H as _ <-. rewrite <- Hb, length_app in Hlen. lia.
  - destruct (Z.land (nth 1 hd 0) 127 =? 127).
    + pose proof (rawRecv_app 8 t) as Hb.
      destruct (rawRecv 8 t) as [ext t']. cbn [fst snd] in Hb.
      destruct (negb (size_of ext =? 8)); [discriminate|].
      injection H as _ <-. rewrite <- Hb, length_app in Hlen. lia.
    + injection H as _ <-. exact Hlen.
Qed.

(** A decoded frame takes at least its two header bytes from the stream. *)
Lemma decodeFrame_shorter (limit : Z) (s : list Z) (f : Frame) (rest : list Z) :
  decodeFrame limit s = DecFrame f rest -> (length rest < length s)%nat.
Proof.
  unfold decodeFrame. intros H.
  destruct (readHeader s) as [[h s1]|] eqn:Hh; [|discriminate].
  apply readHeader_shorter in Hh.
  destruct (h_payloadLen h >? limit); [discriminate|].
  assert (Hs2 : exists key s2,
    (if h_masked h then rawRecv 4 s1 else ([0; 0; 0; 0], s1)) = (key, s2)
    /\ (length s2 <= length s1)%nat).
  { destruct (h_masked h).
    - pose proof (rawRecv_app 4 s1) as Ha.
      destruct (rawRecv 4 s1) as [k t]. cbn [fst snd] in Ha.
      exists k, t. split; [reflexivity|]. rewrite <- Ha, length_app. lia.
    - exists [0; 0; 0; 0], s1. split; [reflexivity | lia]. }
  destruct Hs2 as (key & s2 & Hkey & Hlen2). rewrite Hkey in H.
  destruct (h_masked h && negb (size_of key =? 4)); [discriminate|].
  destruct (recvPayload (S (length s2)) (h_payloadLen h) s2 [])
    as [buf r| |] eqn:Hp; try discriminate.
  apply recvPayload_ok in Hp. destruct Hp as (chunk & _ & Hs2 & _).
  injection H as _ <-. rewrite Hs2, length_app in Hlen2. lia.
Qed.

Lemma dispatch_inbound (f : Frame) (w : World) :
  inbound (snd (dispatch f w)) = inbound w.
Proof.
  unfold dispatch.
  destruct (_ || _).
  { unfold bind, ret. rewrite handleMessage_trace. reflexivity. }
  destruct (_ =? Opcode.Close).
  { unfold bind, ret. rewrite handleClose_eq. reflexivity. }
  destruct (_ =? Opcode.Ping).
  { unfold handlePing, sendPongFrame, bind, get, when, ret.
    destruct (autoPong _); [destruct (connected (impl w))|];
      cbn [negb]; try rewrite sendFrame_eq; unfold emit, ret;
      cbn [impl env snd trace];
      destruct (onPingCb _); reflexivity. }
  destruct (_ =? Opcode.Pong).
  { unfold handlePong, bind, get, when, ret, emit.
    cbn [snd impl]. destruct (onPongCb _); reflexivity. }
  reflexivity.
Qed.

(** Every round that goes on has taken bytes from the socket: the loop
    over a finite stream ends, and [S (length (inbound w))] rounds are
    enough. *)
Lemma ioLoop_terminates (fuel : nat) :
  forall w, (length (inbound w) < fuel)%nat -> fst (ioLoop fuel w) = true.
Proof.
  induction fuel as [|fuel IH]; intros w Hfuel; [lia|].
  destruct (running (impl w)) eqn:Hrun.
  2:{ cbn [ioLoop]. unfold bind, get, ret. now rewrite Hrun. }
  rewrite (ioLoop_round fuel w Hrun). cbv zeta.
  destruct (drainSendQueue_frame w) as (_ & _ & Hs & _).
  set (w0 := snd (drainSendQueue w)) in *.
  pose proof (readFrame_cases w0) as Hcases.
  destruct (decodeFrame (limitOf w0) (inbound w0)) as [f rest | rest |] eqn:Hdec;
    rewrite Hcases; [|reflexivity|reflexivity].
  destruct (fst (dispatch f (withInbound rest w0))) eqn:Hok; [|reflexivity].
  apply IH. rewrite dispatch_inbound. cbn [withInbound setInbound snd inbound].
  apply decodeFrame_shorter in Hdec. rewrite Hs in Hdec. lia.
Qed.

End Termination.

(** * Further properties of the engine *)

(** ** The send functions *)

Section SendFunctions.
Import Codec Session.

(** [send], [sendBinary], [sendPingFrame] and [sendPongFrame] on a session
    that is not connected: false, and nothing is written, drawn or
    changed. *)
Theorem send_functions_disconnected (w : World) (data : list Z) :
  connected (impl w) = false ->
  send data w = (false, w)
  /\ sendBinary data w = (false, w)
  /\ sendPingFrame data w = (false, w)
  /\ sendPongFrame data w = (false, w).
Proof.
  intros H. unfold send, sendBinary, sendPingFrame, sendPongFrame, bind, get, ret.
  rewrite H. repeat split.
Qed.

Lemma send_functions_disconnected_witness :
  let w := snd (disconnect CloseCode.Normal
                  (Sample.world (Sample.config 1024 true 5) [])) in
  send [104; 105] w = (false, w)
  /\ sendBinary [104; 105] w = (false, w)
  /\ sendPingFrame [104; 105] w = (false, w)
  /\ sendPongFrame [104; 105] w = (false, w).
Proof.
  apply (send_functions_disconnected
           (snd (disconnect CloseCode.Normal
                   (Sample.world (Sample.config 1024 true 5) [])))
           [104; 105]).
  reflexivity.
Defined.

(** On a connected session each of the four writes one frame, and what a
    decoder with a limit of at least the size of the data reads from it is
    a final frame with the opcode of the function (Text, Binary, Ping,
    Pong) and the data. *)
Theorem send_functions_connected (w : World) (data tail : list Z) (limit : Z) :
  connected (impl w) = true ->
  Forall is_byte data ->
  size_of data <= limit -> limit < 2 ^ 64 ->
  let wrote (op : Z) (r : bool * World) :=
    fst r = writable (env w)
    /\ trace (snd r) = trace w ++ [EvRawSend (encodeFrame op data (maskKey w))]
    /\ decodeFrame limit (encodeFrame op data (maskKey w) ++ tail)
       = DecFrame (mkFrame true op true (size_of data) data) tail in
  wrote Opcode.Text (send data w)
  /\ wrote Opcode.Binary (sendBinary data w)
  /\ wrote Opcode.Ping (sendPingFrame data w)
  /\ wrote Opcode.Pong (sendPongFrame data w).
Proof.
  intros Hc Hdata Hsize Hlimit wrote.
  assert (Hone : forall op, 0 <= op < 16 -> wrote op (sendFrame op data w)).
  { intros op Hop. unfold wrote. rewrite sendFrame_eq. cbn [fst snd trace].
    split; [reflexivity|]. split; [reflexivity|].
    apply decodeFrame_encodeFrame; try assumption; try lia.
    - apply maskKey_is_byte.
    - apply maskKey_length. }
  unfold send, sendBinary, sendPingFrame, sendPongFrame, bind, get.
  rewrite Hc. cbn [negb].
  repeat split; apply Hone; cbv; split; congruence.
Qed.

Lemma send_functions_connected_witness :
  let w := Sample.world (Sample.config 1024 true 5) [] in
  let wrote (op : Z) (r : bool * World) :=
    fst r = true
    /\ trace (snd r) = [] ++ [EvRawSend (encodeFrame op [104; 105] (maskKey w))]
    /\ decodeFrame 1024 (encodeFrame op [104; 105] (maskKey w) ++ [])
       = DecFrame (mkFrame true op true 2 [104; 105]) [] in
  wrote Opcode.Text (send [104; 105] w)
  /\ wrote Opcode.Binary (sendBinary [104; 105] w)
  /\ wrote Opcode.Ping (sendPingFrame [104; 105] w)
  /\ wrote Opcode.Pong (sendPongFrame [104; 105] w).
Proof.
  apply (send_functions_connected
           (Sample.world (Sample.config 1024 true 5) []) [104; 105] [] 1024).
  - reflexivity.
  - repeat constructor; unfold is_byte; lia.
  - vm_compute. discriminate.
  - reflexivity.
Defined.

End SendFunctions.

(** ** Closing *)

Section Closing.
Import Codec Session.

Lemma be16_code (code : Z) :
  0 <= code < 65536 ->
  closeCode [u8 (Z.land (Z.shiftr code 8) 0xFF); u8 (Z.land code 0xFF)] = code.
Proof.
  intros Hc. unfold closeCode. cbn [size_of length Z.of_nat nth].
  change (Z.pos (Pos.of_succ_nat 1) >=? 2) with true. cbv iota.
  rewrite !land_255. unfold u8. rewrite !Z.mod_mod by lia.
  rewrite Z.shiftr_div_pow2 by lia. change (2 ^ 8) with 256.
  rewrite lor_shiftl_8.
  2:{ unfold is_byte. apply Z.mod_pos_bound. lia. }
  rewrite (Z.mod_small (code / 256) 256).
  2:{ split; [apply Z.div_pos; lia | apply Z.div_lt_upper_bound; lia]. }
  pose proof (Z.div_mod code 256). lia.
Qed.

(** The Close frame that [sendCloseFrame(code)] writes, read by the decoder
    of [readFrame] and by [handleClose]: opcode Close, and the status code
    that [handleClose] extracts is [code], for every code on 16 bits. *)
Theorem close_frame_roundtrip (w : World) (code limit : Z) (tail : list Z) :
  0 <= code < 65536 ->
  2 <= limit < 2 ^ 64 ->
  exists frame f,
    trace (snd (sendCloseFrame code w)) = trace w ++ [EvRawSend frame]
    /\ decodeFrame limit (frame ++ tail) = DecFrame f tail
    /\ fin f = true
    /\ opcode f = Opcode.Close
    /\ closeCode (payload f) = code.
Proof.
  intros Hcode Hlimit.
  unfold sendCloseFrame, bind at 1. rewrite sendFrame_eq. unfold ret.
  cbn [snd trace].
  eexists. eexists. split; [reflexivity|]. split.
  - apply decodeFrame_encodeFrame.
    + cbv. split; congruence.
    + repeat constructor; apply u8_is_byte.
    + apply maskKey_is_byte.
    + apply maskKey_length.
    + cbn. lia.
    + cbn. lia.
  - cbn [fin opcode payload]. repeat split. now apply be16_code.
Qed.

Lemma close_frame_roundtrip_witness :
  exists frame f,
    trace (snd (sendCloseFrame CloseCode.GoingAway
                  (Sample.world (Sample.config 1024 true 5) [])))
    = [] ++ [EvRawSend frame]
    /\ decodeFrame 1024 (frame ++ []) = DecFrame f []
    /\ fin f = true
    /\ opcode f = Opcode.Close
    /\ closeCode (payload f) = CloseCode.GoingAway.
Proof.
  apply (close_frame_roundtrip
           (Sample.world (Sample.config 1024 true 5) [])
           CloseCode.GoingAway 1024 []).
  - vm_compute. split; [discriminate | reflexivity].
  - vm_compute. split; [discriminate | reflexivity].
Defined.

(** A Close frame with fewer than two bytes of payload carries no status:
    [handleClose] takes 1005. *)
Lemma closeCode_short (payload : list Z) :
  (length payload < 2)%nat -> closeCode payload = CloseCode.NoStatusReceived.
Proof.
  intros H. unfold closeCode, size_of.
  destruct (Z.geb_spec (Z.of_nat (length payload)) 2); [lia | reflexivity].
Qed.

Lemma disconnect_connected_eq (w : World) (code : Z) :
  connected (impl w) = true ->
  disconnect code w
  = (tt,
     mkWorld (env w)
       (mkImpl (config (impl w)) (parsedUrl (impl w)) false false
               (reconnectAttempts (impl w)) (callbacks (impl w)) false)
       (inbound w) (sendQueue w) (S (S (S (S (draws w))))) (dials w)
       (trace w
          ++ [EvHeartbeatStop;
              EvRawSend (encodeFrame Opcode.Close
                           [u8 (Z.land (Z.shiftr code 8) 0xFF);
                            u8 (Z.land code 0xFF)]
                           (maskKey w));
              EvJoinIoThread; EvCleanup]
          ++ fire (onDisconnectCb (callbacks (impl w))) (EvDisconnect code))).
Proof.
  intros Hc. unfold disconnect, bind at 1, get at 1. rewrite Hc.
  unfold bind at 1, setConnected at 1, modifyImpl at 1.
  unfold bind at 1, setRunning at 1, modifyImpl at 1.
  unfold bind at 1, emit at 1.
  cbn [env impl inbound sendQueue draws dials trace
       config parsedUrl connected running reconnectAttempts callbacks].
  unfold bind at 1, when at 1, sendCloseFrame, bind at 1.
  rewrite sendFrame_eq. unfold ret at 1.
  cbn [env impl inbound sendQueue draws dials trace].
  unfold bind at 1, emit at 1.
  cbn [env impl inbound sendQueue draws dials trace].
  unfold bind at 1, setIoThread at 1, modifyImpl at 1.
  cbn [env impl inbound sendQueue draws dials trace
       config parsedUrl connected running reconnectAttempts callbacks].
  unfold bind at 1, cleanup, emit at 1.
  cbn [env impl inbound sendQueue draws dials trace].
  unfold when, triggerDisconnect, bind, get, when, ret, emit, fire.
  cbn [env impl inbound sendQueue draws dials trace callbacks].
  destruct (onDisconnectCb _);
    cbn [snd env impl inbound sendQueue draws dials trace
         config parsedUrl connected running reconnectAttempts callbacks];
    rewrite <- ?app_assoc, ?app_nil_r; reflexivity.
Qed.

(** [disconnect(code)] on a connected session: the heartbeat is stopped, a
    Close frame carrying [code] is written, the I/O thread is joined, the
    transport released and then [onDisconnect(code)] invoked; the session
    is closed and no reconnection is attempted. *)
Theorem disconnect_connected (w : World) (code : Z) :
  connected (impl w) = true ->
  let w' := snd (disconnect code w) in
  trace w'
  = trace w
      ++ [EvHeartbeatStop;
          EvRawSend (encodeFrame Opcode.Close
                       [u8 (Z.land (Z.shiftr code 8) 0xFF); u8 (Z.land code 0xFF)]
                       (maskKey w));
          EvJoinIoThread; EvCleanup]
      ++ fire (onDisconnectCb (callbacks (impl w))) (EvDisconnect code)
  /\ connected (impl w') = false
  /\ running (impl w') = false
  /\ dials w' = dials w
  /\ reconnectAttempts (impl w') = reconnectAttempts (impl w).
Proof.
  intros Hc. cbv zeta. rewrite (disconnect_connected_eq w code Hc).
  repeat split.
Qed.

Lemma disconnect_connected_witness :
  let w := Sample.world (Sample.config 1024 true 5) [] in
  let w' := snd (disconnect CloseCode.Normal w) in
  trace w'
  = [] ++ [EvHeartbeatStop;
           EvRawSend (encodeFrame Opcode.Close
                        [u8 (Z.land (Z.shiftr CloseCode.Normal 8) 0xFF);
                         u8 (Z.land CloseCode.Normal 0xFF)]
                        (maskKey w));
           EvJoinIoThread; EvCleanup]
        ++ fire true (EvDisconnect CloseCode.Normal)
  /\ connected (impl w') = false
  /\ running (impl w') = false
  /\ dials w' = 0%nat
  /\ reconnectAttempts (impl w') = 0.
Proof.
  apply (disconnect_connected (Sample.world (Sample.config 1024 true 5) [])
                              CloseCode.Normal).
  reflexivity.
Defined.

Lemma disconnect_closes (w : World) (code : Z) :
  connected (impl (snd (disconnect code w))) = false.
Proof.
  destruct (connected (impl w)) eqn:Hc.
  - now rewrite (disconnect_connected_eq w code Hc).
  - unfold disconnect, bind, get. rewrite Hc. reflexivity.
Qed.

(** [disconnect] is idempotent: whatever the session, a second call writes
    no Close frame and does not invoke [onDisconnect] again. *)
Theorem disconnect_twice (w : World) (code code' : Z) :
  let w1 := snd (disconnect code w) in
  trace (snd (disconnect code' w1))
  = trace w1 ++ [EvHeartbeatStop; EvJoinIoThread; EvCleanup].
Proof.
  cbv zeta. apply disconnect_not_connected. apply disconnect_closes.
Qed.

End Closing.

(** ** The asynchronous send queue in the loop *)

Section AsyncQueue.
Import Codec Session.

Lemma sendAll_connected (msgs : list (list Z)) :
  forall w,
  connected (impl w) = true ->
  exists frames w',
    sendAll msgs w = (tt, w')
    /\ trace w' = trace w ++ map EvRawSend frames
    /\ Forall2 (fun msg frame =>
                  exists key, length key = 4%nat /\ Forall is_byte key
                              /\ frame = encodeFrame Opcode.Text msg key)
               msgs frames
    /\ impl w' = impl w /\ inbound w' = inbound w
    /\ sendQueue w' = sendQueue w.
Proof.
  induction msgs as [|msg tl IH]; intros w Hc.
  - exists [], w. cbn. rewrite app_nil_r. repeat split. constructor.
  - cbn [sendAll]. unfold bind at 1, send, bind at 1, get at 1.
    rewrite Hc. cbn [negb]. rewrite sendFrame_eq.
    match goal with |- context [sendAll tl ?x] =>
      destruct (IH x Hc) as (frames & w' & Heq & Ht & Hall & Hi & Hs & Hq)
    end.
    cbn [env impl inbound sendQueue draws dials trace] in *.
    exists (encodeFrame Opcode.Text msg (maskKey w) :: frames), w'.
    rewrite Heq. split; [reflexivity|]. split.
    { rewrite Ht. cbn [map]. now rewrite <- app_assoc. }
    split.
    { constructor; [|exact Hall]. exists (maskKey w).
      split; [apply maskKey_length|]. split; [apply maskKey_is_byte | reflexivity]. }
    repeat split; assumption.
Qed.

(** One round of draining on a connected session: every queued message is
    written as one Text frame, in the order of the queue, and the queue is
    left empty. *)
Theorem drainSendQueue_in_order (w : World) :
  connected (impl w) = true ->
  exists frames,
    trace (snd (drainSendQueue w)) = trace w ++ map EvRawSend frames
    /\ Forall2 (fun msg frame =>
                  exists key, length key = 4%nat /\ Forall is_byte key
                              /\ frame = encodeFrame Opcode.Text msg key)
               (sendQueue w) frames
    /\ sendQueue (snd (drainSendQueue w)) = [].
Proof.
  intros Hc. unfold drainSendQueue, bind, get, setSendQueue.
  match goal with |- context [sendAll _ ?x] =>
    destruct (sendAll_connected (sendQueue w) x Hc)
      as (frames & w' & Heq & Ht & Hall & _ & _ & Hq)
  end.
  rewrite Heq. cbn [snd]. exists frames.
  cbn [trace sendQueue] in Ht, Hq. repeat split; assumption.
Qed.

Lemma drainSendQueue_in_order_witness :
  let w := mkWorld Sample.env (Sample.open (Sample.config 1024 true 5))
                   [] [[109; 48]; [109; 49]] 0 0 [] in
  exists frames,
    trace (snd (drainSendQueue w)) = [] ++ map EvRawSend frames
    /\ Forall2 (fun msg frame =>
                  exists key, length key = 4%nat /\ Forall is_byte key
                              /\ frame = encodeFrame Opcode.Text msg key)
               [[109; 48]; [109; 49]] frames
    /\ sendQueue (snd (drainSendQueue w)) = [].
Proof.
  apply (drainSendQueue_in_order
           (mkWorld Sample.env (Sample.open (Sample.config 1024 true 5))
                    [] [[109; 48]; [109; 49]] 0 0 [])).
  reflexivity.
Defined.

Lemma sendAll_disconnected (msgs : list (list Z)) :
  forall w, connected (impl w) = false -> sendAll msgs w = (tt, w).
Proof.
  induction msgs as [|msg tl IH]; intros w Hc; [reflexivity|].
  cbn [sendAll]. unfold bind at 1, send, bind, get, ret. rewrite Hc.
  cbn [negb]. now apply IH.
Qed.

(** Draining on a session that is not connected: the messages are taken
    from the queue and lost; nothing is written and no error is
    reported. *)
Theorem drainSendQueue_disconnected (w : World) :
  connected (impl w) = false ->
  drainSendQueue w
  = (tt, mkWorld (env w) (impl w) (inbound w) [] (draws w) (dials w) (trace w)).
Proof.
  intros Hc. unfold drainSendQueue, bind, get, setSendQueue.
  now rewrite sendAll_disconnected.
Qed.

Lemma drainSendQueue_disconnected_witness :
  let i := mkImpl (Sample.config 1024 true 5) Sample.echoUrl false true 0
                  Sample.allCallbacks true in
  drainSendQueue (mkWorld Sample.env i [] [[109; 48]; [109; 49]] 0 0 [])
  = (tt, mkWorld Sample.env i [] [] 0 0 []).
Proof.
  apply (drainSendQueue_disconnected
           (mkWorld Sample.env
              (mkImpl (Sample.config 1024 true 5) Sample.echoUrl false true 0
                      Sample.allCallbacks true)
              [] [[109; 48]; [109; 49]] 0 0 [])).
  reflexivity.
Defined.

End AsyncQueue.

(** ** The end of the stream *)

Section EndOfStream.
Import Codec Session.

(** Fewer than two bytes left: no header can be read. *)
Lemma decodeFrame_no_header (limit : Z) (s : list Z) :
  (length s < 2)%nat -> decodeFrame limit s = DecRecvFailed.
Proof.
  intros H. unfold decodeFrame, readHeader.
  rewrite rawRecv_short by (unfold size_of; lia).
  destruct (Z.eqb_spec (size_of s) 2) as [E | E];
    [unfold size_of in E; lia | reflexivity].
Qed.




(** [handleDisconnect] when the new connection goes through, on the I/O
    thread: the flags are set, then the assignment to [ioThread] ends the
    process. *)
Lemma handleDisconnect_terminates (w : World) :
  ioThread (impl w) = true ->
  autoReconnect (config (impl w)) = true ->
  reconnectAttempts (impl w) < maxReconnectAttempts (config (impl w)) ->
  Url.valid (parsedUrl (impl w)) = true ->
  attemptSucceeds (Url.secure (parsedUrl (impl w))) (network (env w) (dials w))
  = true ->
  handleDisconnect w
  = (tt,
     mkWorld (env w)
             (mkImpl (config (impl w)) (parsedUrl (impl w)) true true 0
                     (callbacks (impl w)) true)
             (inbound w) (sendQueue w) (draws w) (S (dials w))
             (trace w
                ++ [EvSleep (1 * (reconnectAttempts (impl w) + 1)); EvCleanup;
                    EvTerminate])).
Proof.
  intros Hio Hauto Hless Hvalid Hok.
  unfold handleDisconnect, bind at 1.
  unfold setConnected at 1, modifyImpl at 1.
  unfold bind at 1, get at 1.
  cbn [env impl inbound sendQueue draws dials trace
       config parsedUrl connected running reconnectAttempts callbacks].
  rewrite Hauto. replace (_ <? _) with true by (symmetry; now apply Z.ltb_lt).
  cbn [andb].
  unfold bind at 1. unfold bind at 1.
  unfold setReconnectAttempts at 1, modifyImpl at 1.
  cbn [env impl inbound sendQueue draws dials trace
       config parsedUrl connected running reconnectAttempts callbacks].
  unfold bind at 1, emit at 1.
  cbn [env impl inbound sendQueue draws dials trace].
  unfold bind at 1, cleanup at 1, emit at 1.
  cbn [env impl inbound sendQueue draws dials trace].
  rewrite connect_succeeds by (cbn; assumption).
  cbn [env impl inbound sendQueue draws dials trace
       config parsedUrl connected running reconnectAttempts callbacks
       ioThread].
  rewrite Hio. unfold ret. do 2 f_equal. now rewrite <- !app_assoc.
Qed.

(** Auto-reconnect cannot succeed.  The I/O loop calls [handleDisconnect]
    on the I/O thread, so [ioThread] is joinable there.  After a loss of
    the connection, with auto-reconnect on and an attempt left, when the new
    connection goes through, [connect()] assigns the new thread to
    [ioThread] and [std::terminate()] is called: the process ends after the
    sleep and the clean-up.  [onConnect] is not invoked, nor
    [onDisconnect], nor [onError], and the heartbeat is not started
    again. *)
Theorem reconnect_that_succeeds_terminates (w : World) (fuel : nat) :
  running (impl w) = true ->
  connected (impl w) = true ->
  ioThread (impl w) = true ->
  decodeFrame (limitOf w) (inbound w) = DecRecvFailed ->
  autoReconnect (config (impl w)) = true ->
  reconnectAttempts (impl w) < maxReconnectAttempts (config (impl w)) ->
  Url.valid (parsedUrl (impl w)) = true ->
  attemptSucceeds (Url.secure (parsedUrl (impl w))) (network (env w) (dials w))
  = true ->
  let w' := snd (ioLoop (S fuel) w) in
  dials w' = S (dials w)
  /\ exists sent,
       Forall (fun e => exists b, e = EvRawSend b) sent
       /\ trace w'
          = trace w ++ sent
              ++ [EvSleep (1 * (reconnectAttempts (impl w) + 1)); EvCleanup;
                  EvTerminate].
Proof.
  intros Hrun Hconn Hio Hdec Hauto Hless Hvalid Hok w'. unfold w'.
  destruct (drainSendQueue_frame w) as (He & Hi & Hs & Hd & Hq & sent & Ht & Hsent).
  set (w0 := snd (drainSendQueue w)) in *.
  rewrite (ioLoop_round fuel w Hrun). cbv zeta. fold w0.
  pose proof (readFrame_cases w0) as Hcases.
  unfold limitOf in Hcases, Hdec. rewrite Hi, Hs, Hdec in Hcases.
  rewrite Hcases. cbn [fst snd withInbound setInbound impl].
  rewrite Hi, Hconn.
  rewrite handleDisconnect_terminates;
    cbn [env impl inbound sendQueue draws dials trace];
    rewrite ?Hi, ?He, ?Hd; try assumption.
  cbn [snd env impl inbound sendQueue draws dials trace].
  split; [reflexivity |].
  exists sent. split; [exact Hsent |]. rewrite Ht. now rewrite <- app_assoc.
Qed.

(** The peer drops the connection and accepts the new one. *)
Lemma reconnect_that_succeeds_terminates_witness :
  let w := mkWorld Sample.friendlyEnv (Sample.open (Sample.config 1024 true 5))
                   [] [] 0 0 [] in
  let w' := snd (ioLoop 1 w) in
  dials w' = 1%nat
  /\ exists sent,
       Forall (fun e => exists b, e = EvRawSend b) sent
       /\ trace w'
          = [] ++ sent ++ [EvSleep (1 * (0 + 1)); EvCleanup; EvTerminate].
Proof.
  apply (reconnect_that_succeeds_terminates
           (mkWorld Sample.friendlyEnv
                    (Sample.open (Sample.config 1024 true 5)) [] [] 0 0 [])
           0);
    reflexivity.
Defined.

End EndOfStream.

(** ** Connecting *)

Section Connecting.
Import Codec Session.



(** An open session cannot be connected a second time, and a closed one
    can: [connect()] on a new session with a valid URL and a peer that
    accepts, then [connect()] again, ends in [std::terminate()]; with
    [disconnect()] in between, the second call returns true. *)
Theorem connect_twice (w : World) (code : Z) :
  ioThread (impl w) = false ->
  Url.valid (parsedUrl (impl w)) = true ->
  (forall n, attemptSucceeds (Url.secure (parsedUrl (impl w)))
                             (network (env w) n) = true) ->
  let w1 := snd (connect w) in
  fst (connect w) = Some true
  /\ fst (connect w1) = None
  /\ trace (snd (connect w1)) = trace w1 ++ [EvTerminate]
  /\ fst (connect (snd (disconnect code w1))) = Some true.
Proof.
  intros Hio Hvalid Hok. cbv zeta.
  rewrite (connect_succeeds w Hvalid (Hok _)), Hio. cbn [fst snd].
  split; [reflexivity |].
  match goal with |- context [trace ?x ++ [EvTerminate]] => set (w1 := x) end.
  assert (H1 : connect w1
               = (None,
                  mkWorld (env w1)
                    (mkImpl (config (impl w1)) (parsedUrl (impl w1)) true true 0
                            (callbacks (impl w1)) true)
                    (inbound w1) (sendQueue w1) (draws w1) (S (dials w1))
                    (trace w1 ++ [EvTerminate]))).
  { rewrite connect_succeeds; [reflexivity | exact Hvalid | apply Hok]. }
  rewrite H1. cbn [fst snd trace]. split; [reflexivity |].
  split; [reflexivity |].
  rewrite (disconnect_connected_eq w1 code eq_refl). cbn [snd].
  rewrite connect_succeeds; [reflexivity | exact Hvalid | apply Hok].
Qed.

Lemma connect_twice_witness :
  let w := mkWorld Sample.friendlyEnv
             (mkImpl (Sample.config 1024 true 5) Sample.echoUrl false false 0
                     Sample.allCallbacks false) [] [] 0 0 [] in
  let w1 := snd (connect w) in
  fst (connect w) = Some true
  /\ fst (connect w1) = None
  /\ trace (snd (connect w1)) = trace w1 ++ [EvTerminate]
  /\ fst (connect (snd (disconnect CloseCode.Normal w1))) = Some true.
Proof.
  apply (connect_twice
           (mkWorld Sample.friendlyEnv
              (mkImpl (Sample.config 1024 true 5) Sample.echoUrl false false 0
                      Sample.allCallbacks false) [] [] 0 0 [])
           CloseCode.Normal).
  - reflexivity.
  - reflexivity.
  - intros n. reflexivity.
Defined.

(** For a [ws://] URL the TLS step is skipped: what [initTls] would do has
    no effect on [connect()]. *)
Theorem connect_plain_skips_tls (w : World) (tls : bool) :
  Url.secure (parsedUrl (impl w)) = false ->
  let net := network (env w) (dials w) in
  let other :=
    mkNetAttempt (initSocket_ok net) (connectSocket_ok net) tls
                 (performHandshake_ok net) in
  let w2 :=
    mkWorld (mkEnv (jsonParses (env w)) (entropy (env w))
                   (fun _ => other) (writable (env w)))
            (impl w) (inbound w) (sendQueue w) (draws w) (dials w) (trace w) in
  fst (connect w2) = fst (connect w)
  /\ trace (snd (connect w2)) = trace (snd (connect w))
  /\ impl (snd (connect w2)) = impl (snd (connect w)).
Proof.
  intros Hsec. cbv zeta.
  destruct w as [[jp en nw wr] [cfg [sec host port path] c r a
                 [c1 c2 c3 c4 c5 c6 c7] io] s q d n t].
  cbn in Hsec. subst sec.
  unfold connect, triggerError, triggerConnect, cleanup, setConnected,
    setRunning, setReconnectAttempts, setIoThread, modifyImpl, dial, when,
    bind, get, ret, emit.
  cbn -[Url.valid].
  destruct (Url.valid _); cbn.
  2:{ destruct c3; repeat split. }
  destruct (nw n) as [x1 x2 x3 x4].
  destruct x1, x2, x4, c3, c4, io; cbn; repeat split.
Qed.

Lemma connect_plain_skips_tls_witness :
  let w := mkWorld Sample.friendlyEnv
             (mkImpl (Sample.config 1024 true 5) Sample.echoUrl false false 0
                     Sample.allCallbacks false) [] [] 0 0 [] in
  let w2 :=
    mkWorld (mkEnv (fun _ => false) (fun n => Z.of_nat n + 1)
                   (fun _ => mkNetAttempt true true false true) true)
            (impl w) [] [] 0 0 [] in
  fst (connect w2) = Some true
  /\ trace (snd (connect w2)) = [EvIoThread; EvHeartbeatStart; EvConnect]
  /\ connected (impl (snd (connect w2))) = true.
Proof.
  destruct (connect_plain_skips_tls
              (mkWorld Sample.friendlyEnv
                 (mkImpl (Sample.config 1024 true 5) Sample.echoUrl false false 0
                         Sample.allCallbacks false) [] [] 0 0 [])
              false eq_refl) as (H1 & H2 & H3).
  split; [exact H1|]. split; [exact H2|].
  exact (f_equal connected H3).
Defined.

End Connecting.

(** ** Frames from the peer *)

Section PeerFrames.
Import Codec Session.





End PeerFrames.

(** ** The heartbeat worker *)

Section Worker.
Import Codec Session HeartbeatWorker.

(** A pong overdue at a wake-up: the worker reports [PingTimeout] through
    [onError] and clears the flag; it sends no ping in that cycle, and the
    session is as it was, connected and running: the timeout closes
    nothing. *)
Theorem timerCycle_overdue (checked sent : Z) (t : Timer) (w : World) :
  waitingPong_ t = true ->
  timeoutNs t < checked - lastPingSent_ t ->
  timerCycle checked sent t w
  = (mkTimer (config_ t) false (lastPingSent_ t) (lastPongReceived_ t),
     withTrace (trace w ++ fire (onErrorCb (callbacks (impl w)))
                                (EvError ErrorCode.PingTimeout)) w).
Proof.
  intros Hw Hlate. unfold timerCycle. rewrite Hw.
  replace (_ >? _) with true by (symmetry; apply Z.gtb_lt; lia).
  cbn [andb].
  unfold triggerError, when, bind, get, ret, emit, fire, withTrace.
  destruct w as [e i s q d n tr]. cbn [impl trace env inbound sendQueue draws dials].
  destruct (onErrorCb _); cbn; rewrite ?app_nil_r; reflexivity.
Qed.

(** A ping sent at 1 s, a deadline of 10 s, a wake-up at 31 s. *)
Lemma timerCycle_overdue_witness :
  let w := Sample.world (Sample.config 1024 true 5) [] in
  timerCycle 31000000000 31000000001
             (mkTimer Sample.pingConfig true 1000000000 0) w
  = (mkTimer Sample.pingConfig false 1000000000 0,
     withTrace ([] ++ fire true (EvError ErrorCode.PingTimeout)) w).
Proof.
  apply (timerCycle_overdue 31000000000 31000000001
           (mkTimer Sample.pingConfig true 1000000000 0)
           (Sample.world (Sample.config 1024 true 5) [])).
  - reflexivity.
  - reflexivity.
Defined.

(** A wake-up with no pong overdue, on a connected session whose socket
    takes the write: one ping goes out ([OpcodeMode]: a Ping frame with an
    empty payload; [TextMessage]: a Text frame with the configured text),
    the flag is set and the time of the ping recorded. *)
Lemma timerCycle_ping (checked sent : Z) (t : Timer) (w : World) :
  waitingPong_ t && (checked - lastPingSent_ t >? timeoutNs t) = false ->
  mode (config_ t) <> Disabled ->
  connected (impl w) = true ->
  writable (env w) = true ->
  timerCycle checked sent t w
  = (mkTimer (config_ t) true sent (lastPongReceived_ t),
     mkWorld (env w) (impl w) (inbound w) (sendQueue w)
             (S (S (S (S (draws w))))) (dials w)
             (trace w
                ++ [EvRawSend
                      (match mode (config_ t) with
                       | TextMessage =>
                           encodeFrame Opcode.Text (textMessage (config_ t))
                                       (maskKey w)
                       | _ => encodeFrame Opcode.Ping [] (maskKey w)
                       end)])).
Proof.
  intros Hcheck Hmode Hc Hwr. unfold timerCycle. rewrite Hcheck.
  destruct (mode (config_ t)); [congruence| |].
  - unfold bind at 1, sendPingFrame, bind at 1, get at 1. rewrite Hc.
    cbn [negb]. rewrite sendFrame_eq, Hwr. reflexivity.
  - unfold bind at 1, send, bind at 1, get at 1. rewrite Hc.
    cbn [negb]. rewrite sendFrame_eq, Hwr. reflexivity.
Qed.

(** The deadline is measured from the last ping sent, and every cycle that
    is not overdue sends a new ping.  So when the worker wakes up at most
    [timeout] after each ping it sent (an interval not longer than the
    timeout), on a connected session whose socket takes the writes, it
    never reports [PingTimeout], even if no pong is ever received. *)
Theorem timerLoop_never_times_out (ticks : list Tick) :
  forall (t : Timer) (w : World),
  mode (config_ t) <> Disabled ->
  connected (impl w) = true ->
  writable (env w) = true ->
  frequent (timeoutNs t) (lastPingSent_ t) ticks ->
  grows (fun e => e <> EvError ErrorCode.PingTimeout)
        (trace w) (trace (snd (timerLoop ticks t w))).
Proof.
  induction ticks as [|k rest IH]; intros t w Hmode Hc Hwr Hfreq.
  - cbn. apply grows_refl.
  - cbn [frequent] in Hfreq. destruct Hfreq as [Hk Hrest].
    cbn [timerLoop]. unfold bind at 1, tick.
    set (t0 := match pongAt k with
               | Some now => onPongReceived now t
               | None => t
               end).
    assert (Ht0 : config_ t0 = config_ t /\ lastPingSent_ t0 = lastPingSent_ t)
      by (unfold t0; destruct (pongAt k); split; reflexivity).
    destruct Ht0 as [Hcfg Hlast].
    rewrite (timerCycle_ping (checkedAt k) (sentAt k) t0 w);
      [ | | rewrite Hcfg; exact Hmode | exact Hc | exact Hwr].
    2:{ apply andb_false_iff. right. unfold timeoutNs.
        rewrite Hcfg, Hlast. unfold timeoutNs in Hk.
        destruct (Z.gtb_spec (checkedAt k - lastPingSent_ t)
                             (timeout (config_ t) * 1000000)); [lia | reflexivity]. }
    eapply grows_trans.
    2:{ apply IH.
        - cbn [config_]. rewrite Hcfg. exact Hmode.
        - exact Hc.
        - exact Hwr.
        - unfold timeoutNs in *. cbn [config_ lastPingSent_].
          rewrite Hcfg. exact Hrest. }
    cbn [trace]. apply grows_snoc; [apply grows_refl | discriminate].
Qed.

(** A ping every second with a deadline of five seconds, and a peer that
    never answers. *)
Lemma timerLoop_never_times_out_witness :
  let cfg := mkPingConfig OpcodeMode 1000 5000 [112; 105; 110; 103] true in
  grows (fun e => e <> EvError ErrorCode.PingTimeout)
        []
        (trace (snd (timerLoop
                       [mkTick None 1000000000 1000000500;
                        mkTick None 2000000500 2000000900;
                        mkTick None 3000000900 3000001000]
                       (started cfg 0 0)
                       (Sample.world (Sample.config 1024 true 5) [])))).
Proof.
  apply (timerLoop_never_times_out
           [mkTick None 1000000000 1000000500;
            mkTick None 2000000500 2000000900;
            mkTick None 3000000900 3000001000]
           (started (mkPingConfig OpcodeMode 1000 5000 [112; 105; 110; 103] true)
                    0 0)
           (Sample.world (Sample.config 1024 true 5) [])).
  - discriminate.
  - reflexivity.
  - reflexivity.
  - vm_compute. repeat split; discriminate.
Defined.

End Worker.

(** ** The life cycle of the heartbeat *)

Section HeartbeatLifeCycle.
Import Session Heartbeat.

(** [start()] then [stop()] on a manager at rest whose mode is not
    [Disabled]: both calls return, the worker has been started and joined,
    the mutex is free; and a second [stop()] changes nothing. *)
Theorem heartbeat_start_stop (s : Manager) :
  mutex_held s = false -> running_ s = false ->
  is_disabled (mode (config_ s)) = false ->
  let rest := mkManager (config_ s) false false false false in
  hbind start (fun _ => stop) s = Returns tt rest
  /\ stop rest = Returns tt rest.
Proof.
  intros Hm Hr Hd. cbv zeta. split.
  - unfold hbind at 1. rewrite (start_runs_worker s Hm Hr Hd).
    rewrite stop_returns by reflexivity. reflexivity.
  - reflexivity.
Qed.

Lemma heartbeat_start_stop_witness :
  let s := mkManager Sample.pingConfig false false false false in
  hbind start (fun _ => stop) s = Returns tt s /\ stop s = Returns tt s.
Proof.
  apply (heartbeat_start_stop
           (mkManager Sample.pingConfig false false false false));
    reflexivity.
Defined.

(** [start()] on a manager whose worker is running, or whose mode is
    [Disabled]: the call returns and nothing has changed; no second worker
    is started, and a disabled heartbeat has no worker at all. *)
Theorem heartbeat_start_refused (s : Manager) :
  mutex_held s = false ->
  running_ s = true \/ is_disabled (mode (config_ s)) = true ->
  start s = Returns tt s.
Proof.
  intros Hm H. destruct s as [cfg r wp mh th].
  cbn [mutex_held running_ config_] in Hm, H. subst mh.
  unfold start, hbind, lock, hget.
  destruct r; [reflexivity|].
  destruct H as [H | H]; [discriminate|].
  destruct cfg as [m i t txt ap]. cbn in H.
  destruct m; try discriminate. reflexivity.
Qed.

Lemma heartbeat_start_refused_witness :
  let s := mkManager (mkPingConfig Disabled 30000 10000 [] true)
                     false false false false in
  start s = Returns tt s.
Proof.
  apply (heartbeat_start_refused
           (mkManager (mkPingConfig Disabled 30000 10000 [] true)
                      false false false false)).
  - reflexivity.
  - right. reflexivity.
Defined.

(** [setMode(mode)] with a mode other than [Disabled] returns; it changes
    the mode and nothing else: it neither starts a worker on a manager that
    has none nor stops one that runs. *)
Theorem setMode_enabled (m : PingMode) (s : Manager) :
  mutex_held s = false -> is_disabled m = false ->
  setMode m s
  = Returns tt
      (mkManager (mkPingConfig m (interval (config_ s)) (timeout (config_ s))
                               (textMessage (config_ s)) (autoPong (config_ s)))
                 (running_ s) (waitingPong_ s) false (timerThread_ s)).
Proof.
  intros Hm Hd. unfold setMode, hbind, lock. rewrite Hm.
  cbn [setConfigMode]. rewrite Hd. reflexivity.
Qed.

(** A manager constructed with mode [Disabled], never started, then
    [setMode(TextMessage)]: still no worker. *)
Lemma setMode_enabled_witness :
  setMode TextMessage
          (mkManager (mkPingConfig Disabled 30000 10000 [] true)
                     false false false false)
  = Returns tt
      (mkManager (mkPingConfig TextMessage 30000 10000 [] true)
                 false false false false).
Proof.
  apply (setMode_enabled TextMessage
           (mkManager (mkPingConfig Disabled 30000 10000 [] true)
                      false false false false));
    reflexivity.
Defined.

(** Pings cannot be switched on later.  A heartbeat whose mode is
    [Disabled] when the session connects gets no worker from [start()],
    and [setMode] with another mode afterwards only records the mode:
    there is still no worker, and no ping is sent before [start()] is
    called again, at the next [connect()]. *)
Theorem pings_enabled_later_have_no_worker (m : PingMode) (s : Manager) :
  mutex_held s = false -> running_ s = false -> timerThread_ s = false ->
  is_disabled (mode (config_ s)) = true -> is_disabled m = false ->
  exists s',
    hbind start (fun _ => setMode m) s = Returns tt s'
    /\ mode (config_ s') = m
    /\ running_ s' = false
    /\ timerThread_ s' = false
    /\ mutex_held s' = false.
Proof.
  intros Hm Hr Ht Hd Hen. eexists. split.
  - unfold hbind at 1. rewrite (heartbeat_start_refused s Hm (or_intror Hd)).
    apply (setMode_enabled m s Hm Hen).
  - cbn [config_ mode running_ timerThread_ mutex_held]. auto.
Qed.

Lemma pings_enabled_later_have_no_worker_witness :
  exists s',
    hbind start (fun _ => setMode OpcodeMode)
          (mkManager (mkPingConfig Disabled 30000 10000 [] true)
                     false false false false)
    = Returns tt s'
    /\ mode (config_ s') = OpcodeMode
    /\ running_ s' = false
    /\ timerThread_ s' = false
    /\ mutex_held s' = false.
Proof.
  apply (pings_enabled_later_have_no_worker OpcodeMode
           (mkManager (mkPingConfig Disabled 30000 10000 [] true)
                      false false false false));
    reflexivity.
Defined.

End HeartbeatLifeCycle.

(** ** Base64 *)

Section Base64Facts.
Import Base64.

Lemma list_ind3 (A : Type) (P : list A -> Prop) :
  P [] -> (forall a, P [a]) -> (forall a b, P [a; b]) ->
  (forall a b c rest, P rest -> P (a :: b :: c :: rest)) ->
  forall l, P l.
Proof.
  intros H0 H1 H2 H3. fix IH 1.
  intros [|a [|b [|c rest]]]; [exact H0 | apply H1 | apply H2 | apply H3, IH].
Qed.

Lemma land_63 (x : Z) : Z.land x 0x3F = x mod 64.
Proof. change 0x3F with (Z.ones 6). rewrite Z.land_ones by lia. reflexivity. Qed.

Lemma tableAt_in (x : Z) : In (tableAt (Z.land x 0x3F)) table.
Proof.
  rewrite land_63. unfold tableAt. apply nth_In.
  pose proof (Z.mod_pos_bound x 64 ltac:(lia)).
  change (length table) with 64%nat. lia.
Qed.

Lemma pad_not_in_table : ~ In "="%char table.
Proof.
  intros H. repeat (destruct H as [H | H]; [discriminate|]). exact H.
Qed.

(** The encoding has the length that [base64Encode] reserves,
    [((len + 2) / 3) * 4], and is made of characters of the table followed
    by the padding: no ['='] for a length that is a multiple of three, two
    for a remainder of one, one for a remainder of two. *)
Theorem base64Encode_shape (data : list Z) :
  length (base64Encode data) = (((length data + 2) / 3) * 4)%nat
  /\ exists body,
       base64Encode data
       = body ++ repeat "="%char ((3 - length data mod 3) mod 3)
       /\ Forall (fun c => In c table) body.
Proof.
  induction data as [| a | a b | a b c rest [IHlen IH]] using list_ind3.
  - split; [reflexivity |]. exists []. split; [reflexivity | constructor].
  - split; [reflexivity |]. eexists [_; _]. split; [reflexivity |].
    repeat (apply Forall_cons; [apply tableAt_in |]). apply Forall_nil.
  - split; [reflexivity |]. eexists [_; _; _]. split; [reflexivity |].
    repeat (apply Forall_cons; [apply tableAt_in |]). apply Forall_nil.
  - split.
    + cbn [base64Encode]. rewrite length_app, IHlen. cbn [group length].
      replace (S (S (S (length rest))) + 2)%nat
        with ((length rest + 2) + 1 * 3)%nat by lia.
      rewrite Nat.div_add by lia. lia.
    + destruct IH as (body & Heq & Hall).
      exists (group a (Some b) (Some c) ++ body). split.
      * cbn [base64Encode]. rewrite Heq, <- app_assoc. do 2 f_equal.
        replace (length (a :: b :: c :: rest)) with (length rest + 1 * 3)%nat
          by (cbn; lia).
        now rewrite Nat.Div0.mod_add.
      * apply Forall_app. split; [| exact Hall].
        repeat (apply Forall_cons; [apply tableAt_in |]). apply Forall_nil.
Qed.

(** The key of the handshake has 24 characters: 22 of the table, then
    ["=="], whatever the random bytes. *)
Theorem generateWebSocketKey_shape (rnd : nat -> Z) :
  exists body,
    generateWebSocketKey rnd = body ++ ["="; "="]%char
    /\ length body = 22%nat
    /\ Forall (fun c => In c table) body.
Proof.
  exists (firstn 22 (generateWebSocketKey rnd)).
  unfold generateWebSocketKey.
  cbn [seq map base64Encode app firstn]. unfold group. cbn [app firstn].
  split; [reflexivity |]. split; [reflexivity |].
  repeat (apply Forall_cons; [apply tableAt_in |]). apply Forall_nil.
Qed.

(** The table has no repeated character. *)
Lemma tableAt_injective (i j : Z) :
  0 <= i < 64 -> 0 <= j < 64 -> tableAt i = tableAt j -> i = j.
Proof.
  intros Hi Hj Heq.
  pose proof (below_by_computation
    (fun i => forallb (fun j => (i =? j) || negb (Ascii.eqb (tableAt i) (tableAt j)))
                      (map Z.of_nat (seq 0 64)))
    64 eq_refl i Hi) as H.
  cbv beta in H. rewrite forallb_forall in H.
  specialize (H j). rewrite Heq, Ascii.eqb_refl, orb_false_r in H.
  apply Z.eqb_eq, H.
  apply in_map_iff. exists (Z.to_nat j). split; [lia|]. apply in_seq. lia.
Qed.

Lemma tableAt_not_pad (x : Z) : tableAt (Z.land x 0x3F) <> "="%char.
Proof.
  intros H. apply pad_not_in_table. rewrite <- H. apply tableAt_in.
Qed.

(** Bits that do not overlap: [or] is [+]. *)
Lemma lor_add_low (x y k : Z) :
  0 <= k -> 0 <= y < 2 ^ k -> x mod 2 ^ k = 0 -> Z.lor x y = x + y.
Proof.
  intros Hk Hy Hx.
  assert (Hland : Z.land x y = 0).
  { apply Z.bits_inj'. intros n Hn. rewrite Z.land_spec, Z.bits_0.
    destruct (Z.ltb_spec n k).
    - rewrite <- (Z.mod_pow2_bits_low x k n) by lia. rewrite Hx, Z.bits_0.
      reflexivity.
    - rewrite <- (Z.mod_small y (2 ^ k)) by lia.
      rewrite Z.mod_pow2_bits_high by lia. apply andb_false_r. }
  rewrite <- Z.lxor_lor by exact Hland.
  now rewrite <- Z.add_nocarry_lxor by exact Hland.
Qed.

(** The 24 bits of a group, as a number. *)
Lemma group_bits (a b c : Z) :
  is_byte a -> is_byte b -> is_byte c ->
  u32 (Z.shiftl (u32 a) 16) = a * 65536
  /\ Z.lor (u32 (Z.shiftl (u32 a) 16)) (u32 (Z.shiftl (u32 b) 8))
     = a * 65536 + b * 256
  /\ Z.lor (Z.lor (u32 (Z.shiftl (u32 a) 16)) (u32 (Z.shiftl (u32 b) 8))) (u32 c)
     = a * 65536 + b * 256 + c.
Proof.
  unfold is_byte, u32. intros Ha Hb Hc.
  rewrite !Z.shiftl_mul_pow2 by lia.
  rewrite (Z.mod_small a), (Z.mod_small b), (Z.mod_small c) by lia.
  change (2 ^ 16) with 65536. change (2 ^ 8) with 256.
  rewrite (Z.mod_small (a * 65536)), (Z.mod_small (b * 256)) by lia.
  assert (E1 : Z.lor (a * 65536) (b * 256) = a * 65536 + b * 256).
  { apply (lor_add_low _ _ 16); [lia | change (2 ^ 16) with 65536; lia |].
    change (2 ^ 16) with 65536. apply Z.mod_mul. lia. }
  split; [reflexivity|]. split; [exact E1|].
  rewrite E1. apply (lor_add_low _ _ 8); [lia | change (2 ^ 8) with 256; lia |].
  change (2 ^ 8) with 256.
  replace (a * 65536 + b * 256) with ((a * 256 + b) * 256) by lia.
  apply Z.mod_mul. lia.
Qed.

Lemma index_eq (n m k : Z) :
  tableAt (Z.land (Z.shiftr n k) 0x3F) = tableAt (Z.land (Z.shiftr m k) 0x3F) ->
  0 <= k ->
  (n / 2 ^ k) mod 64 = (m / 2 ^ k) mod 64.
Proof.
  intros H Hk. rewrite !land_63, !Z.shiftr_div_pow2 in H by lia.
  apply tableAt_injective in H; [exact H | |]; apply Z.mod_pos_bound; lia.
Qed.

Lemma group3_injective (a b c a' b' c' : Z) :
  is_byte a -> is_byte b -> is_byte c ->
  is_byte a' -> is_byte b' -> is_byte c' ->
  group a (Some b) (Some c) = group a' (Some b') (Some c') ->
  a = a' /\ b = b' /\ c = c'.
Proof.
  intros Ha Hb Hc Ha' Hb' Hc'. unfold group.
  destruct (group_bits a b c Ha Hb Hc) as (_ & _ & ->).
  destruct (group_bits a' b' c' Ha' Hb' Hc') as (_ & _ & ->).
  intros H. injection H as H1 H2 H3 H4.
  apply index_eq in H1, H2, H3; try lia.
  replace (a * 65536 + b * 256 + c) with (Z.shiftr (a * 65536 + b * 256 + c) 0)
    in H4 at 1 by apply Z.shiftr_0_r.
  replace (a' * 65536 + b' * 256 + c')
    with (Z.shiftr (a' * 65536 + b' * 256 + c') 0) in H4 at 1
    by apply Z.shiftr_0_r.
  apply index_eq in H4; try lia.
  change (2 ^ 18) with 262144 in *. change (2 ^ 12) with 4096 in *.
  change (2 ^ 6) with 64 in *. change (2 ^ 0) with 1 in *.
  unfold is_byte in *. rewrite !Z.div_1_r in H4.
  Z.div_mod_to_equations. lia.
Qed.

Lemma group2_injective (a b a' b' : Z) :
  is_byte a -> is_byte b -> is_byte a' -> is_byte b' ->
  group a (Some b) None = group a' (Some b') None ->
  a = a' /\ b = b'.
Proof.
  intros Ha Hb Ha' Hb'. unfold group.
  destruct (group_bits a b 0 Ha Hb ltac:(unfold is_byte; lia)) as (_ & -> & _).
  destruct (group_bits a' b' 0 Ha' Hb' ltac:(unfold is_byte; lia)) as (_ & -> & _).
  intros H. injection H as H1 H2 H3.
  apply index_eq in H1, H2, H3; try lia.
  change (2 ^ 18) with 262144 in *. change (2 ^ 12) with 4096 in *.
  change (2 ^ 6) with 64 in *.
  unfold is_byte in *. Z.div_mod_to_equations. lia.
Qed.

Lemma group1_injective (a a' : Z) :
  is_byte a -> is_byte a' ->
  group a None None = group a' None None -> a = a'.
Proof.
  intros Ha Ha'. unfold group.
  destruct (group_bits a 0 0 Ha) as (-> & _); try (unfold is_byte; lia).
  destruct (group_bits a' 0 0 Ha') as (-> & _); try (unfold is_byte; lia).
  intros H. injection H as H1 H2.
  apply index_eq in H1, H2; try lia.
  change (2 ^ 18) with 262144 in *. change (2 ^ 12) with 4096 in *.
  unfold is_byte in *. Z.div_mod_to_equations. lia.
Qed.

Lemma group_length (a : Z) (ob oc : option Z) :
  length (group a ob oc) = 4%nat.
Proof. reflexivity. Qed.

Lemma group_pad3 (a : Z) (ob oc : option Z) :
  nth 2 (group a ob oc) "A"%char = "="%char <-> ob = None.
Proof.
  destruct ob as [b|]; unfold group; cbn [nth].
  - split; [intros E; exfalso; exact (tableAt_not_pad _ E) | discriminate].
  - split; reflexivity.
Qed.

Lemma group_pad4 (a : Z) (ob oc : option Z) :
  nth 3 (group a ob oc) "A"%char = "="%char <-> oc = None.
Proof.
  destruct oc as [c|]; unfold group; cbn [nth].
  - split; [intros E; exfalso; exact (tableAt_not_pad _ E) | discriminate].
  - split; reflexivity.
Qed.

Lemma base64Encode_3 (a b c : Z) (rest : list Z) :
  base64Encode (a :: b :: c :: rest)
  = group a (Some b) (Some c) ++ base64Encode rest.
Proof. reflexivity. Qed.

(** The padding tells how many bytes the last group holds. *)
Lemma base64Encode_pad3 (x : list Z) :
  nth 2 (base64Encode x) "A"%char = "="%char <-> length x = 1%nat.
Proof.
  destruct x as [|a [|b [|c r]]].
  - split; discriminate.
  - change (base64Encode [a]) with (group a None None).
    split; [reflexivity | intros _; now apply group_pad3].
  - change (base64Encode [a; b]) with (group a (Some b) None).
    split; [intros E; now apply group_pad3 in E | discriminate].
  - rewrite base64Encode_3, app_nth1 by (rewrite group_length; lia).
    split; [intros E; now apply group_pad3 in E | discriminate].
Qed.

Lemma base64Encode_pad4 (x : list Z) :
  nth 3 (base64Encode x) "A"%char = "="%char
  <-> length x = 1%nat \/ length x = 2%nat.
Proof.
  destruct x as [|a [|b [|c r]]].
  - split; [discriminate | intros [E|E]; discriminate].
  - change (base64Encode [a]) with (group a None None).
    split; [now left | intros _; now apply group_pad4].
  - change (base64Encode [a; b]) with (group a (Some b) None).
    split; [now right | intros _; now apply group_pad4].
  - rewrite base64Encode_3, app_nth1 by (rewrite group_length; lia).
    split; [intros E; now apply group_pad4 in E | intros [E|E]; discriminate].
Qed.

Lemma base64Encode_cons (a : Z) (r : list Z) : base64Encode (a :: r) <> [].
Proof.
  intros E. apply (f_equal (@length ascii)) in E.
  destruct r as [|b [|c r]].
  - change (base64Encode [a]) with (group a None None) in E.
    rewrite group_length in E. discriminate E.
  - change (base64Encode [a; b]) with (group a (Some b) None) in E.
    rewrite group_length in E. discriminate E.
  - rewrite base64Encode_3, length_app, group_length in E. discriminate E.
Qed.

Lemma app_eq_length (A : Type) (l1 l1' l2 l2' : list A) :
  length l1 = length l1' -> l1 ++ l2 = l1' ++ l2' -> l1 = l1' /\ l2 = l2'.
Proof.
  revert l1'. induction l1 as [|x l1 IH]; intros [|x' l1'] Hlen Heq;
    try discriminate Hlen.
  - now split.
  - cbn [app] in Heq. injection Heq as -> Heq. injection Hlen as Hlen.
    destruct (IH l1' Hlen Heq) as [-> ->]. now split.
Qed.

(** Nothing is lost in the encoding: two byte sequences with the same
    encoding are the same sequence. *)
Theorem base64Encode_injective (x : list Z) :
  forall y,
  Forall is_byte x -> Forall is_byte y ->
  base64Encode x = base64Encode y -> x = y.
Proof.
  induction x as [| a | a b | a b c rest IH] using list_ind3;
    intros y Hx Hy Heq;
    pose proof (base64Encode_pad3 y) as P3;
    pose proof (base64Encode_pad4 y) as P4;
    rewrite <- Heq in P3, P4;
    destruct y as [|a' [|b' [|c' rest']]];
    try reflexivity;
    try (exfalso; now apply (base64Encode_cons _ _ Heq));
    try (exfalso; symmetry in Heq; now apply (base64Encode_cons _ _ Heq));
    repeat match goal with
           | H : Forall is_byte (_ :: _) |- _ =>
               apply Forall_cons_iff in H; destruct H as [? H]
           end.
  - f_equal. now apply group1_injective.
  - exfalso. apply proj1 in P3. specialize (P3 ltac:(now apply base64Encode_pad3)).
    discriminate P3.
  - exfalso. apply proj1 in P3. specialize (P3 ltac:(now apply base64Encode_pad3)).
    discriminate P3.
  - exfalso. apply proj2 in P3. specialize (P3 eq_refl).
    apply base64Encode_pad3 in P3. discriminate P3.
  - destruct (group2_injective a b a' b') as [-> ->]; auto.
  - exfalso. apply proj1 in P4.
    specialize (P4 ltac:(apply base64Encode_pad4; now right)).
    destruct P4 as [E|E]; discriminate E.
  - exfalso. apply proj2 in P3. specialize (P3 eq_refl).
    apply base64Encode_pad3 in P3. discriminate P3.
  - exfalso. apply proj2 in P4. specialize (P4 (or_intror eq_refl)).
    apply base64Encode_pad4 in P4. destruct P4 as [E|E]; discriminate E.
  - rewrite !base64Encode_3 in Heq.
    apply app_eq_length in Heq; [| now rewrite !group_length].
    destruct Heq as [Hg Hrest].
    destruct (group3_injective a b c a' b' c') as (-> & -> & ->); auto.
    do 3 f_equal. now apply IH.
Qed.

Lemma base64Encode_injective_witness :
  Forall is_byte [77; 97]
  /\ base64Encode [77; 97] = base64Encode [77; 97]
  /\ [77; 97] = [77; 97].
Proof.
  assert (Hb : Forall is_byte [77; 97])
    by (repeat constructor; unfold is_byte; lia).
  split; [exact Hb |]. split; [reflexivity |].
  apply (base64Encode_injective [77; 97] [77; 97] Hb Hb). reflexivity.
Defined.

Example base64_examples :
  string_of_list_ascii (base64Encode [77; 97; 110]) = "TWFu"%string
  /\ string_of_list_ascii (base64Encode [77; 97]) = "TWE="%string
  /\ string_of_list_ascii (base64Encode [77]) = "TQ=="%string.
Proof. repeat split. Qed.

End Base64Facts.

(** ** The send queue *)

Section QueueFacts.
Import LockFreeQueue.
Local Open Scope nat_scope.
Context {T : Type} (default : T) (movedFrom : T -> T).

Lemma nth_error_freed (k i : nat) (l : Heap (T := T)) :
  nth_error (repeat None k ++ l) (k + i) = nth_error l i.
Proof. induction k as [|k IH]; [reflexivity | exact IH]. Qed.

Lemma set_freed (k i : nat) (l : Heap (T := T)) (c : option Node) :
  set (repeat None k ++ l) (k + i) c = repeat None k ++ set l i c.
Proof.
  induction k as [|k IH]; [reflexivity |].
  cbn [repeat app Nat.add set]. now rewrite IH.
Qed.

Lemma load_freed (k i : nat) (l : Heap (T := T)) :
  load (repeat None k ++ l) (k + i) = load l i.
Proof. unfold load. now rewrite nth_error_freed. Qed.

Lemma load_freed0 (k : nat) (l : Heap (T := T)) :
  load (repeat None k ++ l) k = load l 0.
Proof. rewrite <- (Nat.add_0_r k) at 2. apply load_freed. Qed.

Lemma set_freed0 (k : nat) (l : Heap (T := T)) (c : option Node) :
  set (repeat None k ++ l) k c = repeat None k ++ set l 0 c.
Proof. rewrite <- (Nat.add_0_r k) at 2. apply set_freed. Qed.

Lemma load_here (n : Node (T := T)) (l : Heap) : load (Some n :: l) 0 = Some n.
Proof. reflexivity. Qed.

Lemma load_next (c : option (Node (T := T))) (l : Heap) (i : nat) :
  load (c :: l) (S i) = load l i.
Proof. reflexivity. Qed.

Lemma load_freedS (k : nat) (c : option Node) (l : Heap (T := T)) :
  load (repeat None k ++ c :: l) (S k) = load l 0.
Proof. rewrite <- (Nat.add_1_r k). now rewrite load_freed. Qed.

Lemma set_freedS (k : nat) (c0 c : option Node) (l : Heap (T := T)) :
  set (repeat None k ++ c0 :: l) (S k) c = repeat None k ++ c0 :: set l 0 c.
Proof. rewrite <- (Nat.add_1_r k). now rewrite set_freed. Qed.

Lemma length_cells (items : list T) :
  forall p d, length (cells p d items) = S (length items).
Proof.
  induction items as [|x xs IH]; intros p d; [reflexivity |].
  cbn [cells length]. now rewrite IH.
Qed.

Lemma cells_snoc (x : T) (items : list T) :
  forall p d, exists dl,
    nth_error (cells p d items ++ [Some (mkNode x None)]) (length items)
    = Some (Some (mkNode dl None))
    /\ set (cells p d items ++ [Some (mkNode x None)]) (length items)
           (Some (mkNode dl (Some (S (p + length items)))))
       = cells p d (items ++ [x]).
Proof.
  induction items as [|y ys IH]; intros p d.
  - exists d. cbn. now rewrite Nat.add_0_r.
  - destruct (IH (S p) y) as (dl & Hn & Hs). exists dl.
    cbn [cells app length nth_error set]. split; [exact Hn |].
    replace (p + S (length ys)) with (S p + length ys) by lia.
    now rewrite Hs.
Qed.

Lemma push_repr (x : T) (q : Queue) (items : list T) :
  repr q items ->
  exists q', push x q = Some q' /\ repr q' (items ++ [x])
             /\ length (heap q') = S (length (heap q)).
Proof.
  destruct q as [h hd tl]. intros (d & Hh & Ht). cbn [heap head_ tail_] in *.
  subst h tl. unfold push, new. cbn [heap head_ tail_].
  rewrite <- app_assoc, load_freed. unfold load.
  destruct (cells_snoc x items hd d) as (dl & Hn & Hs). rewrite Hn.
  rewrite set_freed, length_app, repeat_length, length_cells.
  replace (hd + S (length items)) with (S (hd + length items)) by lia.
  cbn [data]. rewrite Hs.
  eexists. split; [reflexivity |]. split.
  - exists d. cbn [heap head_ tail_]. split; [reflexivity |].
    rewrite length_app. cbn [length]. lia.
  - cbn [heap]. rewrite !length_app, repeat_length, !length_cells, length_app.
    cbn [length]. lia.
Qed.

Lemma pop_repr_nil (q : Queue) :
  repr q [] -> pop movedFrom q = Some (None, q).
Proof.
  destruct q as [h hd tl]. intros (d & Hh & Ht). cbn [heap head_ tail_] in *.
  subst h. unfold pop. cbn [heap head_ tail_ cells].
  now rewrite load_freed0, load_here.
Qed.

Lemma cells_head (p : nat) (d : T) (items : list T) :
  exists link rest, cells p d items = Some (mkNode d link) :: rest
    /\ forall d', cells p d' items = Some (mkNode d' link) :: rest.
Proof. destruct items; cbn [cells]; eauto. Qed.

Lemma pop_repr_cons (q : Queue) (x : T) (xs : list T) :
  repr q (x :: xs) ->
  exists q', pop movedFrom q = Some (Some x, q') /\ repr q' xs
             /\ length (heap q') = length (heap q).
Proof.
  destruct q as [h hd tl]. intros (d & Hh & Ht). cbn [heap head_ tail_] in *.
  subst h tl. unfold pop, delete. cbn [heap head_ tail_ cells].
  rewrite load_freed0, load_here. cbn [next].
  destruct (cells_head (S hd) x xs) as (link & rest & Hc & Hc').
  rewrite Hc, load_freedS, load_here, set_freedS. cbn [set data next].
  rewrite load_freed0, load_here, set_freed0. cbn [set].
  eexists. split; [reflexivity |]. split.
  - exists (movedFrom x). cbn [heap head_ tail_ length]. split; [| lia].
    rewrite Hc'. cbn [repeat].
    rewrite repeat_cons, <- app_assoc. reflexivity.
  - cbn [heap]. rewrite !length_app. cbn [length]. reflexivity.
Qed.

Lemma empty_repr (q : Queue) (items : list T) :
  repr q items ->
  empty q = Some (match items with [] => true | _ => false end).
Proof.
  destruct q as [h hd tl]. intros (d & Hh & Ht). cbn [heap head_ tail_] in *.
  subst h. unfold empty. cbn [heap head_].
  rewrite load_freed0.
  destruct items; reflexivity.
Qed.

Lemma create_repr : repr (create default) [].
Proof. exists default. split; reflexivity. Qed.

Lemma run_repr (ops : list Op) :
  forall q items,
  repr q items ->
  exists q',
    run movedFrom ops q = Some (fst (fifo ops items), q')
    /\ repr q' (snd (fifo ops items))
    /\ length (heap q') = length (heap q) + pushes ops.
Proof.
  induction ops as [|[x| |] ops IH]; intros q items Hq.
  - exists q. cbn. repeat split; [assumption | unfold pushes; cbn; lia].
  - destruct (push_repr x q items Hq) as (q1 & Hp & Hr & Hl).
    destruct (IH q1 _ Hr) as (q2 & Hrun & Hr2 & Hl2).
    exists q2. cbn [run fifo]. rewrite Hp, Hrun.
    destruct (fifo ops (items ++ [x])) as [outs left]. cbn [fst snd] in *.
    repeat split; [assumption |]. unfold pushes in *. cbn [filter length].
    lia.
  - destruct items as [|y ys].
    + destruct (IH q [] Hq) as (q2 & Hrun & Hr2 & Hl2).
      exists q2. cbn [run fifo]. rewrite (pop_repr_nil q Hq), Hrun.
      destruct (fifo ops []) as [outs left]. cbn [fst snd] in *.
      repeat split; [assumption |]. unfold pushes in *. cbn [filter]. lia.
    + destruct (pop_repr_cons q y ys Hq) as (q1 & Hp & Hr & Hl).
      destruct (IH q1 _ Hr) as (q2 & Hrun & Hr2 & Hl2).
      exists q2. cbn [run fifo]. rewrite Hp, Hrun.
      destruct (fifo ops ys) as [outs left]. cbn [fst snd] in *.
      repeat split; [assumption |]. unfold pushes in *. cbn [filter]. lia.
  - destruct (IH q items Hq) as (q2 & Hrun & Hr2 & Hl2).
    exists q2. cbn [run fifo]. rewrite (empty_repr q items Hq), Hrun.
    destruct (fifo ops items) as [outs left]. cbn [fst snd] in *.
    repeat split; [assumption |]. unfold pushes in *. cbn [filter]. lia.
Qed.

(** Whatever a single thread does with the queue, every call finds the
    nodes it touches allocated and returns what a first-in first-out list
    returns: [pop] hands out the items in the order of the [push]es, and
    [nullopt] exactly when all of them were taken. *)
Theorem queue_is_fifo (ops : list Op) :
  exists q,
    run movedFrom ops (create default) = Some (fst (fifo ops []), q)
    /\ repr q (snd (fifo ops [])).
Proof.
  destruct (run_repr ops (create default) [] create_repr) as (q & H1 & H2 & _).
  now exists q.
Qed.

Lemma drain_repr (fuel : nat) :
  forall q items,
  repr q items -> length items < fuel ->
  exists q', drain movedFrom fuel q = Some q' /\ repr q' []
             /\ length (heap q') = length (heap q).
Proof.
  induction fuel as [|fuel IH]; intros q items Hq Hlt; [lia |].
  destruct items as [|x xs].
  - exists q. cbn [drain]. now rewrite (pop_repr_nil q Hq).
  - destruct (pop_repr_cons q x xs Hq) as (q1 & Hp & Hr & Hl).
    cbn [length] in Hlt.
    destruct (IH q1 xs Hr ltac:(lia)) as (q2 & Hd & Hr2 & Hl2).
    exists q2. cbn [drain]. rewrite Hp. repeat split; [assumption.. | lia].
Qed.

Lemma destroy_repr (fuel : nat) (q : Queue) (items : list T) :
  repr q items -> length items < fuel ->
  destroy movedFrom fuel q = Some (repeat None (length (heap q))).
Proof.
  intros Hq Hlt.
  destruct (drain_repr fuel q items Hq Hlt) as (q' & Hd & Hr & Hl).
  unfold destroy. rewrite Hd, <- Hl. clear - Hr.
  destruct q' as [h hd tl]. destruct Hr as (d & Hh & _).
  cbn [heap head_ tail_ cells] in *. subst h. unfold delete.
  rewrite load_freed0, load_here, set_freed0.
  cbn [set]. rewrite length_app, repeat_length. cbn [length].
  rewrite Nat.add_1_r. cbn [repeat]. now rewrite repeat_cons.
Qed.

Lemma fifo_left (ops : list Op) :
  forall items : list T,
  length (snd (fifo ops items)) <= length items + pushes ops.
Proof.
  induction ops as [|[x| |] ops IH]; intros items; unfold pushes in *;
    cbn [fifo filter length].
  - cbn. lia.
  - specialize (IH (items ++ [x])). destruct (fifo ops (items ++ [x])).
    cbn [snd] in *. rewrite length_app in IH. cbn [length] in IH. lia.
  - destruct items as [|y ys].
    + specialize (IH []). destruct (fifo ops []). cbn [snd length] in *. lia.
    + specialize (IH ys). destruct (fifo ops ys). cbn [snd length] in *. lia.
  - specialize (IH items). destruct (fifo ops items). cbn [snd] in *. lia.
Qed.

Lemma pushes_le (ops : list (@Op T)) : pushes ops <= length ops.
Proof. apply filter_length_le. Qed.

(** The destructor, after any use of the queue by one thread, frees every
    node that was ever allocated (the dummy node and one node for each
    [push]) exactly once. *)
Theorem destructor_frees_every_node (ops : list Op) :
  exists outs q,
    run movedFrom ops (create default) = Some (outs, q)
    /\ destroy movedFrom (S (length ops)) q
       = Some (repeat None (S (pushes ops))).
Proof.
  destruct (run_repr ops (create default) [] create_repr) as (q & H1 & H2 & H3).
  exists (fst (fifo ops [])), q. split; [exact H1 |].
  rewrite (destroy_repr (S (length ops)) q _ H2).
  - rewrite H3. reflexivity.
  - pose proof (fifo_left ops []) as Hle. pose proof (pushes_le ops).
    cbn [length] in Hle. lia.
Qed.

End QueueFacts.

(** ** The buffer pool *)

Section PoolFacts.
Import BufferPool.
Local Open Scope nat_scope.

Lemma held_app (bs : list Buffer) (b : Buffer) :
  held (bs ++ [b]) = held bs ++ owned b.
Proof. unfold held. rewrite flat_map_app. cbn. now rewrite app_nil_r. Qed.

Lemma held_set (bs : list Buffer) :
  forall i b b',
  nth_error bs i = Some b ->
  Permutation (owned b ++ held (set bs i b')) (owned b' ++ held bs).
Proof.
  induction bs as [|x bs IH]; intros [|i] b b' H; try discriminate H.
  - injection H as ->. cbn [set held flat_map].
    rewrite !app_assoc. apply Permutation_app_tail, Permutation_app_comm.
  - cbn [nth_error] in H. specialize (IH i b b' H).
    cbn [set held flat_map]. fold (held (set bs i b')). fold (held bs).
    rewrite !app_assoc.
    rewrite (Permutation_app_comm (owned b) (owned x)).
    rewrite (Permutation_app_comm (owned b') (owned x)).
    rewrite <- !app_assoc. now apply Permutation_app_head.
Qed.

Lemma nth_error_set_other (bs : list Buffer) :
  forall i j b, i <> j -> nth_error (set bs i b) j = nth_error bs j.
Proof.
  induction bs as [|x bs IH]; intros [|i] [|j] b H; try reflexivity.
  - contradiction.
  - cbn [set nth_error]. apply IH. lia.
Qed.

Lemma available_back (av : list nat) (ptr : nat) (r : list nat) :
  rev av = ptr :: r -> av = removelast av ++ [ptr].
Proof.
  intros H. apply (f_equal (@rev nat)) in H. rewrite rev_involutive in H.
  cbn [rev] in H. subst av. now rewrite removelast_last.
Qed.

Lemma release_owned (b : Buffer) (p : Pool) :
  fst (release b p) = None
  /\ available_ (snd (release b p)) = available_ p ++ owned b
  /\ buffers_ (snd (release b p)) = buffers_ p.
Proof. destruct b; cbn; now rewrite ?app_nil_r. Qed.

Lemma step_keeps_buffers_apart (op : Op) (bs : list Buffer) (p : Pool) :
  Permutation (held bs ++ available_ p) (seq 0 (buffers_ p)) ->
  Permutation (held (fst (step op (bs, p))) ++ available_ (snd (step op (bs, p))))
              (seq 0 (buffers_ (snd (step op (bs, p)))))
  /\ buffers_ p <= buffers_ (snd (step op (bs, p))).
Proof.
  intros I. destruct op as [|i|j|i j]; cbn [step].
  - unfold acquire. destruct (rev (available_ p)) as [|ptr r] eqn:E.
    + cbn [fst snd available_ buffers_]. split; [| lia].
      apply (f_equal (@rev nat)) in E. rewrite rev_involutive in E.
      cbn [rev] in E. rewrite E in I. rewrite app_nil_r in *.
      rewrite held_app, seq_S. cbn [owned Nat.add].
      now apply Permutation_app_tail.
    + cbn [fst snd available_ buffers_]. split; [| lia].
      apply available_back in E. rewrite E in I.
      rewrite held_app. cbn [owned]. rewrite <- app_assoc.
      etransitivity; [| exact I].
      apply Permutation_app_head, Permutation_app_comm.
  - destruct (nth_error bs i) as [b|] eqn:E; [| now split].
    destruct (release_owned b p) as (Hb & Ha & Hn).
    destruct (release b p) as [b' p']. cbn [fst snd] in *. subst b'.
    rewrite Ha, Hn. split; [| lia].
    pose proof (held_set bs i b None E) as Hs. cbn [owned app] in Hs.
    etransitivity; [| exact I].
    rewrite app_assoc.
    rewrite (Permutation_app_comm (held (set bs i None)) (available_ p)).
    rewrite <- app_assoc. rewrite (Permutation_app_comm (available_ p)).
    apply Permutation_app_tail.
    rewrite (Permutation_app_comm _ (owned b)). exact Hs.
  - destruct (nth_error bs j) as [other|] eqn:E; [| now split].
    cbn [fst snd]. split; [| lia].
    pose proof (held_set bs j other None E) as Hs. cbn [owned app] in Hs.
    etransitivity; [| exact I]. apply Permutation_app_tail.
    rewrite held_app. etransitivity; [apply Permutation_app_comm | exact Hs].
  - destruct (nth_error bs i) as [b|] eqn:Ei; [| now split].
    destruct (nth_error bs j) as [other|] eqn:Ej; [| now split].
    destruct (Nat.eqb_spec i j) as [->|Hij]; [now split |].
    destruct (release_owned b p) as (Hb & Ha & Hn).
    destruct (release b p) as [b' p']. cbn [fst snd] in *. subst b'.
    rewrite Ha, Hn. split; [| lia].
    pose proof (held_set bs i b other Ei) as H1.
    assert (Ej' : nth_error (set bs i other) j = Some other)
      by now rewrite nth_error_set_other.
    pose proof (held_set (set bs i other) j other None Ej') as H2.
    cbn [owned app] in H2.
    assert (H3 : Permutation (owned b ++ held (set (set bs i other) j None))
                             (held bs)).
    { apply (Permutation_app_inv_l (owned other)).
      rewrite <- H1, <- H2, !app_assoc.
      apply Permutation_app_tail, Permutation_app_comm. }
    etransitivity; [| exact I].
    rewrite app_assoc.
    rewrite (Permutation_app_comm (held _) (available_ p)).
    rewrite <- app_assoc. rewrite (Permutation_app_comm (available_ p)).
    apply Permutation_app_tail.
    rewrite (Permutation_app_comm _ (owned b)). exact H3.
Qed.

Lemma run_keeps_buffers_apart (ops : list Op) :
  forall bs p,
  Permutation (held bs ++ available_ p) (seq 0 (buffers_ p)) ->
  Permutation (held (fst (run ops (bs, p))) ++ available_ (snd (run ops (bs, p))))
              (seq 0 (buffers_ (snd (run ops (bs, p)))))
  /\ buffers_ p <= buffers_ (snd (run ops (bs, p))).
Proof.
  induction ops as [|op ops IH]; intros bs p I; [now split |].
  cbn [run fold_left].
  destruct (step_keeps_buffers_apart op bs p I) as [I1 L1].
  destruct (step op (bs, p)) as [bs1 p1]. cbn [fst snd] in *.
  destruct (IH bs1 p1 I1) as [I2 L2]. unfold run in *. split; [exact I2 | lia].
Qed.

(** Whatever a program does with its [Buffer] objects (acquire, destroy,
    move), no buffer is held by two of them or held and available
    at once, every buffer of the pool is either held or available, and
    the pool never shrinks below its initial size. *)
Theorem buffers_are_held_or_available
    (ops : list Op) (bufferSize : Z) (poolSize : nat) :
  let st := run ops ([], create bufferSize poolSize) in
  NoDup (held (fst st) ++ available_ (snd st))
  /\ (forall ptr, In ptr (held (fst st) ++ available_ (snd st))
                  <-> ptr < buffers_ (snd st))
  /\ length (held (fst st)) + available (snd st) = buffers_ (snd st)
  /\ poolSize <= buffers_ (snd st).
Proof.
  intros st.
  destruct (run_keeps_buffers_apart ops [] (create bufferSize poolSize))
    as [I L]; [reflexivity |].
  fold st in I, L. cbn [create buffers_] in L.
  repeat split.
  - apply (Permutation_NoDup (Permutation_sym I)), seq_NoDup.
  - intros H. apply (Permutation_in _ I), in_seq in H. lia.
  - intros H. apply (Permutation_in _ (Permutation_sym I)), in_seq. lia.
  - apply Permutation_length in I. rewrite length_app, length_seq in I.
    exact I.
  - exact L.
Qed.

End PoolFacts.

(** ** The URL and its port *)

Section UrlPort.
Import Url Session.
Local Open Scope string_scope.

Lemma rfind_app_colon (c : ascii) (a b : string) :
  rfind c b = None -> rfind c (a ++ String c b) = Some (String.length a).
Proof.
  intros Hb. induction a as [|x a IH]; cbn [append rfind String.length].
  - now rewrite Hb, Ascii.eqb_refl.
  - now rewrite IH.
Qed.

Lemma find_cons_other (c x : ascii) (s : string) :
  Ascii.eqb x c = false -> find c s = None -> find c (String x s) = None.
Proof. intros Hx Hs. cbn [find]. now rewrite Hx, Hs. Qed.

Lemma digit_not_space (c : ascii) (d : Z) :
  digit c = Some d ->
  isspace c = false /\ c <> "-"%char /\ c <> "+"%char /\ 0 <= d < 10.
Proof.
  destruct c as [[] [] [] [] [] [] [] []]; intros H; try discriminate H;
    cbv in H; injection H as <-; repeat split; try discriminate; lia.
Qed.

Lemma digits_nonneg (s : string) :
  forall a v, 0 <= a -> digits s (Some a) = Some v -> 0 <= v.
Proof.
  induction s as [|c s IH]; intros a v Ha H; cbn [digits] in H.
  - injection H as <-. exact Ha.
  - destruct (digit c) as [d|] eqn:Hd.
    + apply digit_not_space in Hd as (_ & _ & _ & Hr).
      apply (IH (10 * a + d) v); [lia | exact H].
    + injection H as <-. exact Ha.
Qed.

(** [std::stoi] on a text that starts with a digit: the value of the
    leading digits, whatever follows them. *)
Lemma stoi_digits (s : string) (v : Z) :
  digits s None = Some v ->
  stoi s = if v >? INT_MAX then Threw out_of_range else Returned v.
Proof.
  intros H. destruct s as [|c s]; [discriminate H |].
  cbn [digits] in H. destruct (digit c) as [d|] eqn:Hd; [| discriminate H].
  pose proof (digit_not_space c d Hd) as (Hsp & Hm & Hp & Hr).
  assert (Hv : 0 <= v) by (apply (digits_nonneg s (10 * 0 + d) v); [lia | exact H]).
  unfold stoi. cbn [skipSpaces]. rewrite Hsp.
  assert (Hsign :
    match String c s with
    | String "-" tl => (true, tl)
    | String "+" tl => (false, tl)
    | _ => (false, String c s)
    end = (false, String c s)).
  { clear - Hd. destruct c as [[] [] [] [] [] [] [] []];
      try reflexivity; discriminate Hd. }
  rewrite Hsign. cbn [digits]. rewrite Hd, H.
  replace (v <? INT_MIN)%Z with false
    by (symmetry; apply Z.ltb_ge; unfold INT_MIN; lia).
  reflexivity.
Qed.

(** A URL with a numeric port.  The port is the value of the digits that
    follow the last [':'], reduced modulo 65536: a port above 65535 is not
    refused, it wraps around; what follows the digits is ignored; and a
    value above [INT_MAX] makes [parseUrl] throw. *)
Theorem parseUrl_numeric_port
    (secure : bool) (hostname portStr path : string) (v : Z) :
  find "/" hostname = None ->
  find "/" portStr = None -> rfind ":" portStr = None ->
  digits portStr None = Some v ->
  path = "" \/ (exists p, path = String "/" p) ->
  parseUrl ((if secure then "wss://" else "ws://")
              ++ (hostname ++ String ":" portStr) ++ path)
  = if v >? INT_MAX then Threw out_of_range
    else Returned (mkParsedUrl secure hostname (v mod 65536)
                               (if String.eqb path "" then "/" else path)).
Proof.
  intros Hh Hp1 Hp2 Hv Hpath.
  rewrite parseUrl_shape; [| | exact Hpath].
  2:{ rewrite find_app_none by exact Hh.
      now rewrite (find_cons_other "/" ":" portStr eq_refl Hp1). }
  cbv zeta. rewrite (rfind_app_colon ":" hostname portStr Hp2).
  rewrite take_app.
  replace (String.length hostname + 1)%nat
    with (String.length (hostname ++ ":")).
  2:{ clear. induction hostname as [|c h IH]; cbn; [reflexivity | now rewrite IH]. }
  replace (hostname ++ String ":" portStr) with ((hostname ++ ":") ++ portStr).
  2:{ clear. induction hostname as [|c h IH]; cbn; [reflexivity | now rewrite IH]. }
  rewrite substr_app, (stoi_digits portStr v Hv).
  destruct (v >? INT_MAX); reflexivity.
Qed.

Lemma parseUrl_numeric_port_witness :
  parseUrl ("ws://" ++ ("host" ++ String ":" "65616x") ++ "/chat")
  = Returned (mkParsedUrl false "host" 80 "/chat").
Proof.
  apply (parseUrl_numeric_port false "host" "65616x" "/chat" 65616).
  - reflexivity.
  - reflexivity.
  - reflexivity.
  - reflexivity.
  - right. exists "chat". reflexivity.
Defined.

(** A URL without a port: the host is what stands between the scheme and
    the path, the port is 443 for [wss://] and 80 for [ws://], the path is
    ["/"] when the URL has none; the parse is valid unless the host is
    empty. *)
Theorem parseUrl_default_port (secure : bool) (hostname path : string) :
  find "/" hostname = None -> rfind ":" hostname = None ->
  path = "" \/ (exists p, path = String "/" p) ->
  exists r,
    parseUrl ((if secure then "wss://" else "ws://") ++ hostname ++ path)
    = Returned r
    /\ r = mkParsedUrl secure hostname (if secure then 443 else 80)
                       (if String.eqb path "" then "/" else path)
    /\ valid r = negb (String.eqb hostname "").
Proof.
  intros Hh Hc Hpath. eexists. split; [| split; [reflexivity |]].
  - rewrite parseUrl_shape by assumption. cbv zeta. now rewrite Hc.
  - unfold valid. cbn [host port]. destruct secure; cbn; now rewrite andb_true_r.
Qed.

Lemma parseUrl_default_port_witness :
  exists r,
    parseUrl ("wss://" ++ "echo.example" ++ "")
    = Returned r
    /\ r = mkParsedUrl true "echo.example" 443 "/"
    /\ valid r = true.
Proof.
  apply (parseUrl_default_port true "echo.example" "").
  - reflexivity.
  - reflexivity.
  - left. reflexivity.
Defined.

End UrlPort.
